(** * SPARC: the distributed radial N-body kernel

    A shallow embedding of the MPI variant's core
    ([ParticleSystem.cpp], [update_electric_field.cpp],
    [sort_particles.cpp]) and the properties its specification states,
    and of the rest of its time step ([update_positions.cpp],
    [compute_energy.cpp], [save_positions.cpp], the loop of [main.cpp])
    with the properties the code itself shows.

    Modelling conventions.
    - A C++ [double] is an exact rational ([Q]): sums, products and quotients
      are the mathematical ones, comparisons are the usual order.  Rounding,
      infinities and NaN are outside the model; where the specification
      speaks of minus infinity an extended value type is used on the
      specification side only.  The thresholds [1e-30] and [1e-15] are the
      doubles the compiler reads.  A property that holds in this arithmetic
      and not on the rounded doubles of the machine is stated as holding
      in exact arithmetic; the module [Binary64] holds the field solver on
      IEEE binary64 numbers, to tell the two apart.
    - [int] counters and indices that the code keeps non-negative are [nat];
      [long long] histogram arithmetic is [Z] (truncating division is
      [Z.quot]).
    - A [std::vector<double>] is a [list double]; [v[i]] is [nth i v 0].
      The class keeps every array at length [n_particles] ([resize]); the
      loops of the source run over [0 .. n_particles).
    - The program is SPMD: a run is a list of shells, one per rank, rank [p]
      at position [p].  The code of one rank is a function of its shell, its
      [MPIContext] and the values the collectives deliver; the collectives
      are functions of the list of contributions of all ranks. *)

From Stdlib Require Import String.
From Stdlib Require Import List ZArith QArith Qround Qabs Lia Lqa Bool Arith.
From Stdlib Require Import Permutation Sorted.
From Stdlib Require Import Zify ZifyNat.
From Stdlib Require Import Floats Uint63.
Import ListNotations.

Set Implicit Arguments.
Local Open Scope nat_scope.

(** ** Numbers *)

Definition double := Q.
Bind Scope Q_scope with double.

(** [a < b] on doubles, as a boolean. *)
Definition dlt (a b : double) : bool := negb (Qle_bool b a).

(** The literals [1e-30] and [1e-15] of the source are not binary64
    values: the compiler reads each as the nearest double, which is a
    little above the decimal number.  The guards of the code compare with
    these doubles. *)
Definition double_1e_30 : double := 0x1.4484bfeebc2ap-100.
Definition double_1e_15 : double := 0x1.203af9ee75616p-50.

(** [v[i]] *)
Definition at_ (v : list double) (i : nat) : double := nth i v 0%Q.
Notation "v .[ i ]" := (at_ v i) (at level 1, left associativity, format "v .[ i ]").

(** ** ParticleSystem (include/ParticleSystem.h, ParticleSystem.cpp) *)

Record ParticleSystem := mkParticleSystem {
  name : string;
  x : list double;
  y : list double;
  z : list double;
  vx : list double;
  vy : list double;
  vz : list double;
  q : list double;
  Er : list double;
  r2 : list double;
  iqom : double;
  n_particles : nat;
  n_total : Z
}.

Record MPIContext := mkMPIContext {
  rank : nat;
  size : nat
}.

(** [std::vector<double>::resize]: truncate, or extend with [0.0]. *)
Definition vec_resize (new_size : nat) (v : list double) : list double :=
  firstn new_size v ++ repeat 0%Q (new_size - length v).

Definition resize (ps : ParticleSystem) (new_size : nat) : ParticleSystem :=
  {| name := name ps;
     x := vec_resize new_size (x ps);
     y := vec_resize new_size (y ps);
     z := vec_resize new_size (z ps);
     vx := vec_resize new_size (vx ps);
     vy := vec_resize new_size (vy ps);
     vz := vec_resize new_size (vz ps);
     q := vec_resize new_size (q ps);
     Er := vec_resize new_size (Er ps);
     r2 := vec_resize new_size (r2 ps);
     iqom := iqom ps;
     n_particles := new_size;
     n_total := n_total ps |}.

(** The constructor: all nine arrays of length [local_particles], zeroed. *)
Definition ParticleSystem_new (local_particles : nat) (total_particles : Z)
    (species_name : string) (inv_qom : double) : ParticleSystem :=
  resize {| name := species_name;
            x := []; y := []; z := []; vx := []; vy := []; vz := [];
            q := []; Er := []; r2 := [];
            iqom := inv_qom;
            n_particles := local_particles;
            n_total := total_particles |} local_particles.

(** A run of the program is a list of shells; [shell shells p] is the one
    of rank [p]. *)
Definition no_shell : ParticleSystem := ParticleSystem_new 0 0 "" 0.

Definition shell (shells : list ParticleSystem) (p : nat) : ParticleSystem :=
  nth p shells no_shell.

Definition set_r2 (ps : ParticleSystem) (v : list double) : ParticleSystem :=
  {| name := name ps; x := x ps; y := y ps; z := z ps;
     vx := vx ps; vy := vy ps; vz := vz ps; q := q ps; Er := Er ps;
     r2 := v; iqom := iqom ps; n_particles := n_particles ps;
     n_total := n_total ps |}.

Definition set_Er (ps : ParticleSystem) (v : list double) : ParticleSystem :=
  {| name := name ps; x := x ps; y := y ps; z := z ps;
     vx := vx ps; vy := vy ps; vz := vz ps; q := q ps; Er := v;
     r2 := r2 ps; iqom := iqom ps; n_particles := n_particles ps;
     n_total := n_total ps |}.

(** A loop [for (i = 0; i < n; i++) v[i] = f(i);] over a vector of length
    at least [n]: the first [n] cells are rewritten, the rest is kept. *)
Definition fill (n : nat) (f : nat -> double) (v : list double) : list double :=
  map f (seq 0 n) ++ skipn n v.

(** [for (i...) r2[i] = x[i]*x[i] + y[i]*y[i] + z[i]*z[i];] *)
Definition computeSquareRadius (ps : ParticleSystem) : ParticleSystem :=
  set_r2 ps
    (fill (n_particles ps)
       (fun i => (x ps).[i] * (x ps).[i] + (y ps).[i] * (y ps).[i]
                 + (z ps).[i] * (z ps).[i])%Q
       (r2 ps)).

(** [max_r2 = 0.0; for (i...) if (r2[i] > max_r2) max_r2 = r2[i];] *)
Definition getMaxRadiusSquared (ps : ParticleSystem) : double :=
  fold_left (fun max_r2 i => if dlt max_r2 (r2 ps).[i] then (r2 ps).[i] else max_r2)
            (seq 0 (n_particles ps)) 0%Q.

(** ** The radial field solver (update_electric_field.cpp) *)

(** [MPI_Exscan(.., MPI_SUM, ..)]: rank [r > 0] receives the sum of the
    contributions of ranks [0 .. r-1]; on rank 0 the receive buffer is left
    as it was. *)
Definition MPI_Exscan_sum (contribs : list double) (rank : nat)
    (recvbuf : double) : double :=
  match rank with
  | O => recvbuf
  | S _ => fold_left Qplus (firstn rank contribs) 0%Q
  end.

(** Step 1: [local_sum = 0.0; for (i...) local_sum += q[i];] *)
Definition local_charge_sum (ps : ParticleSystem) : double :=
  fold_left (fun local_sum i => local_sum + (q ps).[i])%Q
            (seq 0 (n_particles ps)) 0%Q.

(** Step 3, the sweep: the list of the values written to [Er[0..n)], with
    the running [cumulative] threaded through the iterations. *)
Fixpoint field_sweep (ps : ParticleSystem) (idx : list nat)
    (cumulative : double) : list double :=
  match idx with
  | [] => []
  | i :: rest =>
      let cumulative := (cumulative + (q ps).[i])%Q in
      (if dlt double_1e_30 (r2 ps).[i] then cumulative / (r2 ps).[i] else 0)%Q
        :: field_sweep ps rest cumulative
  end.

(** The code of one rank; [exscan] is what [MPI_Exscan] wrote into
    [prefix_sum] (initialised to [0.0]). *)
Definition updateElectricFieldParallel (ps : ParticleSystem)
    (mpi : MPIContext) (exscan : double -> double) : ParticleSystem :=
  let n := n_particles ps in
  let prefix_sum := exscan 0%Q in
  let prefix_sum := if rank mpi =? 0 then 0%Q else prefix_sum in
  let cumulative := prefix_sum in
  set_Er ps (field_sweep ps (seq 0 n) cumulative ++ skipn n (Er ps)).

(** All ranks run the solver: rank [p] contributes its local sum to the
    exclusive scan. *)
Definition run_updateElectricFieldParallel (shells : list ParticleSystem)
    : list ParticleSystem :=
  let sums := map local_charge_sum shells in
  map (fun p =>
         updateElectricFieldParallel (shell shells p)
           {| rank := p; size := length shells |}
           (MPI_Exscan_sum sums p))
      (seq 0 (length shells)).

(** ** The C++ library pieces the sort relies on *)

(** [v[i] = a] on a vector (nothing happens out of range; the source never
    writes there). *)
Fixpoint upd {A : Type} (i : nat) (a : A) (v : list A) : list A :=
  match v, i with
  | [], _ => []
  | _ :: v', O => a :: v'
  | b :: v', S i' => b :: upd i' a v'
  end.

(** [std::lower_bound(first, last, value) - first] on a range partitioned
    by [elem < value] (a sorted range is): the index of the first element
    that is not less than [value]. *)
Fixpoint lower_bound (l : list double) (value : double) : nat :=
  match l with
  | [] => O
  | elem :: l' => if dlt elem value then S (lower_bound l' value) else O
  end.

(** libstdc++'s algorithm for it ([std::__lower_bound],
    [bits/stl_algobase.h]), a binary search:
    [len = last - first;
     while (len > 0) { half = len >> 1; middle = first + half;
       if (comp(middle, val)) { first = middle + 1; len = len - half - 1; }
       else len = half; }
     return first;]
    [len] shrinks at every turn, so [len] turns suffice. *)
Fixpoint gnu_lower_bound_loop (fuel : nat) (v : list double)
    (first len : nat) (val : double) : nat :=
  match fuel with
  | O => first
  | S fuel' =>
      if 0 <? len then
        let half := len / 2 in
        let middle := first + half in
        if dlt v.[middle] val
        then gnu_lower_bound_loop fuel' v (middle + 1) (len - half - 1) val
        else gnu_lower_bound_loop fuel' v first half val
      else first
  end.

Definition gnu_lower_bound (v : list double) (val : double) : nat :=
  gnu_lower_bound_loop (length v) v 0 (length v) val.

(** [std::sort(first, last, comp)] on a vector of indices.  The standard
    fixes the contract, not the algorithm: the result is a rearrangement
    of the input in which no element is [comp]-less than an earlier one. *)
Class StdSort := {
  std_sort : (nat -> nat -> bool) -> list nat -> list nat
}.

Class StdSortLaws (S : StdSort) : Prop := {
  std_sort_perm : forall comp l, Permutation (std_sort comp l) l;
  std_sort_sorted : forall comp l,
    (forall a b c, comp a b = false -> comp b c = false -> comp a c = false) ->
    (forall a b, comp a b = true -> comp b a = false) ->
    StronglySorted (fun a b => comp b a = false) (std_sort comp l)
}.

(** The element type of the merge's priority queue. *)
Module MergeElement.
Record t := mk {
  r2 : double;
  source_idx : nat;
  chunk_id : nat
}.

(** [bool operator>(const MergeElement& other) const { return r2 > other.r2; }] *)
Definition gt (a other : t) : bool := dlt (r2 other) (r2 a).
End MergeElement.

(** [std::priority_queue<MergeElement, std::vector<MergeElement>,
    std::greater<MergeElement>>].  [pq_elems] is the underlying container
    and [pq_ok] the representation invariant of the implementation. *)
Class StdPriorityQueue := {
  pq : Type;
  pq_new : pq;
  pq_push : MergeElement.t -> pq -> pq;
  pq_empty : pq -> bool;
  pq_top : pq -> MergeElement.t;
  pq_pop : pq -> pq;
  pq_elems : pq -> list MergeElement.t;
  pq_ok : pq -> Prop
}.

(** The contract of the container adaptor: [top] is an element that the
    comparison [std::greater] puts before no other one, that is, no
    element [e] has [top > e]. *)
Class StdPriorityQueueLaws (P : StdPriorityQueue) : Prop := {
  pq_new_ok : pq_ok pq_new;
  pq_new_elems : pq_elems pq_new = [];
  pq_push_ok : forall e h, pq_ok h -> pq_ok (pq_push e h);
  pq_push_elems : forall e h, pq_ok h ->
    Permutation (pq_elems (pq_push e h)) (e :: pq_elems h);
  pq_empty_elems : forall h, pq_ok h ->
    (pq_empty h = true <-> pq_elems h = []);
  pq_top_min : forall h, pq_ok h -> pq_empty h = false ->
    Forall (fun e => MergeElement.gt (pq_top h) e = false) (pq_elems h);
  pq_pop_ok : forall h, pq_ok h -> pq_empty h = false -> pq_ok (pq_pop h);
  pq_pop_elems : forall h, pq_ok h -> pq_empty h = false ->
    Permutation (pq_elems h) (pq_top h :: pq_elems (pq_pop h))
}.

(** *** Two implementations of the library pieces *)

(** Insertion sort, the algorithm libstdc++'s [std::sort] runs on ranges of
    at most 16 elements ([__insertion_sort]); it is stable. *)
Fixpoint insert_sorted (comp : nat -> nat -> bool) (a : nat) (l : list nat)
    : list nat :=
  match l with
  | [] => [a]
  | b :: l' => if comp a b then a :: b :: l' else b :: insert_sorted comp a l'
  end.

Definition insertion_sort (comp : nat -> nat -> bool) (l : list nat) : list nat :=
  fold_left (fun sorted a => insert_sorted comp a sorted) l [].

Definition insertion_StdSort : StdSort := {| std_sort := insertion_sort |}.

(** libstdc++'s binary heap ([bits/stl_heap.h]) on a vector. *)
Module GnuHeap.
Definition elt := MergeElement.t.
Definition dummy : elt := MergeElement.mk 0 0 0.
Definition get (v : list elt) (i : nat) : elt := nth i v dummy.
Definition comp (a b : elt) : bool := MergeElement.gt a b.

(** [__push_heap(first, holeIndex, topIndex, value, comp)]:
    [parent = (holeIndex - 1) / 2;
     while (holeIndex > topIndex && comp(first + parent, value))
       { first[holeIndex] = first[parent]; holeIndex = parent;
         parent = (holeIndex - 1) / 2; }
     first[holeIndex] = value;]
    The hole index halves at every turn, so [holeIndex] turns suffice. *)
Fixpoint push_heap_loop (fuel : nat) (first : list elt)
    (holeIndex topIndex : nat) (value : elt) : list elt :=
  let parent := (holeIndex - 1) / 2 in
  match fuel with
  | O => upd holeIndex value first
  | S fuel' =>
      if (topIndex <? holeIndex) && comp (get first parent) value
      then push_heap_loop fuel' (upd holeIndex (get first parent) first)
                          parent topIndex value
      else upd holeIndex value first
  end.

Definition push_heap_aux (first : list elt) (holeIndex topIndex : nat)
    (value : elt) : list elt :=
  push_heap_loop holeIndex first holeIndex topIndex value.

(** [std::push_heap(first, last, comp)]: the last element is sifted up. *)
Definition push_heap (v : list elt) : list elt :=
  match length v with
  | O => v
  | S n => push_heap_aux v n 0 (get v n)
  end.

(** The first loop of [__adjust_heap(first, holeIndex, len, value, comp)]:
    [while (secondChild < (len - 1) / 2)
       { secondChild = 2 * (secondChild + 1);
         if (comp(first + secondChild, first + (secondChild - 1)))
           secondChild--;
         first[holeIndex] = first[secondChild]; holeIndex = secondChild; }]
    ([holeIndex] and [secondChild] are equal at the loop head). *)
Fixpoint adjust_heap_loop (fuel : nat) (first : list elt)
    (secondChild len : nat) : list elt * nat :=
  match fuel with
  | O => (first, secondChild)
  | S fuel' =>
      if secondChild <? (len - 1) / 2 then
        let holeIndex := secondChild in
        let secondChild := 2 * (secondChild + 1) in
        let secondChild :=
          if comp (get first secondChild) (get first (secondChild - 1))
          then secondChild - 1 else secondChild in
        adjust_heap_loop fuel' (upd holeIndex (get first secondChild) first)
                         secondChild len
      else (first, secondChild)
  end.

Definition adjust_heap (first : list elt) (holeIndex len : nat) (value : elt)
    : list elt :=
  let topIndex := holeIndex in
  let '(first, secondChild) := adjust_heap_loop len first holeIndex len in
  let holeIndex := secondChild in
  let '(first, holeIndex) :=
    if Nat.even len && (secondChild =? (len - 2) / 2) then
      let secondChild := 2 * (secondChild + 1) in
      (upd holeIndex (get first (secondChild - 1)) first, secondChild - 1)
    else (first, holeIndex) in
  push_heap_aux first holeIndex topIndex value.

(** [std::pop_heap(first, last, comp)]:
    [if (last - first > 1) { --last; value = *last; *last = *first;
       __adjust_heap(first, 0, last - first, value, comp); }] *)
Definition pop_heap (v : list elt) : list elt :=
  if 1 <? length v then
    let last := length v - 1 in
    let value := get v last in
    let v := upd last (get v 0) v in
    adjust_heap v 0 last value
  else v.

(** [push]: [c.push_back(x); std::push_heap(c.begin(), c.end(), comp);]
    [pop]: [std::pop_heap(c.begin(), c.end(), comp); c.pop_back();]
    [top]: [c.front()] *)
Definition push (e : elt) (v : list elt) : list elt := push_heap (v ++ [e]).
Definition pop (v : list elt) : list elt := removelast (pop_heap v).
Definition top (v : list elt) : elt := get v 0.
Definition empty (v : list elt) : bool :=
  match v with [] => true | _ => false end.

(** The heap property for [std::greater] on the first [n] cells: no parent
    is greater than a child. *)
Definition heap_upto (n : nat) (v : list elt) : Prop :=
  forall i, 0 < i < n -> comp (get v ((i - 1) / 2)) (get v i) = false.

Definition is_heap (v : list elt) : Prop := heap_upto (length v) v.

(** The same with a hole at cell [h], whose content does not count: the
    other cells are in order, also across the hole. *)
Definition hole_heap (n : nat) (v : list elt) (h : nat) : Prop :=
  (forall i, 0 < i < n -> i <> h -> (i - 1) / 2 <> h ->
     comp (get v ((i - 1) / 2)) (get v i) = false) /\
  (forall c, 0 < c < n -> (c - 1) / 2 = h -> 0 < h ->
     comp (get v ((h - 1) / 2)) (get v c) = false).
End GnuHeap.

Definition gnu_StdPriorityQueue : StdPriorityQueue := {|
  pq := list MergeElement.t;
  pq_new := [];
  pq_push := GnuHeap.push;
  pq_empty := GnuHeap.empty;
  pq_top := GnuHeap.top;
  pq_pop := GnuHeap.pop;
  pq_elems := fun v => v;
  pq_ok := GnuHeap.is_heap
|}.

(** ** The collectives used by the redistributor *)

Definition dmin (a b : double) : double := if dlt b a then b else a.
Definition dmax (a b : double) : double := if dlt a b then b else a.

(** [MPI_Allreduce(.., 1, MPI_DOUBLE, MPI_MIN / MPI_MAX, ..)] *)
Definition MPI_Allreduce_min (contribs : list double) : double :=
  match contribs with
  | [] => 0%Q
  | c :: rest => fold_left dmin rest c
  end.

Definition MPI_Allreduce_max (contribs : list double) : double :=
  match contribs with
  | [] => 0%Q
  | c :: rest => fold_left dmax rest c
  end.

(** [MPI_Allreduce(.., count, MPI_LONG_LONG, MPI_SUM, ..)]: cell by cell. *)
Definition MPI_Allreduce_sum (count : nat) (contribs : list (list Z)) : list Z :=
  map (fun b => fold_left Z.add (map (fun h => nth b h 0%Z) contribs) 0%Z)
      (seq 0 count).

(** [MPI_Alltoall(send_counts, 1, MPI_INT, recv_counts, 1, MPI_INT, ..)] as
    rank [r] sees it: cell [s] of the result is cell [r] of what rank [s]
    sends. *)
Definition MPI_Alltoall (all_send_counts : list (list nat)) (r : nat) : list nat :=
  map (fun send_counts => nth r send_counts 0) all_send_counts.

Definition slice (displ count : nat) (buf : list double) : list double :=
  firstn count (skipn displ buf).

(** Copy [data] into [buf] at offset [displ]. *)
Definition blit (displ : nat) (data buf : list double) : list double :=
  firstn displ buf ++ data ++ skipn (displ + length data) buf.

(** What one rank hands to [MPI_Alltoallv]. *)
Record SendArgs := mkSendArgs {
  send_buf : list double;
  send_counts_packed : list nat;
  send_displs_packed : list nat
}.

(** [MPI_Alltoallv] as rank [r] sees it: for every source [s], the
    [send_counts_packed[r]] doubles that [s] keeps at
    [send_displs_packed[r]] land in [recv_buf] at [recv_displs_packed[s]]. *)
Definition MPI_Alltoallv (sends : list SendArgs) (r : nat)
    (recv_buf : list double) (recv_displs_packed : list nat) : list double :=
  fold_left
    (fun buf s =>
       let a := nth s sends (mkSendArgs [] [] []) in
       blit (nth s recv_displs_packed 0)
            (slice (nth r (send_displs_packed a) 0)
                   (nth r (send_counts_packed a) 0) (send_buf a))
            buf)
    (seq 0 (length sends)) recv_buf.

(** ** The shell redistributor (sort_particles.cpp) *)

Definition NUM_BINS : nat := 1024.
Definition num_fields : nat := 9.

(** [std::numeric_limits<double>::max()]; [lowest()] is its opposite. *)
Definition DBL_MAX : double := inject_Z (2 ^ 1024 - 2 ^ 971).

(** [(int) d]: truncation towards zero. *)
Definition double_to_int (d : double) : Z :=
  if Qle_bool 0 d then Qfloor d else Qceiling d.

(** [displs[0] = 0; displs[i] = displs[i-1] + counts[i-1];] *)
Fixpoint displacements (from : nat) (counts : list nat) : list nat :=
  match counts with
  | [] => []
  | c :: rest => from :: displacements (from + c) rest
  end.

(** The nine doubles of particle [idx], in the order of the send buffer. *)
Definition record_of (ps : ParticleSystem) (idx : nat) : list double :=
  [ (x ps).[idx]; (y ps).[idx]; (z ps).[idx];
    (vx ps).[idx]; (vy ps).[idx]; (vz ps).[idx];
    (q ps).[idx]; (Er ps).[idx]; (r2 ps).[idx] ].

Section SortParticlesParallel.
Context {SORT : StdSort} {PQ : StdPriorityQueue}.

(** *** Steps 1 and 2: recompute r^2, sort the shell locally *)

(** The lambda [reorder]:
    [if (n == 0) return; tmp(n); for (i...) tmp[i] = arr[indices[i]];
     arr.swap(tmp);] *)
Definition reorder (indices : list nat) (n : nat) (arr : list double)
    : list double :=
  if n =? 0 then arr
  else map (fun i => arr.[nth i indices 0]) (seq 0 n).

(** [iota(indices); std::sort(indices, [&ps](int a, int b)
    { return ps.r2[a] < ps.r2[b]; });] *)
Definition sorted_indices (ps : ParticleSystem) : list nat :=
  std_sort (fun a b => dlt (r2 ps).[a] (r2 ps).[b]) (seq 0 (n_particles ps)).

Definition local_sort (ps : ParticleSystem) : ParticleSystem :=
  let n := n_particles ps in
  let ps := computeSquareRadius ps in
  let indices := sorted_indices ps in
  {| name := name ps;
     x := reorder indices n (x ps);
     y := reorder indices n (y ps);
     z := reorder indices n (z ps);
     vx := reorder indices n (vx ps);
     vy := reorder indices n (vy ps);
     vz := reorder indices n (vz ps);
     q := reorder indices n (q ps);
     Er := reorder indices n (Er ps);
     r2 := reorder indices n (r2 ps);
     iqom := iqom ps;
     n_particles := n_particles ps;
     n_total := n_total ps |}.

(** *** Step 3: the histogram and the splitters *)

Definition r2_min_local (ps : ParticleSystem) : double :=
  if 0 <? n_particles ps then (r2 ps).[0] else DBL_MAX.

Definition r2_max_local (ps : ParticleSystem) : double :=
  if 0 <? n_particles ps then (r2 ps).[n_particles ps - 1] else (- DBL_MAX)%Q.

(** [if (r2_max_global - r2_min_global < 1e-15)
      r2_max_global = r2_min_global + 1.0;] *)
Definition widen (r2_min_global r2_max_global : double) : double :=
  if dlt (r2_max_global - r2_min_global) double_1e_15
  then (r2_min_global + 1)%Q else r2_max_global.

Definition bin_width_of (r2_min_global r2_max_global : double) : double :=
  ((r2_max_global - r2_min_global) / inject_Z (Z.of_nat NUM_BINS))%Q.

(** [bin = (int)((r2[i] - r2_min_global) / bin_width);
     bin = std::max(0, std::min(bin, NUM_BINS - 1));] *)
Definition bin_of (r2_min_global bin_width v : double) : nat :=
  let bin := double_to_int ((v - r2_min_global) / bin_width) in
  Z.to_nat (Z.max 0 (Z.min bin (Z.of_nat NUM_BINS - 1))).

Definition local_hist_of (r2_min_global bin_width : double)
    (ps : ParticleSystem) : list Z :=
  fold_left
    (fun local_hist i =>
       let bin := bin_of r2_min_global bin_width (r2 ps).[i] in
       upd bin (nth bin local_hist 0 + 1)%Z local_hist)
    (seq 0 (n_particles ps)) (repeat 0%Z NUM_BINS).

(** The loop over the bins; [emitted] holds [splitters[0 .. splitter_idx)].
    [for (b = 0; b < NUM_BINS && splitter_idx < size - 1; b++) {
       cumsum += global_hist[b];
       if (cumsum >= target_per_rank * (splitter_idx + 1))
         splitters[splitter_idx++] = r2_min_global + (b + 1) * bin_width; }] *)
Fixpoint splitter_loop (size : nat) (r2_min_global bin_width : double)
    (global_hist : list Z) (target_per_rank : Z)
    (bins : list nat) (cumsum : Z) (emitted : list double) : list double :=
  match bins with
  | [] => emitted
  | b :: rest =>
      if length emitted <? size - 1 then
        let cumsum := (cumsum + nth b global_hist 0)%Z in
        if (target_per_rank * (Z.of_nat (length emitted) + 1) <=? cumsum)%Z
        then splitter_loop size r2_min_global bin_width global_hist
               target_per_rank rest cumsum
               (emitted ++
                [(r2_min_global + inject_Z (Z.of_nat b + 1) * bin_width)%Q])
        else splitter_loop size r2_min_global bin_width global_hist
               target_per_rank rest cumsum emitted
      else emitted
  end.

Definition splitters_of (size : nat) (r2_min_global r2_max_global : double)
    (global_hist : list Z) : list double :=
  let bin_width := bin_width_of r2_min_global r2_max_global in
  let total := fold_left Z.add global_hist 0%Z in
  let target_per_rank :=
    ((total + Z.of_nat size - 1) ÷ Z.of_nat size)%Z in
  let emitted :=
    splitter_loop size r2_min_global bin_width global_hist target_per_rank
      (seq 0 NUM_BINS) 0%Z [] in
  (* while (splitter_idx < size - 1) splitters[splitter_idx++] = r2_max_global; *)
  emitted ++ repeat r2_max_global (size - 1 - length emitted).

(** *** Step 4: the destination of every local particle *)

(** [for (i...) { dest = lower_bound(splitters, r2[i]) - begin;
                  buckets[dest].push_back(i); send_counts[dest]++; }] *)
Definition partition (size : nat) (splitters : list double)
    (ps : ParticleSystem) : list nat * list (list nat) :=
  fold_left
    (fun '(send_counts, buckets) i =>
       let dest := lower_bound splitters (r2 ps).[i] in
       (upd dest (S (nth dest send_counts 0)) send_counts,
        upd dest (nth dest buckets [] ++ [i]) buckets))
    (seq 0 (n_particles ps))
    (repeat 0 size, repeat [] size).

(** *** Steps 5 and 6: displacements and the interleaved send buffer *)

Definition pack (ps : ParticleSystem) (buckets : list (list nat))
    : list double :=
  flat_map (fun bucket => flat_map (record_of ps) bucket) buckets.

Definition scale (counts : list nat) : list nat :=
  map (fun c => c * num_fields) counts.

(** Everything rank-local between the histogram reduction and the
    exchange. *)
Definition send_counts_of (size : nat) (splitters : list double)
    (ps : ParticleSystem) : list nat :=
  fst (partition size splitters ps).

Definition send_args_of (size : nat) (splitters : list double)
    (ps : ParticleSystem) : SendArgs :=
  let '(send_counts, buckets) := partition size splitters ps in
  let send_displs := displacements 0 send_counts in
  {| send_buf := pack ps buckets;
     send_counts_packed := scale send_counts;
     send_displs_packed := scale send_displs |}.

(** *** Step 8: unpack *)

Definition unpack (field total_recv : nat) (recv_buf : list double)
    : list double :=
  map (fun i => recv_buf.[i * num_fields + field]) (seq 0 total_recv).

(** *** Step 9: the k-way merge *)

Definition element_at (recv_r2 : list double) (pos c : nat) : MergeElement.t :=
  {| MergeElement.r2 := recv_r2.[pos];
     MergeElement.source_idx := pos;
     MergeElement.chunk_id := c |}.

(** [for (c...) if (recv_counts[c] > 0) { push the first element of chunk
    c; chunk_pos[c]++; }] *)
Definition merge_init (size : nat) (recv_counts recv_displs : list nat)
    (recv_r2 : list double) : pq * list nat :=
  fold_left
    (fun '(h, chunk_pos) c =>
       if 0 <? nth c recv_counts 0 then
         (pq_push (element_at recv_r2 (nth c recv_displs 0) c) h,
          upd c (S (nth c chunk_pos 0)) chunk_pos)
       else (h, chunk_pos))
    (seq 0 size) (pq_new, recv_displs).

(** [while (!pq.empty()) { top = pq.top(); pq.pop();
      merge_order[out_idx++] = top.source_idx; c = top.chunk_id;
      if (chunk_pos[c] < recv_displs[c] + recv_counts[c])
        { push element chunk_pos[c] of chunk c; chunk_pos[c]++; } }]
    [merge_order] collects the cells written so far; [None] when the loop
    is still running after [fuel] turns. *)
Fixpoint merge_loop (fuel : nat) (recv_counts recv_displs : list nat)
    (recv_r2 : list double) (h : pq) (chunk_pos : list nat)
    (merge_order : list nat) : option (list nat) :=
  if pq_empty h then Some merge_order
  else
    match fuel with
    | O => None
    | S fuel' =>
        let top := pq_top h in
        let h := pq_pop h in
        let merge_order := merge_order ++ [MergeElement.source_idx top] in
        let c := MergeElement.chunk_id top in
        if nth c chunk_pos 0 <? nth c recv_displs 0 + nth c recv_counts 0
        then
          merge_loop fuel' recv_counts recv_displs recv_r2
            (pq_push (element_at recv_r2 (nth c chunk_pos 0) c) h)
            (upd c (S (nth c chunk_pos 0)) chunk_pos)
            merge_order
        else
          merge_loop fuel' recv_counts recv_displs recv_r2 h chunk_pos
            merge_order
    end.

(** The merge writes one cell of [merge_order] per turn, and the vector
    has [total_recv] cells: the loop gets [total_recv] turns. *)
Definition k_way_merge (size total_recv : nat)
    (recv_counts recv_displs : list nat) (recv_r2 : list double)
    : option (list nat) :=
  if 0 <? total_recv then
    let '(h, chunk_pos) := merge_init size recv_counts recv_displs recv_r2 in
    merge_loop total_recv recv_counts recv_displs recv_r2 h chunk_pos []
  else Some [].

(** *** Step 10: install the merged shell *)

Definition install (ps : ParticleSystem) (total_recv : nat)
    (merge_order : list nat) (recv_buf : list double) : ParticleSystem :=
  let ps := resize ps total_recv in
  let gather field old :=
    fill total_recv
      (fun i => (unpack field total_recv recv_buf).[nth i merge_order 0]) old in
  {| name := name ps;
     x := gather 0 (x ps);
     y := gather 1 (y ps);
     z := gather 2 (z ps);
     vx := gather 3 (vx ps);
     vy := gather 4 (vy ps);
     vz := gather 5 (vz ps);
     q := gather 6 (q ps);
     Er := gather 7 (Er ps);
     r2 := gather 8 (r2 ps);
     iqom := iqom ps;
     n_particles := n_particles ps;
     n_total := n_total ps |}.

(** Steps 5 to 10 on rank [r], given what every rank sends. *)
Definition receive_and_merge (size r : nat) (ps : ParticleSystem)
    (all_send_counts : list (list nat)) (sends : list SendArgs)
    : option ParticleSystem :=
  let recv_counts := MPI_Alltoall all_send_counts r in
  let recv_displs := displacements 0 recv_counts in
  let total_recv :=
    if 0 <? size
    then nth (size - 1) recv_displs 0 + nth (size - 1) recv_counts 0
    else 0 in
  let recv_buf :=
    MPI_Alltoallv sends r (repeat 0%Q (total_recv * num_fields))
                  (scale recv_displs) in
  let recv_r2 := unpack 8 total_recv recv_buf in
  match k_way_merge size total_recv recv_counts recv_displs recv_r2 with
  | None => None
  | Some merge_order => Some (install ps total_recv merge_order recv_buf)
  end.

(** *** The whole call, on all ranks *)

Fixpoint all_some {A : Type} (l : list (option A)) : option (list A) :=
  match l with
  | [] => Some []
  | None :: _ => None
  | Some a :: l' =>
      match all_some l' with
      | None => None
      | Some r => Some (a :: r)
      end
  end.

(** The global quantities every rank ends up with after the three
    reductions: the (widened) range and the splitters. *)
Definition global_min (sorted : list ParticleSystem) : double :=
  MPI_Allreduce_min (map r2_min_local sorted).

Definition global_max (sorted : list ParticleSystem) : double :=
  widen (global_min sorted) (MPI_Allreduce_max (map r2_max_local sorted)).

Definition global_splitters (sorted : list ParticleSystem) : list double :=
  let size := length sorted in
  let r2_min_global := global_min sorted in
  let r2_max_global := global_max sorted in
  let bin_width := bin_width_of r2_min_global r2_max_global in
  let global_hist :=
    MPI_Allreduce_sum NUM_BINS
      (map (local_hist_of r2_min_global bin_width) sorted) in
  splitters_of size r2_min_global r2_max_global global_hist.

(** [global_hist] after its reduction, the same on every rank. *)
Definition global_hist_of (sorted : list ParticleSystem) : list Z :=
  let r2_min_global := global_min sorted in
  let r2_max_global := global_max sorted in
  let bin_width := bin_width_of r2_min_global r2_max_global in
  MPI_Allreduce_sum NUM_BINS
    (map (local_hist_of r2_min_global bin_width) sorted).

(** Steps 1 and 2 on every rank:
    [if (n == 0 && size == 1) return;] then the local sort. *)
Definition locally_sorted (shells : list ParticleSystem)
    : list ParticleSystem :=
  let size := length shells in
  map (fun ps => if (n_particles ps =? 0) && (size =? 1) then ps
                 else local_sort ps) shells.

(** The splitters that route the particles; a single rank keeps
    everything, as if there were no splitter. *)
Definition routing (shells : list ParticleSystem) : list double :=
  if length shells =? 1 then []
  else global_splitters (locally_sorted shells).

Definition sortParticlesParallel (shells : list ParticleSystem)
    : option (list ParticleSystem) :=
  let size := length shells in
  let sorted := locally_sorted shells in
  (* if (size == 1) return; *)
  if size =? 1 then Some sorted
  else
    let splitters := global_splitters sorted in
    let all_send_counts := map (send_counts_of size splitters) sorted in
    let sends := map (send_args_of size splitters) sorted in
    all_some
      (map (fun r =>
              receive_and_merge size r (shell sorted r)
                all_send_counts sends)
           (seq 0 size)).
End SortParticlesParallel.

(** A lawful priority queue that is not a heap: an unordered list, [top]
    being the first element that no other one is smaller than. *)
Module ListQueue.
Definition elt := MergeElement.t.

(** The minimum of [e :: l] (the first one, among equals) and the other
    elements. *)
Fixpoint extract_min (e : elt) (l : list elt) : elt * list elt :=
  match l with
  | [] => (e, [])
  | e' :: l' =>
      let '(m, rest) := extract_min e' l' in
      if MergeElement.gt e m then (m, e :: rest) else (e, l)
  end.

Definition top (l : list elt) : elt :=
  match l with
  | [] => MergeElement.mk 0 0 0
  | e :: l' => fst (extract_min e l')
  end.

Definition pop (l : list elt) : list elt :=
  match l with
  | [] => []
  | e :: l' => snd (extract_min e l')
  end.

Definition empty (l : list elt) : bool :=
  match l with [] => true | _ => false end.
End ListQueue.

Definition list_StdPriorityQueue : StdPriorityQueue := {|
  pq := list MergeElement.t;
  pq_new := [];
  pq_push := fun e l => l ++ [e];
  pq_empty := ListQueue.empty;
  pq_top := ListQueue.top;
  pq_pop := ListQueue.pop;
  pq_elems := fun l => l;
  pq_ok := fun _ => True
|}.

(** ** The field solver and the splitters on binary64 numbers

    The same code with [double] read as the IEEE binary64 numbers of the
    machine: every sum, product and quotient is rounded to nearest, and
    the literals [1e-30] and [1e-15] are the doubles the compiler reads.
    It tells what of the exact model is an equality on the machine and
    what holds up to rounding only. *)
Module Binary64.

Definition MPI_Exscan_sum (contribs : list float) (rank : nat)
    (recvbuf : float) : float :=
  match rank with
  | O => recvbuf
  | S _ => fold_left PrimFloat.add (firstn rank contribs) 0%float
  end.

(** [local_sum = 0.0; for (i...) local_sum += q[i];] *)
Definition local_charge_sum (q : list float) (n : nat) : float :=
  fold_left (fun local_sum i => local_sum + nth i q 0)%float (seq 0 n) 0%float.

#[warnings="-inexact-float"] Fixpoint field_sweep (q r2 : list float)
    (idx : list nat) (cumulative : float) : list float :=
  match idx with
  | [] => []
  | i :: rest =>
      let cumulative := (cumulative + nth i q 0)%float in
      (if 1e-30 <? nth i r2 0 then cumulative / nth i r2 0 else 0)%float
        :: field_sweep q r2 rest cumulative
  end.

(** The values one rank writes to [Er[0..n)]. *)
Definition updateElectricFieldParallel (q r2 : list float) (n rank : nat)
    (exscan : float -> float) : list float :=
  let prefix_sum := exscan 0%float in
  let prefix_sum := if rank =? 0 then 0%float else prefix_sum in
  let cumulative := prefix_sum in
  field_sweep q r2 (seq 0 n) cumulative.

(** All ranks run the solver; a shell is given by its charges and its
    [r2], and the result is the [Er] of every rank. *)
Definition run_updateElectricFieldParallel
    (shells : list (list float * list float)) : list (list float) :=
  let sums :=
    map (fun shell => local_charge_sum (fst shell) (length (fst shell)))
        shells in
  map (fun p =>
         let shell := nth p shells ([], []) in
         updateElectricFieldParallel (fst shell) (snd shell)
           (length (fst shell)) p (MPI_Exscan_sum sums p))
      (seq 0 (length shells)).

(** The exact value of a double, if it is a number. *)
Definition exact (d : float) : option Q :=
  match Prim2SF d with
  | S754_zero _ => Some 0%Q
  | S754_finite s m e =>
      Some ((if s then -1 else 1) * inject_Z (Z.pos m) * 2 ^ e)%Q
  | _ => None
  end.

(** Step 3 of the redistributor, from the locally sorted [r2] of every
    rank. *)

(** [std::numeric_limits<double>::max()] *)
Definition DBL_MAX : float := 0x1.fffffffffffffp+1023.

(** [(double) v] for an [int] or [long long] [v] of the sizes at hand. *)
Definition double_of_int (v : Z) : float := PrimFloat.of_uint63 (Uint63.of_Z v).

(** [(int) d]: truncation towards zero, for [d] within the range of
    [int]. *)
Definition int_of_double (d : float) : Z :=
  match Prim2SF d with
  | S754_finite s m e =>
      let magnitude :=
        (if 0 <=? e then Z.pos m * 2 ^ e else Z.pos m / 2 ^ (- e))%Z in
      if s then (- magnitude)%Z else magnitude
  | _ => 0%Z
  end.

(** [r2[i] = x[i]*x[i] + y[i]*y[i] + z[i]*z[i];] *)
Definition computeSquareRadius (x y z : list float) : list float :=
  map (fun i => nth i x 0 * nth i x 0 + nth i y 0 * nth i y 0
                + nth i z 0 * nth i z 0)%float
      (seq 0 (length x)).

Definition dmin (a b : float) : float := if (b <? a)%float then b else a.
Definition dmax (a b : float) : float := if (a <? b)%float then b else a.

Definition MPI_Allreduce_min (contribs : list float) : float :=
  match contribs with
  | [] => 0%float
  | c :: rest => fold_left dmin rest c
  end.

Definition MPI_Allreduce_max (contribs : list float) : float :=
  match contribs with
  | [] => 0%float
  | c :: rest => fold_left dmax rest c
  end.

Definition r2_min_local (r2 : list float) : float :=
  if 0 <? length r2 then nth 0 r2 0%float else DBL_MAX.

Definition r2_max_local (r2 : list float) : float :=
  if 0 <? length r2 then nth (length r2 - 1) r2 0%float else (- DBL_MAX)%float.

#[warnings="-inexact-float"] Definition widen
    (r2_min_global r2_max_global : float) : float :=
  if (r2_max_global - r2_min_global <? 1e-15)%float
  then (r2_min_global + 1)%float else r2_max_global.

Definition bin_of (r2_min_global bin_width v : float) : nat :=
  let bin := int_of_double ((v - r2_min_global) / bin_width)%float in
  Z.to_nat (Z.max 0 (Z.min bin (Z.of_nat NUM_BINS - 1))).

Definition local_hist_of (r2_min_global bin_width : float)
    (r2 : list float) : list Z :=
  fold_left
    (fun local_hist i =>
       let bin := bin_of r2_min_global bin_width (nth i r2 0%float) in
       upd bin (nth bin local_hist 0 + 1)%Z local_hist)
    (seq 0 (length r2)) (repeat 0%Z NUM_BINS).

Fixpoint splitter_loop (size : nat) (r2_min_global bin_width : float)
    (global_hist : list Z) (target_per_rank : Z)
    (bins : list nat) (cumsum : Z) (emitted : list float) : list float :=
  match bins with
  | [] => emitted
  | b :: rest =>
      if length emitted <? size - 1 then
        let cumsum := (cumsum + nth b global_hist 0)%Z in
        if (target_per_rank * (Z.of_nat (length emitted) + 1) <=? cumsum)%Z
        then splitter_loop size r2_min_global bin_width global_hist
               target_per_rank rest cumsum
               (emitted ++
                [(r2_min_global
                  + double_of_int (Z.of_nat b + 1) * bin_width)%float])
        else splitter_loop size r2_min_global bin_width global_hist
               target_per_rank rest cumsum emitted
      else emitted
  end.

Definition global_splitters (sorted : list (list float)) : list float :=
  let size := length sorted in
  let r2_min_global := MPI_Allreduce_min (map r2_min_local sorted) in
  let r2_max_global :=
    widen r2_min_global (MPI_Allreduce_max (map r2_max_local sorted)) in
  let bin_width :=
    ((r2_max_global - r2_min_global)
     / double_of_int (Z.of_nat NUM_BINS))%float in
  let global_hist :=
    MPI_Allreduce_sum NUM_BINS
      (map (local_hist_of r2_min_global bin_width) sorted) in
  let total := fold_left Z.add global_hist 0%Z in
  let target_per_rank := ((total + Z.of_nat size - 1) ÷ Z.of_nat size)%Z in
  let emitted :=
    splitter_loop size r2_min_global bin_width global_hist target_per_rank
      (seq 0 NUM_BINS) 0%Z [] in
  emitted ++ repeat r2_max_global (size - 1 - length emitted).

End Binary64.

(** ** The specification's vocabulary *)

(** The particle records of a shell, in storage order. *)
Definition records (ps : ParticleSystem) : list (list double) :=
  map (record_of ps) (seq 0 (n_particles ps)).

(** [r2] of a particle record. *)
Definition rec_r2 (rec : list double) : double := nth 8 rec 0%Q.

(** All particle records, in rank order. *)
Definition all_records (shells : list ParticleSystem) : list (list double) :=
  flat_map records shells.

(** I1: [r2[i] <= r2[i+1]] for [0 <= i < n_local - 1]. *)
Definition I1 (ps : ParticleSystem) : Prop :=
  forall i, S i < n_particles ps -> ((r2 ps).[i] <= (r2 ps).[S i])%Q.

(** I2: for ranks [p < q], the maximum on [p] is at most the minimum on
    [q]: every [r2] on [p] is at most every [r2] on [q]. *)
Definition I2 (shells : list ParticleSystem) : Prop :=
  forall p q i j, p < q -> q < length shells ->
    i < n_particles (shell shells p) -> j < n_particles (shell shells q) ->
    ((r2 (shell shells p)).[i] <= (r2 (shell shells q)).[j])%Q.

(** I3: the cache is consistent with the positions. *)
Definition I3 (ps : ParticleSystem) : Prop :=
  forall i, i < n_particles ps ->
    ((r2 ps).[i] == (x ps).[i] * (x ps).[i] + (y ps).[i] * (y ps).[i]
                    + (z ps).[i] * (z ps).[i])%Q.

(** The charge of the first [count] particles of a shell whose [r2] is at
    most [bound]. *)
Definition charge_within (ps : ParticleSystem) (count : nat) (bound : double)
    : double :=
  fold_left Qplus
    (map (fun j => (q ps).[j])
         (filter (fun j => Qle_bool (r2 ps).[j] bound) (seq 0 count)))
    0%Q.

(** [Q_enc(i)] on rank [p], in the specification's words: the charges of
    all particles on lower-ranked shells, and on this shell up to and
    including [i], whose [r2] is at most [r2[i]]. *)
Definition Q_enc (shells : list ParticleSystem) (p i : nat) : double :=
  let bound := (r2 (shell shells p)).[i] in
  (fold_left Qplus
     (map (fun p' => charge_within (shell shells p')
                       (n_particles (shell shells p')) bound)
          (seq 0 p))
     0 + charge_within (shell shells p) (S i) bound)%Q.

(** A [double] that may be minus infinity, for the specification of
    [max_r2_local]. *)
Inductive xdouble :=
| MinusInfinity
| Finite (d : double).

(** [max_r2_local] in the specification's words: the maximum of [r2] over
    the local particles, or minus infinity if there is none. *)
Definition max_r2_local_spec (ps : ParticleSystem) : xdouble :=
  match firstn (n_particles ps) (r2 ps) with
  | [] => MinusInfinity
  | v :: rest => Finite (fold_left dmax rest v)
  end.

(** The k-way merge's output order in the specification's words: by [r2],
    and by chunk id among equal [r2].  [chunk_of recv_displs s] is the
    chunk that cell [s] of the receive arrays belongs to. *)
Definition chunk_of (recv_counts recv_displs : list nat) (s : nat) : nat :=
  length (filter (fun c => nth c recv_displs 0 + nth c recv_counts 0 <=? s)
                 (seq 0 (length recv_counts))).

Definition r2_chunk_le (recv_r2 : list double) (recv_counts recv_displs : list nat)
    (s t : nat) : Prop :=
  (recv_r2.[s] < recv_r2.[t])%Q \/
  ((recv_r2.[s] == recv_r2.[t])%Q /\
   chunk_of recv_counts recv_displs s <= chunk_of recv_counts recv_displs t).

Definition merged_by_r2_then_chunk (recv_r2 : list double)
    (recv_counts recv_displs merge_order : list nat) : Prop :=
  forall i j, i < j -> j < length merge_order ->
    r2_chunk_le recv_r2 recv_counts recv_displs
      (nth i merge_order 0) (nth j merge_order 0).

(** [|n_local - ceil(n_global / size)|], and the load-balance bound of the
    specification: [|n_local - ceil(n_global / size)| <= n_global / 1024 + 1]. *)
Definition deviation (size n_global n_local : nat) : Z :=
  Z.abs (Z.of_nat n_local
         - (Z.of_nat n_global + Z.of_nat size - 1) / Z.of_nat size).

Definition load_balanced (size n_global n_local : nat) : Prop :=
  (deviation size n_global n_local <= Z.of_nat n_global / 1024 + 1)%Z.

(** The identity pattern of [send_counts] on rank [p]: nothing leaves. *)
Definition identity_pattern (p : nat) (send_counts : list nat) : Prop :=
  forall d, d <> p -> nth d send_counts 0 = 0.

(** The local particles that the splitters send to rank [d], and the
    records rank [r] receives, source by source. *)
Definition bucket (splitters : list double) (ps : ParticleSystem) (d : nat)
    : list nat :=
  filter (fun i => lower_bound splitters (r2 ps).[i] =? d)
         (seq 0 (n_particles ps)).

Definition chunk (splitters : list double) (ps : ParticleSystem) (d : nat)
    : list (list double) :=
  map (record_of ps) (bucket splitters ps d).

Definition received (splitters : list double) (sorted : list ParticleSystem)
    (r : nat) : list (list double) :=
  flat_map (fun ps => chunk splitters ps r) sorted.

(** The band of rank [p] among the splitters: above [splitters[p-1]], at
    most [splitters[p]]. *)
Definition in_band (splitters : list double) (p : nat) (v : double) : Prop :=
  (p = 0 \/ (splitters.[p - 1] < v)%Q) /\
  (p < length splitters -> (v <= splitters.[p])%Q).

(** ** Vocabulary of the second call *)

(** A record whose cached [r2] is the one its position gives. *)
Definition consistent (rec : list double) : Prop :=
  rec_r2 rec =
  (nth 0 rec 0 * nth 0 rec 0 + nth 1 rec 0 * nth 1 rec 0
   + nth 2 rec 0 * nth 2 rec 0)%Q.

(** The [r2] of all particles, in rank order. *)
Definition radii (shells : list ParticleSystem) : list double :=
  map rec_r2 (all_records shells).

(** [m] is the least of [R], or [dflt] when [R] is empty. *)
Definition least_of (dflt m : double) (R : list double) : Prop :=
  (forall v, In v R -> (m <= v)%Q) /\
  ((R = [] /\ m = dflt) \/ exists v, In v R /\ (m == v)%Q).

Definition greatest_of (dflt m : double) (R : list double) : Prop :=
  (forall v, In v R -> (v <= m)%Q) /\
  ((R = [] /\ m = dflt) \/ exists v, In v R /\ (m == v)%Q).

(** The particles of [R] that fall into bin [b] of the histogram. *)
Definition count_bin (lo w : double) (b : nat) (R : list double) : nat :=
  length (filter (fun v => bin_of lo w v =? b) R).

(** ** Vocabulary of the load balance *)

(** [cumsum] after the first [b] bins. *)
Definition hist_prefix (global_hist : list Z) (b : nat) : Z :=
  fold_left Z.add (firstn b global_hist) 0%Z.

(** The upper end of bin [b]: the value of a splitter set at bin [b],
    [r2_min_global + (b + 1) * bin_width]. *)
Definition bin_end (r2_min_global bin_width : double) (b : nat) : double :=
  (r2_min_global + inject_Z (Z.of_nat b + 1) * bin_width)%Q.

(** The particles of [R] at or below [s]. *)
Definition count_le (s : double) (R : list double) : nat :=
  length (filter (fun v => Qle_bool v s) R).

(** The particles of [R] in the first [b] bins. *)
Definition count_bins (lo w : double) (b : nat) (R : list double) : nat :=
  length (filter (fun v => bin_of lo w v <? b) R).

(** The particles of [R] whose destination is below [p], and those whose
    destination is [p]. *)
Definition count_dest_below (splitters : list double) (p : nat)
    (R : list double) : nat :=
  length (filter (fun v => lower_bound splitters v <? p) R).

Definition count_dest (splitters : list double) (p : nat)
    (R : list double) : nat :=
  length (filter (fun v => lower_bound splitters v =? p) R).

(** The pace of the splitter loop.  [bins] are the bins at which the
    splitters so far were set, [b0] is the next bin to look at:
    splitter [k] was set below [b0], when [cumsum] had reached
    [target_per_rank * (k + 1)], one bin after [cumsum] was either still
    below that or at its value for splitter [k - 1]; and [cumsum] now is
    below the next threshold or at its value for the last splitter. *)
Definition cumsum_at (global_hist : list Z) (bins : list nat) (k : nat) : Z :=
  hist_prefix global_hist (S (nth k bins 0)).

Definition cumsum_before (global_hist : list Z) (bins : list nat) (k : nat) : Z :=
  match k with
  | O => 0%Z
  | S j => cumsum_at global_hist bins j
  end.

Definition paced (global_hist : list Z) (target_per_rank h_max : Z)
    (b0 : nat) (bins : list nat) : Prop :=
  (forall k, k < length bins ->
     nth k bins 0 < b0 /\
     (target_per_rank * (Z.of_nat k + 1) <= cumsum_at global_hist bins k)%Z /\
     (cumsum_at global_hist bins k
      <= Z.max (target_per_rank * (Z.of_nat k + 1) - 1)
               (cumsum_before global_hist bins k) + h_max)%Z) /\
  (hist_prefix global_hist b0
   <= Z.max (target_per_rank * (Z.of_nat (length bins) + 1) - 1)
            (cumsum_before global_hist bins (length bins)))%Z.

(** ** Scenarios of the specification *)

(** A shell given by its particle records
    [[x; y; z; vx; vy; vz; q; Er; r2]]. *)
Definition shell_of (total : Z) (particles : list (list double))
    : ParticleSystem :=
  let field k := map (fun rec => nth k rec 0%Q) particles in
  {| name := "electron";
     x := field 0; y := field 1; z := field 2;
     vx := field 3; vy := field 4; vz := field 5;
     q := field 6; Er := field 7; r2 := field 8;
     iqom := 1%Q;
     n_particles := length particles;
     n_total := total |}.

(** A particle at rest on the x axis, with charge 1 and a stale cache. *)
Definition on_axis (px : double) : list double :=
  [px; 0; 0; 0; 0; 0; 1; 0; 0]%Q.

(** The same with the cache filled in. *)
Definition on_axis_cached (px : double) : list double :=
  [px; 0; 0; 0; 0; 0; 1; 0; px * px]%Q.

(** S2 before the redistribution: rank 0 owns r2 = 16, 4 and rank 1 owns
    r2 = 1, 9. *)
Definition S2 : list ParticleSystem :=
  [ shell_of 4 [on_axis 4; on_axis 2]; shell_of 4 [on_axis 1; on_axis 3] ].

(** S2 after the redistribution. *)
Definition S2_sorted : list ParticleSystem :=
  [ shell_of 4 [on_axis_cached 1; on_axis_cached 2];
    shell_of 4 [on_axis_cached 3; on_axis_cached 4] ].

(** One particle of charge 1 at the distance where [r2] is the double
    [1e-30]: the three coordinates are doubles, their squares and the sum
    of the squares are exact in binary64. *)
Definition at_guard : list ParticleSystem :=
  [ shell_of 1 [[0x1203af5p-74; 0x3151p-74; 0x1444p-74; 0; 0; 0; 1; 0;
                 double_1e_30]%Q] ].

(** Three particles of charge 1 on one rank, at [r2 = 1, 4, 9]. *)
Definition three_on_axis : list ParticleSystem :=
  [ shell_of 3 [on_axis_cached 1; on_axis_cached 2; on_axis_cached 3] ].

(** ** Invariants of the k-way merge *)

(** Chunk [c] of the receive arrays is [chunk_start c .. chunk_stop c). *)
Definition chunk_start (recv_counts : list nat) (c : nat) : nat :=
  nth c (displacements 0 recv_counts) 0.

Definition chunk_stop (recv_counts : list nat) (c : nat) : nat :=
  chunk_start recv_counts c + nth c recv_counts 0.

(** Every received chunk is sorted by [r2]. *)
Definition chunks_sorted (recv_counts : list nat) (recv_r2 : list double)
    : Prop :=
  forall c a b, c < length recv_counts ->
    chunk_start recv_counts c <= a -> a <= b -> b < chunk_stop recv_counts c ->
    (recv_r2.[a] <= recv_r2.[b])%Q.

(** A queue element describes a cell that its chunk has already handed
    out. *)
Definition well_placed (recv_counts : list nat) (recv_r2 : list double)
    (chunk_pos : list nat) (e : MergeElement.t) : Prop :=
  let c := MergeElement.chunk_id e in
  c < length recv_counts /\
  chunk_start recv_counts c <= MergeElement.source_idx e /\
  MergeElement.source_idx e < nth c chunk_pos 0 /\
  MergeElement.r2 e = recv_r2.[MergeElement.source_idx e].

(** The cells handed out so far, chunk by chunk. *)
Definition handed_out (recv_counts chunk_pos : list nat) : list nat :=
  flat_map (fun c => seq (chunk_start recv_counts c)
                         (nth c chunk_pos 0 - chunk_start recv_counts c))
           (seq 0 (length recv_counts)).

(** The state of the merge: [h] the queue, [chunk_pos] the cursors,
    [merge_order] the cells written so far.  [P c] says that chunk [c]
    must have a cell in the queue unless it is used up. *)
Record merge_inv {PQ : StdPriorityQueue} (recv_counts : list nat)
    (recv_r2 : list double) (P : nat -> Prop) (h : pq)
    (chunk_pos merge_order : list nat) : Prop := {
  inv_ok : pq_ok h;
  inv_len : length chunk_pos = length recv_counts;
  inv_range : forall c, c < length recv_counts ->
    chunk_start recv_counts c <= nth c chunk_pos 0 <= chunk_stop recv_counts c;
  inv_heap : Forall (well_placed recv_counts recv_r2 chunk_pos) (pq_elems h);
  inv_front : forall c, c < length recv_counts -> P c ->
    nth c chunk_pos 0 < chunk_stop recv_counts c ->
    In c (map MergeElement.chunk_id (pq_elems h));
  inv_perm : Permutation
    (merge_order ++ map MergeElement.source_idx (pq_elems h))
    (handed_out recv_counts chunk_pos);
  inv_sorted :
    StronglySorted (fun s t => (recv_r2.[s] <= recv_r2.[t])%Q) merge_order;
  inv_low : forall s e, In s merge_order -> In e (pq_elems h) ->
    (recv_r2.[s] <= MergeElement.r2 e)%Q
}.

(** A particle at rest with charge 1 and a stale cache. *)
Definition at_rest (px py pz : double) : list double :=
  [px; py; pz; 0; 0; 0; 1; 0; 0]%Q.

(** S5: three ranks, nine particles, all at [r2 = 1]. *)
Definition S5 : list ParticleSystem :=
  [ shell_of 9 [at_rest 1 0 0; at_rest 0 1 0; at_rest 0 0 1];
    shell_of 9 [at_rest 1 0 0; at_rest 0 1 0; at_rest 0 0 1];
    shell_of 9 [at_rest 1 0 0; at_rest 0 1 0; at_rest 0 0 1] ].

(** Two ranks, three particles at [r2 = 1]: two on rank 0, one on rank 1. *)
Definition tie_shells : list ParticleSystem :=
  [ shell_of 3 [at_rest 1 0 0; at_rest 0 1 0]; shell_of 3 [at_rest 0 0 1] ].

(** Two ranks, globally sorted: [r2 = 1, 4, 9] on rank 0 and [16] on
    rank 1. *)
Definition uneven_sorted : list ParticleSystem :=
  [ shell_of 4 [on_axis_cached 1; on_axis_cached 2; on_axis_cached 3];
    shell_of 4 [on_axis_cached 4] ].

(** Three ranks, four particles at the distinct radii [r2 = 1, 4, 9, 16]. *)
Definition spread_shells : list ParticleSystem :=
  [ shell_of 4 [on_axis 1; on_axis 2]; shell_of 4 [on_axis 3];
    shell_of 4 [on_axis 4] ].

(** * The rest of the time step (update_positions.cpp, compute_energy.cpp,
      save_positions.cpp, main.cpp) *)

(** ** The mover (update_positions.cpp) *)

(** [std::sqrt] on doubles.  The mover and the energy only need it to be a
    function. *)
Class StdMath := {
  std_sqrt : double -> double
}.

(** A square root to run the scenarios with: exact on the squares of
    rationals, rounded down elsewhere. *)
Definition floor_sqrt (d : double) : double :=
  Z.sqrt (Qnum d * Z.pos (Qden d)) # Qden d.

Definition floor_StdMath : StdMath := {| std_sqrt := floor_sqrt |}.

Section UpdatePositions.
Context {MATH : StdMath}.

(** One velocity component of particle [i] after
    [r = std::sqrt(r2[i]);
     if (r > 1e-15) { inv_r = 1.0 / r;
                      v[i] += dt * qom * Er[i] * pos[i] * inv_r; }]
    with [qom = 1.0 / iqom].  At [iqom = 0] the code has an infinite [qom]
    and the model has [1 / 0 = 0]: the properties of the mover are stated
    for [iqom] different from 0. *)
Definition kicked (ps : ParticleSystem) (dt : double) (pos v : list double)
    (i : nat) : double :=
  let qom := (1 / iqom ps)%Q in
  let r := std_sqrt (r2 ps).[i] in
  if dlt double_1e_15 r then
    let inv_r := (1 / r)%Q in
    (v.[i] + dt * qom * (Er ps).[i] * pos.[i] * inv_r)%Q
  else v.[i].

(** [for (i...) { kick vx[i], vy[i], vz[i];
                  x[i] += dt * vx[i]; y[i] += dt * vy[i]; z[i] += dt * vz[i]; }]
    Turn [i] of the loop reads and writes cell [i] only. *)
Definition updatePositions (ps : ParticleSystem) (dt : double)
    : ParticleSystem :=
  let n := n_particles ps in
  let vx' := fill n (kicked ps dt (x ps) (vx ps)) (vx ps) in
  let vy' := fill n (kicked ps dt (y ps) (vy ps)) (vy ps) in
  let vz' := fill n (kicked ps dt (z ps) (vz ps)) (vz ps) in
  {| name := name ps;
     x := fill n (fun i => (x ps).[i] + dt * vx'.[i])%Q (x ps);
     y := fill n (fun i => (y ps).[i] + dt * vy'.[i])%Q (y ps);
     z := fill n (fun i => (z ps).[i] + dt * vz'.[i])%Q (z ps);
     vx := vx'; vy := vy'; vz := vz';
     q := q ps; Er := Er ps; r2 := r2 ps;
     iqom := iqom ps;
     n_particles := n_particles ps;
     n_total := n_total ps |}.
End UpdatePositions.

(** ** The energy (compute_energy.cpp, [USE_FAST_ENERGY] being 0) *)

(** [MPI_Allreduce(.., 1, MPI_DOUBLE, MPI_SUM, ..)] *)
Definition MPI_Allreduce_dsum (contribs : list double) : double :=
  fold_left Qplus contribs 0%Q.

(** [MPI_Allgatherv] (and [MPI_Gatherv] on the root): the first
    [counts[s]] doubles of the send buffer of rank [s] land in the receive
    buffer at [displs[s]]. *)
Definition MPI_Allgatherv (sendbufs : list (list double))
    (counts displs : list nat) (recvbuf : list double) : list double :=
  fold_left
    (fun buf s =>
       blit (nth s displs 0) (slice 0 (nth s counts 0) (nth s sendbufs [])) buf)
    (seq 0 (length sendbufs)) recvbuf.

(** [for (i...) { v2 = vx[i]*vx[i] + vy[i]*vy[i] + vz[i]*vz[i];
                  local_kinetic += 0.5 * std::abs(iqom * q[i]) * v2; }] *)
Definition local_kinetic (ps : ParticleSystem) : double :=
  fold_left
    (fun local_kinetic i =>
       let v2 := ((vx ps).[i] * (vx ps).[i] + (vy ps).[i] * (vy ps).[i]
                  + (vz ps).[i] * (vz ps).[i])%Q in
       (local_kinetic + 0.5 * Qabs (iqom ps * (q ps).[i]) * v2)%Q)
    (seq 0 (n_particles ps)) 0%Q.

Section ComputeEnergy.
Context {MATH : StdMath}.

(** The body of the inner loop:
    [if (i != j) { dx = all_x[i] - all_x[j]; ...
       rij = std::sqrt(dx*dx + dy*dy + dz*dz);
       if (rij > 1e-15) local_potential += 0.5 * all_q[i] * all_q[j] / rij; }] *)
Definition pair_step (all_x all_y all_z all_q : list double) (i j : nat)
    (local_potential : double) : double :=
  if i =? j then local_potential
  else
    let dx := (all_x.[i] - all_x.[j])%Q in
    let dy := (all_y.[i] - all_y.[j])%Q in
    let dz := (all_z.[i] - all_z.[j])%Q in
    let rij := std_sqrt (dx * dx + dy * dy + dz * dz)%Q in
    if dlt double_1e_15 rij
    then (local_potential + 0.5 * all_q.[i] * all_q.[j] / rij)%Q
    else local_potential.

(** [for (i = my_start; i < my_end; i++) for (j = 0; j < total_particles; j++)] *)
Definition local_potential_of (all_x all_y all_z all_q : list double)
    (my_start my_end total_particles : nat) : double :=
  fold_left
    (fun local_potential i =>
       fold_left (fun local_potential j =>
                    pair_step all_x all_y all_z all_q i j local_potential)
                 (seq 0 total_particles) local_potential)
    (seq my_start (my_end - my_start)) 0%Q.

(** The value [computeEnergyParallel] returns, on every rank: the counts
    are gathered, the positions and charges of all ranks are gathered at
    the displacements, every rank sums the pairs whose first particle is
    its own, and the two reductions add the ranks up. *)
Definition computeEnergyParallel (shells : list ParticleSystem) : double :=
  let global_kinetic := MPI_Allreduce_dsum (map local_kinetic shells) in
  let recv_counts := map n_particles shells in
  let displs := displacements 0 recv_counts in
  let total_particles := list_sum recv_counts in
  let gather (field : ParticleSystem -> list double) :=
    MPI_Allgatherv (map field shells) recv_counts displs
                   (repeat 0%Q total_particles) in
  let all_x := gather x in
  let all_y := gather y in
  let all_z := gather z in
  let all_q := gather q in
  let local_potential r :=
    let my_start := nth r displs 0 in
    let my_end := my_start + nth r recv_counts 0 in
    local_potential_of all_x all_y all_z all_q my_start my_end total_particles in
  let global_potential :=
    MPI_Allreduce_dsum (map local_potential (seq 0 (length shells))) in
  (global_kinetic + global_potential)%Q.
End ComputeEnergy.

(** ** Saving the positions (save_positions.cpp) *)

(** What rank 0 writes, in this order: the step, the number of particles,
    and the three blocks of coordinates. *)
Record PositionsFile := mkPositionsFile {
  file_step : Z;
  file_total_n : nat;
  file_x : list double;
  file_y : list double;
  file_z : list double
}.

(** The counts and the coordinates are gathered on rank 0, which opens
    the file and, if it is open, writes them; the other ranks write
    nothing.  [is_open] is the file system as far as the code looks at it:
    whether [std::ofstream file(filename, std::ios::binary)] opens the
    file.  The result is the file written, under its name, if any. *)
Definition saveParticlePositions (is_open : string -> bool)
    (filename : string) (shells : list ParticleSystem) (step : Z)
    (mpi : MPIContext) : option (string * PositionsFile) :=
  let all_counts := map n_particles shells in
  let displs := displacements 0 all_counts in
  let total_n := list_sum all_counts in
  let gather (field : ParticleSystem -> list double) :=
    MPI_Allgatherv (map field shells) all_counts displs
                   (repeat 0%Q total_n) in
  if rank mpi =? 0 then
    if is_open filename then
      Some (filename,
            {| file_step := step;
               file_total_n := total_n;
               file_x := gather x;
               file_y := gather y;
               file_z := gather z |})
    else None
  else None.

(** ** The driver (main.cpp) *)

(** [(int) v] for a [long long] [v]: the value modulo [2^32], in
    [-2^31 .. 2^31). *)
Definition int_cast (v : Z) : Z := ((v + 2 ^ 31) mod 2 ^ 32 - 2 ^ 31)%Z.

(** [particles_per_rank = N / mpi.size; remainder = N % mpi.size;
     local_N = (int)(particles_per_rank + (mpi.rank < remainder ? 1 : 0));] *)
Definition local_N_of (N : Z) (mpi : MPIContext) : Z :=
  let particles_per_rank := (N ÷ Z.of_nat (size mpi))%Z in
  let remainder := Z.rem N (Z.of_nat (size mpi)) in
  int_cast (particles_per_rank
            + (if (Z.of_nat (rank mpi) <? remainder)%Z then 1 else 0))%Z.

Section TimeStep.
Context {SORT : StdSort} {PQ : StdPriorityQueue} {MATH : StdMath}.

(** [sortParticlesParallel(ps, mpi); updateElectricFieldParallel(ps, mpi);]
    as in the initialisation and at the head of every time step. *)
Definition sort_and_solve (shells : list ParticleSystem)
    : option (list ParticleSystem) :=
  match sortParticlesParallel shells with
  | None => None
  | Some sorted => Some (run_updateElectricFieldParallel sorted)
  end.

(** The body of the main loop, for one species:
    [sortParticlesParallel(ps, mpi); updateElectricFieldParallel(ps, mpi);
     updatePositions(ps, dt);] *)
Definition time_step (shells : list ParticleSystem) (dt : double)
    : option (list ParticleSystem) :=
  match sort_and_solve shells with
  | None => None
  | Some solved => Some (map (fun ps => updatePositions ps dt) solved)
  end.

(** [for (it = 0; it < Nt; it++)] *)
Fixpoint simulate (Nt : nat) (shells : list ParticleSystem) (dt : double)
    : option (list ParticleSystem) :=
  match Nt with
  | O => Some shells
  | S Nt' =>
      match time_step shells dt with
      | None => None
      | Some shells' => simulate Nt' shells' dt
      end
  end.
End TimeStep.

(** ** Vocabulary of the properties of the time step *)

(** The class invariant: every array has [n_particles] cells. *)
Definition sized (ps : ParticleSystem) : Prop :=
  Forall (fun v => length v = n_particles ps)
         [x ps; y ps; z ps; vx ps; vy ps; vz ps; q ps; Er ps; r2 ps].

Definition vec3 : Type := double * double * double.

Definition position (ps : ParticleSystem) (i : nat) : vec3 :=
  ((x ps).[i], (y ps).[i], (z ps).[i]).

Definition velocity (ps : ParticleSystem) (i : nat) : vec3 :=
  ((vx ps).[i], (vy ps).[i], (vz ps).[i]).

Definition cross (a b : vec3) : vec3 :=
  let '(a1, a2, a3) := a in
  let '(b1, b2, b3) := b in
  (a2 * b3 - a3 * b2, a3 * b1 - a1 * b3, a1 * b2 - a2 * b1)%Q.

(** Equality of vectors, as numbers. *)
Definition vec3_eq (a b : vec3) : Prop :=
  let '(a1, a2, a3) := a in
  let '(b1, b2, b3) := b in
  (a1 == b1)%Q /\ (a2 == b2)%Q /\ (a3 == b3)%Q.

Definition vec3_zero : vec3 := (0, 0, 0)%Q.

(** The sum of a list of numbers. *)
Definition Qsum (l : list Q) : Q := fold_right Qplus 0%Q l.

(** The kinetic energy of a particle record, for a species of inverse
    charge-to-mass ratio [m], and the energy of an ordered pair of
    records. *)
Definition kinetic_of (m : double) (rec : list double) : double :=
  let v2 := (nth 3 rec 0 * nth 3 rec 0 + nth 4 rec 0 * nth 4 rec 0
             + nth 5 rec 0 * nth 5 rec 0)%Q in
  (0.5 * Qabs (m * nth 6 rec 0) * v2)%Q.

Definition pair_energy {MATH : StdMath} (a b : list double) : double :=
  let dx := (nth 0 a 0 - nth 0 b 0)%Q in
  let dy := (nth 1 a 0 - nth 1 b 0)%Q in
  let dz := (nth 2 a 0 - nth 2 b 0)%Q in
  let rij := std_sqrt (dx * dx + dy * dy + dz * dz)%Q in
  if dlt double_1e_15 rij then (0.5 * nth 6 a 0 * nth 6 b 0 / rij)%Q else 0%Q.

(** The energy of a list of particle records: the kinetic energies, and
    the pair energies of the ordered pairs of distinct particles. *)
Definition energy_of {MATH : StdMath} (m : double) (P : list (list double))
    : double :=
  (Qsum (map (kinetic_of m) P)
   + Qsum (map (fun a => Qsum (map (pair_energy a) P) - pair_energy a a) P))%Q.

(** The charge and the angular momentum (per unit of mass) of a particle
    record, and the sums over all particles. *)
Definition rec_q (rec : list double) : double := nth 6 rec 0%Q.

Definition rec_angular_momentum (rec : list double) : vec3 :=
  cross (nth 0 rec 0, nth 1 rec 0, nth 2 rec 0)%Q
        (nth 3 rec 0, nth 4 rec 0, nth 5 rec 0)%Q.

Definition vec3_sum (l : list vec3) : vec3 :=
  (Qsum (map (fun v => fst (fst v)) l), Qsum (map (fun v => snd (fst v)) l),
   Qsum (map (fun v => snd v) l)).

Definition total_angular_momentum (shells : list ParticleSystem) : vec3 :=
  vec3_sum (map rec_angular_momentum (all_records shells)).

(** All the shells on one rank: the arrays of the ranks, one after the
    other. *)
Definition on_one_rank (shells : list ParticleSystem) : ParticleSystem :=
  {| name := name (shell shells 0);
     x := concat (map x shells); y := concat (map y shells);
     z := concat (map z shells);
     vx := concat (map vx shells); vy := concat (map vy shells);
     vz := concat (map vz shells);
     q := concat (map q shells); Er := concat (map Er shells);
     r2 := concat (map r2 shells);
     iqom := iqom (shell shells 0);
     n_particles := list_sum (map n_particles shells);
     n_total := n_total (shell shells 0) |}.

(** Where the particles of rank [p] start in rank order. *)
Definition offset_of (shells : list ParticleSystem) (p : nat) : nat :=
  nth p (displacements 0 (map n_particles shells)) 0.

(** ** Scenarios of the time step *)

(** One particle off the axes, moving across its radius. *)
Definition orbiting : ParticleSystem :=
  shell_of 1 [[3; 4; 0; 1; 2; 0; 1; 2; 25]%Q].

(** One particle moving along its radius. *)
Definition outbound : ParticleSystem :=
  shell_of 1 [[3; 4; 0; 6; 8; 0; 1; 2; 25]%Q].

(** The particles of S2 after the redistribution, the two shells
    exchanged. *)
Definition S2_exchanged : list ParticleSystem :=
  [ shell_of 4 [on_axis_cached 3; on_axis_cached 4];
    shell_of 4 [on_axis_cached 1; on_axis_cached 2] ].

(** ** The initial particles (main.cpp) *)

Section Generation.
(** [RAND_MAX] of [<cstdlib>]: the implementation's constant. *)
Variable RAND_MAX : Z.

(** [randDouble() { return (double)rand() / RAND_MAX; }], [r] being what
    [rand()] returned. *)
Definition randDouble (r : Z) : double := (inject_Z r / inject_Z RAND_MAX)%Q.

(** [-R + 2 * R * randDouble()] *)
Definition coordinate (R : double) (r : Z) : double :=
  (- R + 2 * R * randDouble r)%Q.

(** The writes of an accepted point into cell [valid_particles]. *)
Definition store (ps : ParticleSystem) (valid_particles : nat)
    (px py pz charge radius2 : double) : ParticleSystem :=
  {| name := name ps;
     x := upd valid_particles px (x ps);
     y := upd valid_particles py (y ps);
     z := upd valid_particles pz (z ps);
     vx := upd valid_particles 0%Q (vx ps);
     vy := upd valid_particles 0%Q (vy ps);
     vz := upd valid_particles 0%Q (vz ps);
     q := upd valid_particles charge (q ps);
     Er := Er ps;
     r2 := upd valid_particles radius2 (r2 ps);
     iqom := iqom ps;
     n_particles := n_particles ps;
     n_total := n_total ps |}.

(** [while (valid_particles < local_N) { x = ...; y = ...; z = ...;
      r2 = x*x + y*y + z*z;
      if (r2 <= R*R) { store; if (r2 > local_max_r2) local_max_r2 = r2;
                       valid_particles++; } }]
    [stream] holds what the calls of [rand()] return, in the order of the
    calls; [None] when the loop is still running at its end. *)
Fixpoint generate_loop (R charge : double) (local_N : nat) (stream : list Z)
    (ps : ParticleSystem) (valid_particles : nat) (local_max_r2 : double)
    {struct stream} : option (ParticleSystem * double) :=
  if valid_particles <? local_N then
    match stream with
    | r_x :: r_y :: r_z :: rest =>
        let px := coordinate R r_x in
        let py := coordinate R r_y in
        let pz := coordinate R r_z in
        let radius2 := (px * px + py * py + pz * pz)%Q in
        if Qle_bool radius2 (R * R) then
          generate_loop R charge local_N rest
            (store ps valid_particles px py pz charge radius2)
            (S valid_particles)
            (if dlt local_max_r2 radius2 then radius2 else local_max_r2)
        else generate_loop R charge local_N rest ps valid_particles local_max_r2
    | _ => None
    end
  else Some (ps, local_max_r2).

(** One species on one rank:
    [Q = 4.0 / 3.0 * 3.14159265358979323846 * R * R * R;
     new ParticleSystem(local_N, N, name, iqom); valid_particles = 0;
     local_max_r2 = 0.0; the loop, with [q = Q / N]]. *)
Definition generate (R : double) (N : Z) (local_N : nat)
    (species_name : string) (inv_qom : double) (stream : list Z)
    : option (ParticleSystem * double) :=
  let Q := (4 / 3 * 3.14159265358979323846 * R * R * R)%Q in
  generate_loop R (Q / inject_Z N) local_N stream
    (ParticleSystem_new local_N N species_name inv_qom) 0 0%Q.

(** The points the stream proposes, and those inside the sphere. *)
Fixpoint points (R : double) (stream : list Z) {struct stream}
    : list (double * double * double) :=
  match stream with
  | r_x :: r_y :: r_z :: rest =>
      (coordinate R r_x, coordinate R r_y, coordinate R r_z) :: points R rest
  | _ => []
  end.

Definition radius2_of (pt : double * double * double) : double :=
  let '(px, py, pz) := pt in (px * px + py * py + pz * pz)%Q.

Definition accepted (R : double) (stream : list Z)
    : list (double * double * double) :=
  filter (fun pt => Qle_bool (radius2_of pt) (R * R)) (points R stream).

(** The record of a new particle: at rest, with the charge of its species,
    no field yet, and its radius cached. *)
Definition record_at_rest (charge : double) (pt : double * double * double)
    : list double :=
  let '(px, py, pz) := pt in
  [px; py; pz; 0; 0; 0; charge; 0; radius2_of pt]%Q.
End Generation.

(** ** The performance summary (performance.cpp) *)

Record PerformanceMetricsSummary := mkPerformanceMetricsSummary {
  total_time : double;
  gflops : double;
  memory_bandwidth : double
}.

(** [flops_per_step = 25.0 * N * num_species; total_flops = flops_per_step * Nt;
     gflops = total_flops / (total_time * 1e9);
     bytes_per_step = 72.0 * N * num_species * 4;
     total_bytes = bytes_per_step * Nt;
     memory_bandwidth = total_bytes / (total_time * 1e9);] *)
Definition calculatePerformanceMetrics (Nt N num_species : Z)
    (total_time : double) : PerformanceMetricsSummary :=
  let flops_per_step := (25 * inject_Z N * inject_Z num_species)%Q in
  let total_flops := (flops_per_step * inject_Z Nt)%Q in
  let bytes_per_step := (72 * inject_Z N * inject_Z num_species * 4)%Q in
  let total_bytes := (bytes_per_step * inject_Z Nt)%Q in
  {| total_time := total_time;
     gflops := (total_flops / (total_time * 1e9))%Q;
     memory_bandwidth := (total_bytes / (total_time * 1e9))%Q |}.

(** * Properties *)

(** ** Numbers and vectors *)

Lemma dlt_true (a b : double) : dlt a b = true <-> (a < b)%Q.
Proof.
  unfold dlt. rewrite negb_true_iff, <- not_true_iff_false, Qle_bool_iff.
  split; [apply Qnot_le_lt | apply Qlt_not_le].
Qed.

Lemma dlt_false (a b : double) : dlt a b = false <-> (b <= a)%Q.
Proof.
  unfold dlt. rewrite negb_false_iff, Qle_bool_iff. reflexivity.
Qed.

Lemma nth_map_seq {A : Type} (f : nat -> A) n i d :
  i < n -> nth i (map f (seq 0 n)) d = f i.
Proof.
  intros H.
  rewrite nth_indep with (d' := f 0) by (rewrite length_map, length_seq; lia).
  rewrite (map_nth f (seq 0 n) 0 i), seq_nth by lia. reflexivity.
Qed.

Lemma at_map_seq (f : nat -> double) n i :
  i < n -> (map f (seq 0 n)).[i] = f i.
Proof.
  apply nth_map_seq.
Qed.

Lemma at_fill n f v i : i < n -> (fill n f v).[i] = f i.
Proof.
  intros H. unfold fill, at_.
  rewrite app_nth1 by (rewrite length_map, length_seq; lia).
  apply at_map_seq; assumption.
Qed.

(** The thresholds of the guards are the doubles the literals are read
    as, each a little above the decimal number. *)
#[warnings="-inexact-float"] Lemma thresholds_are_doubles :
  (exists d, Binary64.exact 1e-30%float = Some d /\ (d == double_1e_30)%Q) /\
  (1e-30 < double_1e_30)%Q /\
  (exists d, Binary64.exact 1e-15%float = Some d /\ (d == double_1e_15)%Q) /\
  (1e-15 < double_1e_15)%Q.
Proof.
  split; [eexists; split; vm_compute; reflexivity|].
  split; [vm_compute; reflexivity|].
  split; [eexists; split; vm_compute; reflexivity|].
  vm_compute; reflexivity.
Qed.

(** ** ParticleSystem *)

Lemma max_r2_loop_upper (v : list double) (idx : list nat) (m : double) :
  let r := fold_left (fun max_r2 i => if dlt max_r2 v.[i] then v.[i] else max_r2)
                     idx m in
  (m <= r)%Q /\ Forall (fun i => (v.[i] <= r)%Q) idx.
Proof.
  revert m. induction idx as [|i idx IH]; intros m; simpl.
  - split; [apply Qle_refl | constructor].
  - destruct (dlt m v.[i]) eqn:E.
    + destruct (IH v.[i]) as [H1 H2]. apply dlt_true in E.
      split; [ | constructor; assumption].
      apply Qle_trans with v.[i]; [apply Qlt_le_weak|]; assumption.
    + destruct (IH m) as [H1 H2]. apply dlt_false in E.
      split; [assumption | constructor; [|assumption]].
      apply Qle_trans with m; assumption.
Qed.

Lemma max_r2_loop_attained (v : list double) (idx : list nat) (m : double) :
  let r := fold_left (fun max_r2 i => if dlt max_r2 v.[i] then v.[i] else max_r2)
                     idx m in
  r = m \/ exists i, In i idx /\ r = v.[i].
Proof.
  revert m. induction idx as [|i idx IH]; intros m; simpl.
  - left; reflexivity.
  - destruct (dlt m v.[i]) eqn:E.
    + destruct (IH v.[i]) as [H | [j [Hj H]]].
      * right. exists i. split; [left; reflexivity | exact H].
      * right. exists j. split; [right; exact Hj | exact H].
    + destruct (IH m) as [H | [j [Hj H]]].
      * left; exact H.
      * right. exists j. split; [right; exact Hj | exact H].
Qed.

(** C7, as the code has it: the loop starts from [0.0], so the result is
    [0.0] on an empty shell, it bounds every local [r2] from above, and on
    a non-empty shell whose [r2] are non-negative (sums of squares are) it
    is the [r2] of a local particle: the maximum. *)
Theorem getMaxRadiusSquared_max_or_zero (ps : ParticleSystem) :
  (n_particles ps = 0 -> getMaxRadiusSquared ps = 0%Q) /\
  (forall i, i < n_particles ps -> ((r2 ps).[i] <= getMaxRadiusSquared ps)%Q) /\
  (0 < n_particles ps ->
   (forall i, i < n_particles ps -> (0 <= (r2 ps).[i])%Q) ->
   exists i, i < n_particles ps /\
             (getMaxRadiusSquared ps == (r2 ps).[i])%Q).
Proof.
  unfold getMaxRadiusSquared. split; [|split].
  - intros ->. reflexivity.
  - intros i Hi.
    destruct (max_r2_loop_upper (r2 ps) (seq 0 (n_particles ps)) 0%Q) as [_ H].
    rewrite Forall_forall in H. apply H, in_seq. lia.
  - intros Hn Hpos.
    destruct (max_r2_loop_attained (r2 ps) (seq 0 (n_particles ps)) 0%Q)
      as [H | [j [Hj H]]].
    + exists 0. split; [exact Hn|].
      destruct (max_r2_loop_upper (r2 ps) (seq 0 (n_particles ps)) 0%Q) as [_ U].
      rewrite Forall_forall in U.
      apply Qle_antisym.
      * rewrite H. apply Hpos, Hn.
      * apply U, in_seq. lia.
    + exists j. apply in_seq in Hj. split; [lia|]. rewrite H. reflexivity.
Qed.

(** C7 as stated fails on the empty shell: the code returns [0.0] where
    the specification says minus infinity. *)
Lemma getMaxRadiusSquared_empty_not_minus_infinity :
  n_particles no_shell = 0 /\
  getMaxRadiusSquared no_shell = 0%Q /\
  max_r2_local_spec no_shell = MinusInfinity /\
  Finite (getMaxRadiusSquared no_shell) <> max_r2_local_spec no_shell.
Proof.
  repeat split. discriminate.
Qed.

(** ** The radial field solver *)

Lemma field_sweep_length ps idx c : length (field_sweep ps idx c) = length idx.
Proof.
  revert c. induction idx as [|i idx IH]; intros c; simpl; [|rewrite IH]; reflexivity.
Qed.

Lemma field_sweep_nth ps len : forall start c i, i < len ->
  (field_sweep ps (seq start len) c).[i] =
    let cumulative :=
      fold_left (fun a j => a + (q ps).[j])%Q (seq start (S i)) c in
    if dlt double_1e_30 (r2 ps).[start + i]
    then (cumulative / (r2 ps).[start + i])%Q else 0%Q.
Proof.
  induction len as [|len IH]; intros start c i Hi; [lia|].
  destruct i as [|i].
  - simpl. rewrite Nat.add_0_r. reflexivity.
  - cbn [seq field_sweep]. unfold at_ at 1. cbn [nth].
    change (nth i (field_sweep ps (seq (S start) len) (c + (q ps).[start])) 0%Q)
      with ((field_sweep ps (seq (S start) len) (c + (q ps).[start])).[i]).
    rewrite IH by lia.
    replace (S start + i) with (start + S i) by lia.
    reflexivity.
Qed.

Lemma run_field_length shells :
  length (run_updateElectricFieldParallel shells) = length shells.
Proof.
  unfold run_updateElectricFieldParallel. rewrite length_map, length_seq.
  reflexivity.
Qed.

Lemma run_field_shell shells p : p < length shells ->
  shell (run_updateElectricFieldParallel shells) p =
  updateElectricFieldParallel (shell shells p)
    {| rank := p; size := length shells |}
    (MPI_Exscan_sum (map local_charge_sum shells) p).
Proof.
  intros Hp. unfold shell, run_updateElectricFieldParallel.
  rewrite nth_map_seq by exact Hp. reflexivity.
Qed.

(** C10: the solver writes [Er] and nothing else, on every rank. *)
Theorem updateElectricFieldParallel_frame (shells : list ParticleSystem) (p : nat) :
  length (run_updateElectricFieldParallel shells) = length shells /\
  let ps := shell shells p in
  let ps' := shell (run_updateElectricFieldParallel shells) p in
  x ps' = x ps /\ y ps' = y ps /\ z ps' = z ps /\
  vx ps' = vx ps /\ vy ps' = vy ps /\ vz ps' = vz ps /\
  q ps' = q ps /\ r2 ps' = r2 ps /\
  n_particles ps' = n_particles ps /\ n_total ps' = n_total ps /\
  iqom ps' = iqom ps /\ name ps' = name ps.
Proof.
  split; [apply run_field_length|].
  destruct (Nat.lt_ge_cases p (length shells)) as [Hp | Hp].
  - cbv zeta. rewrite run_field_shell by exact Hp.
    repeat split.
  - cbv zeta. unfold shell.
    rewrite !nth_overflow by (rewrite ?run_field_length; exact Hp).
    repeat split.
Qed.

Lemma field_sweep_set_Er ps v idx c :
  field_sweep (set_Er ps v) idx c = field_sweep ps idx c.
Proof.
  revert c. induction idx as [|i idx IH]; intros c; simpl; [reflexivity|].
  rewrite IH. reflexivity.
Qed.

Lemma local_charge_sum_run shells :
  map local_charge_sum (run_updateElectricFieldParallel shells) =
  map local_charge_sum shells.
Proof.
  apply nth_ext with (d := 0%Q) (d' := 0%Q).
  - rewrite !length_map. apply run_field_length.
  - intros p Hp. rewrite length_map, run_field_length in Hp.
    rewrite nth_indep with (d' := local_charge_sum no_shell)
      by (rewrite length_map, run_field_length; exact Hp).
    rewrite (nth_indep (map local_charge_sum shells) 0%Q (local_charge_sum no_shell))
      by (rewrite length_map; exact Hp).
    rewrite !map_nth. fold (shell (run_updateElectricFieldParallel shells) p).
    fold (shell shells p).
    rewrite run_field_shell by exact Hp. reflexivity.
Qed.

(** C8: running the solver a second time changes nothing. *)
Theorem updateElectricFieldParallel_idempotent (shells : list ParticleSystem) :
  run_updateElectricFieldParallel (run_updateElectricFieldParallel shells) =
  run_updateElectricFieldParallel shells.
Proof.
  unfold run_updateElectricFieldParallel at 1 3.
  rewrite local_charge_sum_run, run_field_length.
  apply map_ext_in. intros p Hp. apply in_seq in Hp.
  rewrite run_field_shell by lia.
  set (ps := shell shells p).
  set (scan := MPI_Exscan_sum (map local_charge_sum shells) p).
  unfold updateElectricFieldParallel. cbn [rank]. cbv zeta.
  rewrite field_sweep_set_Er.
  unfold set_Er. cbn. f_equal. f_equal.
  rewrite skipn_app, field_sweep_length, length_seq, Nat.sub_diag.
  rewrite skipn_all2 by (rewrite field_sweep_length, length_seq; lia).
  reflexivity.
Qed.

Lemma I1_le ps : I1 ps -> forall j i, i <= j -> j < n_particles ps ->
  ((r2 ps).[i] <= (r2 ps).[j])%Q.
Proof.
  intros H j. induction j as [|j IH]; intros i Hij Hj.
  - replace i with 0 by lia. apply Qle_refl.
  - destruct (Nat.eq_dec i (S j)) as [-> | Hne]; [apply Qle_refl|].
    apply Qle_trans with (r2 ps).[j]; [apply IH; lia | apply H; lia].
Qed.

Lemma filter_none {A : Type} (f : A -> bool) (l : list A) :
  (forall a, In a l -> f a = false) -> filter f l = [].
Proof.
  induction l as [|a l IH]; intros H; simpl; [reflexivity|].
  rewrite (H a) by (left; reflexivity). apply IH.
  intros b Hb. apply H. right; exact Hb.
Qed.

Lemma filter_all {A : Type} (f : A -> bool) (l : list A) :
  (forall a, In a l -> f a = true) -> filter f l = l.
Proof.
  induction l as [|a l IH]; intros H; simpl; [reflexivity|].
  rewrite (H a) by (left; reflexivity). f_equal. apply IH.
  intros b Hb. apply H. right; exact Hb.
Qed.

Lemma fold_left_map {A B C : Type} (f : A -> C -> A) (g : B -> C) l a :
  fold_left f (map g l) a = fold_left (fun a b => f a (g b)) l a.
Proof.
  revert a. induction l as [|b l IH]; intros a; simpl; [|rewrite IH]; reflexivity.
Qed.

Lemma fold_left_Qplus_shift {A : Type} (f : A -> Q) l (c : Q) :
  (fold_left (fun a j => a + f j) l c == c + fold_left (fun a j => a + f j) l 0)%Q.
Proof.
  revert c. induction l as [|j l IH]; intros c; simpl.
  - ring.
  - rewrite IH, (IH (0 + f j)%Q). ring.
Qed.

Lemma firstn_map_nth {A B : Type} (f : A -> B) (l : list A) (d : A) p :
  p <= length l -> firstn p (map f l) = map (fun i => f (nth i l d)) (seq 0 p).
Proof.
  revert p. induction l as [|a l IH]; intros p Hp; simpl in Hp.
  - replace p with 0 by lia. reflexivity.
  - destruct p as [|p]; [reflexivity|].
    cbn [map firstn seq nth]. f_equal.
    rewrite <- seq_shift, map_map. apply IH. lia.
Qed.

Lemma charge_within_all ps count bound :
  (forall j, j < count -> ((r2 ps).[j] <= bound)%Q) ->
  charge_within ps count bound =
  fold_left (fun a j => a + (q ps).[j])%Q (seq 0 count) 0%Q.
Proof.
  intros H. unfold charge_within.
  rewrite filter_all, fold_left_map; [reflexivity|].
  intros j Hj. apply in_seq in Hj. apply Qle_bool_iff, H. lia.
Qed.

Lemma fold_left_Qplus_ext {A : Type} (f g : A -> double) l :
  (forall a, In a l -> f a = g a) ->
  forall c, fold_left Qplus (map f l) c = fold_left Qplus (map g l) c.
Proof.
  intros H c. f_equal. apply map_ext_in. exact H.
Qed.

(** C1, as the code has it: with the shells sorted locally (I1) and
    ordered across the ranks (I2), the solver leaves in [Er[i]] the
    enclosed charge over [r2[i]], in exact arithmetic, when [r2[i]] is
    above the double [1e-30], and [0] when it is at most that double.
    (I3 is not needed.) *)
Theorem updateElectricFieldParallel_enclosed_charge
    (shells : list ParticleSystem) (p i : nat) :
  (forall p', p' < length shells -> I1 (shell shells p')) ->
  I2 shells ->
  (forall p', p' < length shells -> I3 (shell shells p')) ->
  p < length shells -> i < n_particles (shell shells p) ->
  let r2_i := (r2 (shell shells p)).[i] in
  let Er_i := (Er (shell (run_updateElectricFieldParallel shells) p)).[i] in
  ((double_1e_30 < r2_i)%Q -> (Er_i == Q_enc shells p i / r2_i)%Q) /\
  ((r2_i <= double_1e_30)%Q -> Er_i = 0%Q).
Proof.
  intros HI1 HI2 _ Hp Hi. cbv zeta.
  rewrite run_field_shell by exact Hp.
  set (ps := shell shells p) in *.
  unfold updateElectricFieldParallel. cbn [rank set_Er Er].
  unfold at_ at 2 5. rewrite !app_nth1 by (rewrite field_sweep_length, length_seq; exact Hi).
  change (nth i ?l 0%Q) with (l.[i]).
  rewrite field_sweep_nth by exact Hi. cbv zeta. rewrite Nat.add_0_l.
  split; intros Hr.
  - apply dlt_true in Hr. rewrite Hr.
    apply Qdiv_comp; [|reflexivity].
    rewrite fold_left_Qplus_shift. unfold Q_enc. fold ps.
    apply Qplus_comp.
    + (* the prefix delivered by the scan *)
      assert (Hscan : (if p =? 0 then 0%Q
                       else MPI_Exscan_sum (map local_charge_sum shells) p 0%Q)
                      = fold_left Qplus (firstn p (map local_charge_sum shells)) 0%Q).
      { destruct p; reflexivity. }
      rewrite Hscan, (firstn_map_nth _ _ no_shell) by lia.
      erewrite fold_left_Qplus_ext; [reflexivity|].
      intros p' Hp'. apply in_seq in Hp'.
      fold (shell shells p'). unfold local_charge_sum.
      symmetry. apply charge_within_all.
      intros j Hj. apply HI2; try assumption; lia.
    + rewrite charge_within_all; [reflexivity|].
      intros j Hj. apply I1_le; [apply HI1; exact Hp | lia | exact Hi].
  - apply dlt_false in Hr. rewrite Hr. reflexivity.
Qed.

(** The theorem at work on S2 after the redistribution: on rank 1 the
    first particle ([r2 = 9]) encloses the charge 3. *)
Lemma updateElectricFieldParallel_enclosed_charge_S2 :
  ((double_1e_30 < 9)%Q ->
   ((Er (shell (run_updateElectricFieldParallel S2_sorted) 1)).[0]
    == Q_enc S2_sorted 1 0 / 9)%Q) /\
  ((9 <= double_1e_30)%Q ->
   (Er (shell (run_updateElectricFieldParallel S2_sorted) 1)).[0] = 0%Q).
Proof.
  apply (@updateElectricFieldParallel_enclosed_charge S2_sorted 1 0).
  - intros [|[|p']] Hp' [|[|i]] Hi; simpl in Hp', Hi; try lia;
      vm_compute; discriminate.
  - intros [|[|p']] [|[|q']] [|[|i]] [|[|j]] Hpq Hq Hi Hj;
      simpl in Hq, Hi, Hj; try lia; vm_compute; discriminate.
  - intros [|[|p']] Hp' [|[|i]] Hi; simpl in Hp', Hi; try lia;
      vm_compute; reflexivity.
  - simpl. lia.
  - simpl. lia.
Defined.

(** C1 as stated fails twice.  The guard of the code is the double
    [1e-30], which is above the number 10^-30: the particle of [at_guard]
    has its [r2] above 10^-30 and gets [Er = 0], not its charge over
    [r2].  And the code rounds: on binary64 numbers, with the charges and
    the [r2] of [three_on_axis], the third particle gets the double
    nearest to 3/9, which is not 3/9. *)
Lemma enclosed_charge_guard_and_rounding :
  ((forall p', p' < length at_guard -> I1 (shell at_guard p')) /\
   I2 at_guard /\
   (forall p', p' < length at_guard -> I3 (shell at_guard p')) /\
   let r2_0 := (r2 (shell at_guard 0)).[0] in
   let Er_0 := (Er (shell (run_updateElectricFieldParallel at_guard) 0)).[0] in
   (1e-30 < r2_0)%Q /\ ~ (Er_0 == Q_enc at_guard 0 0 / r2_0)%Q) /\
  ((forall p', p' < length three_on_axis -> I1 (shell three_on_axis p')) /\
   I2 three_on_axis /\
   (forall p', p' < length three_on_axis -> I3 (shell three_on_axis p')) /\
   let charges := [1; 1; 1]%float in
   let squares := [1; 4; 9]%float in
   Forall2 (fun d v => exists e, Binary64.exact d = Some e /\ (e == v)%Q)
           charges (q (shell three_on_axis 0)) /\
   Forall2 (fun d v => exists e, Binary64.exact d = Some e /\ (e == v)%Q)
           squares (r2 (shell three_on_axis 0)) /\
   let field :=
     Binary64.run_updateElectricFieldParallel [(charges, squares)] in
   let r2_2 := (r2 (shell three_on_axis 0)).[2] in
   exists Er_2,
     Binary64.exact (nth 2 (nth 0 field []) 0%float) = Some Er_2 /\
     (1e-30 < r2_2)%Q /\ ~ (Er_2 == Q_enc three_on_axis 0 2 / r2_2)%Q).
Proof.
  split; [split; [|split; [|split]] | split; [|split; [|split]]].
  - intros [|p'] Hp' [|i] Hi; simpl in Hp', Hi; lia.
  - intros [|p'] [|q'] i j Hpq Hq; simpl in Hq; lia.
  - intros [|p'] Hp' [|i] Hi; simpl in Hp', Hi; try lia.
    vm_compute. reflexivity.
  - cbv zeta. split; [vm_compute; reflexivity|].
    intros H. vm_compute in H. discriminate H.
  - intros [|p'] Hp' [|[|i]] Hi; simpl in Hp', Hi; try lia;
      vm_compute; discriminate.
  - intros [|p'] [|q'] i j Hpq Hq; simpl in Hq; lia.
  - intros [|p'] Hp' [|[|[|i]]] Hi; simpl in Hp', Hi; try lia;
      vm_compute; reflexivity.
  - cbv zeta.
    split; [repeat constructor; eexists; split; vm_compute; reflexivity|].
    split; [repeat constructor; eexists; split; vm_compute; reflexivity|].
    eexists. split; [vm_compute; reflexivity|].
    split; [vm_compute; reflexivity|].
    intros H. vm_compute in H. discriminate H.
Qed.

(** ** The library pieces: the two implementations keep the contracts *)

Lemma gt_false (a b : MergeElement.t) :
  MergeElement.gt a b = false <-> (MergeElement.r2 a <= MergeElement.r2 b)%Q.
Proof.
  unfold MergeElement.gt. apply dlt_false.
Qed.

Lemma insert_sorted_perm comp a l : Permutation (insert_sorted comp a l) (a :: l).
Proof.
  induction l as [|b l IH]; simpl; [reflexivity|].
  destruct (comp a b); [reflexivity|].
  rewrite IH. apply perm_swap.
Qed.

Lemma insertion_sort_loop_perm comp l : forall acc,
  Permutation (fold_left (fun sorted a => insert_sorted comp a sorted) l acc)
              (acc ++ l).
Proof.
  induction l as [|a l IH]; intros acc; simpl.
  - rewrite app_nil_r. reflexivity.
  - rewrite IH, insert_sorted_perm. apply Permutation_middle.
Qed.

Lemma insert_sorted_sorted comp a l :
  (forall a b c, comp a b = false -> comp b c = false -> comp a c = false) ->
  (forall a b, comp a b = true -> comp b a = false) ->
  StronglySorted (fun a b => comp b a = false) l ->
  StronglySorted (fun a b => comp b a = false) (insert_sorted comp a l).
Proof.
  intros Htr Has. induction l as [|b l IH]; intros Hs; simpl.
  - repeat constructor.
  - inversion Hs as [|? ? Hl Hb]; subst.
    destruct (comp a b) eqn:E.
    + constructor; [exact Hs|].
      constructor; [apply Has; exact E|].
      rewrite Forall_forall in *. intros e He.
      apply Htr with b; [apply Hb; exact He | apply Has; exact E].
    + constructor; [apply IH; exact Hl|].
      rewrite Forall_forall in *. intros e He.
      apply (Permutation_in _ (insert_sorted_perm comp a l)) in He.
      destruct He as [<- | He]; [exact E | apply Hb; exact He].
Qed.

#[export] Instance insertion_StdSortLaws : StdSortLaws insertion_StdSort.
Proof.
  split.
  - intros comp l. simpl. unfold insertion_sort.
    rewrite insertion_sort_loop_perm. reflexivity.
  - intros comp l Htr Has. simpl. unfold insertion_sort.
    assert (H : forall acc, StronglySorted (fun a b => comp b a = false) acc ->
              StronglySorted (fun a b => comp b a = false)
                (fold_left (fun sorted a => insert_sorted comp a sorted) l acc)).
    { induction l as [|a l IH]; intros acc Hacc; simpl; [exact Hacc|].
      apply IH, insert_sorted_sorted; assumption. }
    apply H. constructor.
Qed.

Lemma extract_min_spec e l :
  let '(m, rest) := ListQueue.extract_min e l in
  Permutation (e :: l) (m :: rest) /\
  Forall (fun a => MergeElement.gt m a = false) (e :: l).
Proof.
  revert e. induction l as [|e' l IH]; intros e; simpl.
  - split; [reflexivity|]. constructor; [|constructor].
    apply gt_false, Qle_refl.
  - specialize (IH e'). destruct (ListQueue.extract_min e' l) as [m rest].
    destruct IH as [HP HF].
    destruct (MergeElement.gt e m) eqn:E.
    + split.
      * rewrite HP. apply perm_swap.
      * constructor; [|exact HF].
        apply gt_false. unfold MergeElement.gt in E. apply dlt_true in E.
        apply Qlt_le_weak, E.
    + split; [reflexivity|].
      constructor; [apply gt_false, Qle_refl|].
      apply gt_false in E. rewrite Forall_forall in *.
      intros a Ha. apply gt_false.
      apply Qle_trans with (MergeElement.r2 m); [exact E|].
      apply gt_false, HF, Ha.
Qed.

#[export] Instance list_StdPriorityQueueLaws :
  StdPriorityQueueLaws list_StdPriorityQueue.
Proof.
  split; simpl.
  - exact I.
  - reflexivity.
  - intros; exact I.
  - intros e h _. rewrite Permutation_app_comm. reflexivity.
  - intros h _. destruct h; simpl; split; congruence.
  - intros [|e l] _ Hne; [discriminate|]. simpl.
    pose proof (extract_min_spec e l) as H.
    destruct (ListQueue.extract_min e l) as [m rest]. apply H.
  - intros; exact I.
  - intros [|e l] _ Hne; [discriminate|]. simpl.
    pose proof (extract_min_spec e l) as H.
    destruct (ListQueue.extract_min e l) as [m rest]. apply H.
Qed.

(** ** Lists *)

Lemma nth_map_in {A B : Type} (f : A -> B) (l : list A) n (d : B) (d0 : A) :
  n < length l -> nth n (map f l) d = f (nth n l d0).
Proof.
  intros H. rewrite nth_indep with (d' := f d0) by (rewrite length_map; exact H).
  apply map_nth.
Qed.

Lemma map_nth_seq {A B : Type} (f : A -> B) (l : list A) (d : A) :
  map (fun i => f (nth i l d)) (seq 0 (length l)) = map f l.
Proof.
  induction l as [|a l IH]; [reflexivity|].
  cbn [length seq map nth]. f_equal.
  rewrite <- seq_shift, map_map. exact IH.
Qed.

Lemma StronglySorted_nth {A : Type} (R : A -> A -> Prop) (l : list A) (d : A) :
  StronglySorted R l ->
  forall i j, i < j -> j < length l -> R (nth i l d) (nth j l d).
Proof.
  induction 1 as [|a l Hs IH Ha]; intros i j Hij Hj; simpl in Hj; [lia|].
  destruct j as [|j]; [lia|]. destruct i as [|i]; simpl.
  - rewrite Forall_forall in Ha. apply Ha, nth_In. lia.
  - apply IH; lia.
Qed.

(** ** Steps 1 and 2: the local sort *)

Lemma records_length ps : length (records ps) = n_particles ps.
Proof.
  unfold records. rewrite length_map, length_seq. reflexivity.
Qed.

Lemma records_nth ps i : i < n_particles ps ->
  nth i (records ps) [] = record_of ps i.
Proof.
  intros H. unfold records. apply nth_map_seq. exact H.
Qed.

Lemma rec_r2_records ps i : i < n_particles ps ->
  rec_r2 (nth i (records ps) []) = (r2 ps).[i].
Proof.
  intros H. rewrite records_nth by exact H. reflexivity.
Qed.

Lemma StronglySorted_impl {A : Type} (R R' : A -> A -> Prop) (l : list A) :
  (forall a b, R a b -> R' a b) -> StronglySorted R l -> StronglySorted R' l.
Proof.
  intros H. induction 1 as [|a l Hs IH Ha]; constructor; [exact IH|].
  eapply Forall_impl; [|exact Ha]. intros b. apply H.
Qed.

Section LocalSort.
Context {SORT : StdSort} {SORTL : StdSortLaws SORT}.

Lemma sorted_indices_perm ps :
  Permutation (sorted_indices ps) (seq 0 (n_particles ps)).
Proof.
  apply std_sort_perm.
Qed.

Lemma sorted_indices_length ps : length (sorted_indices ps) = n_particles ps.
Proof.
  rewrite (Permutation_length (sorted_indices_perm ps)). apply length_seq.
Qed.

Lemma sorted_indices_sorted ps :
  StronglySorted (fun a b => ((r2 ps).[a] <= (r2 ps).[b])%Q) (sorted_indices ps).
Proof.
  unfold sorted_indices.
  eapply StronglySorted_impl; [|apply std_sort_sorted].
  - intros a b H. apply dlt_false in H. exact H.
  - intros a b c H1 H2. apply dlt_false in H1, H2. apply dlt_false.
    apply Qle_trans with (r2 ps).[b]; assumption.
  - intros a b H1. apply dlt_true in H1. apply dlt_false.
    apply Qlt_le_weak, H1.
Qed.
End LocalSort.

Section LocalSortResult.
Context {SORT : StdSort} {SORTL : StdSortLaws SORT}.

Lemma local_sort_n ps : n_particles (local_sort ps) = n_particles ps.
Proof.
  reflexivity.
Qed.

Lemma at_reorder indices n arr i :
  i < n -> (reorder indices n arr).[i] = arr.[nth i indices 0].
Proof.
  intros H. unfold reorder.
  destruct (Nat.eqb_spec n 0) as [-> | _]; [lia|].
  apply (at_map_seq (fun i => arr.[nth i indices 0])). exact H.
Qed.

Lemma local_sort_record ps i : i < n_particles ps ->
  record_of (local_sort ps) i =
  record_of (computeSquareRadius ps)
            (nth i (sorted_indices (computeSquareRadius ps)) 0).
Proof.
  intros H. unfold record_of, local_sort. cbn [x y z vx vy vz q Er r2].
  rewrite !at_reorder by exact H. reflexivity.
Qed.

Lemma local_sort_records ps :
  records (local_sort ps) =
  map (record_of (computeSquareRadius ps))
      (sorted_indices (computeSquareRadius ps)).
Proof.
  unfold records. rewrite local_sort_n.
  rewrite <- (map_nth_seq (record_of (computeSquareRadius ps)) _ 0).
  rewrite sorted_indices_length.
  change (n_particles (computeSquareRadius ps)) with (n_particles ps).
  apply map_ext_in.
  intros i Hi. apply in_seq in Hi. apply local_sort_record. lia.
Qed.

Lemma local_sort_perm ps :
  Permutation (records (local_sort ps)) (records (computeSquareRadius ps)).
Proof.
  rewrite local_sort_records. unfold records.
  apply Permutation_map, sorted_indices_perm.
Qed.

Lemma local_sort_r2 ps i : i < n_particles ps ->
  (r2 (local_sort ps)).[i] =
  (r2 (computeSquareRadius ps)).[nth i (sorted_indices (computeSquareRadius ps)) 0].
Proof.
  intros H. unfold local_sort. cbn [r2]. apply at_reorder. exact H.
Qed.

Lemma local_sort_I1 ps : I1 (local_sort ps).
Proof.
  intros i Hi. rewrite local_sort_n in Hi.
  rewrite !local_sort_r2 by lia.
  set (ps0 := computeSquareRadius ps).
  apply (StronglySorted_nth 0 (sorted_indices_sorted ps0)); [lia|].
  rewrite sorted_indices_length. exact Hi.
Qed.
End LocalSortResult.

(** ** Vectors written cell by cell *)

Lemma upd_length {A : Type} i (a : A) v : length (upd i a v) = length v.
Proof.
  revert i. induction v as [|b v IH]; intros [|i]; simpl; auto.
Qed.

Lemma nth_upd_eq {A : Type} i (a d : A) v :
  i < length v -> nth i (upd i a v) d = a.
Proof.
  revert i. induction v as [|b v IH]; intros [|i] H; simpl in *; try lia; auto.
  apply IH. lia.
Qed.

Lemma nth_upd_neq {A : Type} i j (a d : A) v :
  i <> j -> nth j (upd i a v) d = nth j v d.
Proof.
  revert i j. induction v as [|b v IH]; intros [|i] [|j] H; simpl; auto; try lia.
Qed.

Lemma fold_pair {A B C : Type} (f : A -> C -> A) (g : B -> C -> B) l a b :
  fold_left (fun '(a, b) c => (f a c, g b c)) l (a, b) =
  (fold_left f l a, fold_left g l b).
Proof.
  revert a b. induction l as [|c l IH]; intros a b; simpl; [reflexivity|].
  apply IH.
Qed.

(** A loop [for i in idx: v[key i] = g i v[key i]], read at cell [k]. *)
Lemma fold_upd_length {A : Type} (key : nat -> nat) (g : nat -> A -> A) (d : A)
    idx : forall init,
  length (fold_left (fun acc i => upd (key i) (g i (nth (key i) acc d)) acc)
                    idx init) = length init.
Proof.
  induction idx as [|i idx IH]; intros init; simpl; [reflexivity|].
  rewrite IH. apply upd_length.
Qed.

Lemma fold_upd_nth {A : Type} (key : nat -> nat) (g : nat -> A -> A) (d : A)
    idx k : forall init, k < length init ->
  nth k (fold_left (fun acc i => upd (key i) (g i (nth (key i) acc d)) acc)
                   idx init) d =
  fold_left (fun a i => if key i =? k then g i a else a) idx (nth k init d).
Proof.
  induction idx as [|i idx IH]; intros init Hk; simpl; [reflexivity|].
  rewrite IH by (rewrite upd_length; exact Hk).
  f_equal. destruct (Nat.eqb_spec (key i) k) as [-> | Hne].
  - apply nth_upd_eq. exact Hk.
  - apply nth_upd_neq. exact Hne.
Qed.

Lemma fold_collect (t : nat -> bool) idx : forall acc,
  fold_left (fun a i => if t i then a ++ [i] else a) idx acc = acc ++ filter t idx.
Proof.
  induction idx as [|i idx IH]; intros acc; simpl.
  - symmetry. apply app_nil_r.
  - rewrite IH. destruct (t i); [|reflexivity].
    rewrite <- app_assoc. reflexivity.
Qed.

Lemma fold_count (t : nat -> bool) idx : forall acc,
  fold_left (fun a i => if t i then S a else a) idx acc =
  acc + length (filter t idx).
Proof.
  induction idx as [|i idx IH]; intros acc; simpl; [lia|].
  rewrite IH. destruct (t i); simpl; lia.
Qed.

(** ** Step 4: the partition *)

Lemma partition_send_counts size splitters ps :
  send_counts_of size splitters ps =
  fold_left (fun send_counts i =>
               let dest := lower_bound splitters (r2 ps).[i] in
               upd dest (S (nth dest send_counts 0)) send_counts)
            (seq 0 (n_particles ps)) (repeat 0 size).
Proof.
  unfold send_counts_of, partition.
  rewrite (fold_pair
    (fun send_counts i => upd (lower_bound splitters (r2 ps).[i])
        (S (nth (lower_bound splitters (r2 ps).[i]) send_counts 0)) send_counts)
    (fun buckets i => upd (lower_bound splitters (r2 ps).[i])
        (nth (lower_bound splitters (r2 ps).[i]) buckets [] ++ [i]) buckets)).
  reflexivity.
Qed.

Lemma partition_buckets size splitters ps :
  snd (partition size splitters ps) =
  fold_left (fun buckets i =>
               let dest := lower_bound splitters (r2 ps).[i] in
               upd dest (nth dest buckets [] ++ [i]) buckets)
            (seq 0 (n_particles ps)) (repeat [] size).
Proof.
  unfold partition.
  rewrite (fold_pair
    (fun send_counts i => upd (lower_bound splitters (r2 ps).[i])
        (S (nth (lower_bound splitters (r2 ps).[i]) send_counts 0)) send_counts)
    (fun buckets i => upd (lower_bound splitters (r2 ps).[i])
        (nth (lower_bound splitters (r2 ps).[i]) buckets [] ++ [i]) buckets)).
  reflexivity.
Qed.

Lemma send_counts_length size splitters ps :
  length (send_counts_of size splitters ps) = size.
Proof.
  rewrite partition_send_counts.
  rewrite (fold_upd_length (fun i => lower_bound splitters (r2 ps).[i])
             (fun _ c => S c) 0).
  apply repeat_length.
Qed.

Lemma send_counts_nth size splitters ps d : d < size ->
  nth d (send_counts_of size splitters ps) 0 = length (bucket splitters ps d).
Proof.
  intros Hd. rewrite partition_send_counts.
  rewrite (fold_upd_nth (fun i => lower_bound splitters (r2 ps).[i])
             (fun _ c => S c) 0) by (rewrite repeat_length; exact Hd).
  rewrite nth_repeat.
  rewrite (fold_count (fun i => lower_bound splitters (r2 ps).[i] =? d)).
  reflexivity.
Qed.

Lemma buckets_length size splitters ps :
  length (snd (partition size splitters ps)) = size.
Proof.
  rewrite partition_buckets.
  rewrite (fold_upd_length (fun i => lower_bound splitters (r2 ps).[i])
             (fun i b => b ++ [i]) []).
  apply repeat_length.
Qed.

Lemma buckets_nth size splitters ps d : d < size ->
  nth d (snd (partition size splitters ps)) [] = bucket splitters ps d.
Proof.
  intros Hd. rewrite partition_buckets.
  rewrite (fold_upd_nth (fun i => lower_bound splitters (r2 ps).[i])
             (fun i b => b ++ [i]) []) by (rewrite repeat_length; exact Hd).
  rewrite nth_repeat.
  rewrite (fold_collect (fun i => lower_bound splitters (r2 ps).[i] =? d)).
  reflexivity.
Qed.

(** ** Steps 5 to 8: displacements, packing, the exchange, unpacking *)

Lemma displacements_length counts : forall from,
  length (displacements from counts) = length counts.
Proof.
  induction counts as [|c counts IH]; intros from; simpl; [|rewrite IH]; reflexivity.
Qed.

Lemma displacements_nth counts : forall from r, r < length counts ->
  nth r (displacements from counts) 0 = from + list_sum (firstn r counts).
Proof.
  induction counts as [|c counts IH]; intros from r Hr; simpl in Hr; [lia|].
  destruct r as [|r]; simpl; [lia|].
  rewrite IH by lia. lia.
Qed.

Lemma list_sum_split counts k :
  list_sum counts = list_sum (firstn k counts) + list_sum (skipn k counts).
Proof.
  rewrite <- list_sum_app, firstn_skipn. reflexivity.
Qed.

Lemma skipn_last counts : 0 < length counts ->
  skipn (length counts - 1) counts = [nth (length counts - 1) counts 0].
Proof.
  induction counts as [|c counts IH]; intros H; [simpl in H; lia|].
  destruct counts as [|c' counts]; [reflexivity|].
  replace (length (c :: c' :: counts) - 1) with (S (length (c' :: counts) - 1))
    by (simpl; lia).
  cbn [skipn nth]. apply IH. simpl. lia.
Qed.

Lemma total_by_displacements counts : 0 < length counts ->
  nth (length counts - 1) (displacements 0 counts) 0
  + nth (length counts - 1) counts 0 = list_sum counts.
Proof.
  intros H. rewrite displacements_nth by lia.
  rewrite (list_sum_split counts (length counts - 1)), skipn_last by exact H.
  simpl. lia.
Qed.

Lemma scale_nth l r : nth r (scale l) 0 = nth r l 0 * num_fields.
Proof.
  unfold scale.
  change 0 with ((fun c => c * num_fields) 0) at 1.
  apply map_nth.
Qed.

Lemma concat_fixed_length {A : Type} (m : nat) (recs : list (list A)) :
  Forall (fun rec => length rec = m) recs ->
  length (concat recs) = length recs * m.
Proof.
  induction 1 as [|rec recs Hrec _ IH]; simpl; [reflexivity|].
  rewrite length_app, IH, Hrec. reflexivity.
Qed.

Lemma nth_concat_fixed {A : Type} (m : nat) (d : A) (recs : list (list A)) :
  Forall (fun rec => length rec = m) recs ->
  forall i k, i < length recs -> k < m ->
  nth (i * m + k) (concat recs) d = nth k (nth i recs []) d.
Proof.
  induction 1 as [|rec recs Hrec _ IH]; intros i k Hi Hk; simpl in Hi; [lia|].
  destruct i as [|i]; simpl.
  - apply app_nth1. lia.
  - rewrite app_nth2 by lia.
    replace (m + i * m + k - length rec) with (i * m + k) by lia.
    apply IH; lia.
Qed.

Lemma slice_concat {A : Type} (slice' : nat -> nat -> list A -> list A)
    (ls : list (list A)) : forall r,
  (forall d c l, slice' d c l = firstn c (skipn d l)) ->
  r < length ls ->
  slice' (list_sum (map (@length A) (firstn r ls))) (length (nth r ls []))
         (concat ls) = nth r ls [].
Proof.
  intros r Hs. rewrite Hs. clear Hs. revert r.
  induction ls as [|l ls IH]; intros r Hr; simpl in Hr; [lia|].
  destruct r as [|r]; simpl.
  - rewrite firstn_app, Nat.sub_diag, firstn_all. simpl. apply app_nil_r.
  - rewrite skipn_app.
    rewrite skipn_all2 by lia.
    replace (length l + list_sum (map (@length A) (firstn r ls)) - length l)
      with (list_sum (map (@length A) (firstn r ls))) by lia.
    simpl. apply IH. lia.
Qed.

Lemma concat_flat_map {A B : Type} (f : A -> list (list B)) (l : list A) :
  concat (map (fun a => concat (f a)) l) = concat (flat_map f l).
Proof.
  induction l as [|a l IH]; simpl; [reflexivity|].
  rewrite concat_app, IH. reflexivity.
Qed.

Lemma blit_prefix (data buf0 prefix : list double) :
  blit (length prefix) data (prefix ++ skipn (length prefix) buf0) =
  (prefix ++ data) ++ skipn (length (prefix ++ data)) buf0.
Proof.
  unfold blit.
  rewrite firstn_app, Nat.sub_diag, firstn_all. simpl. rewrite app_nil_r.
  rewrite <- app_assoc. f_equal. f_equal.
  rewrite skipn_app, skipn_all2 by lia.
  replace (length prefix + length data - length prefix) with (length data) by lia.
  simpl. rewrite skipn_skipn, length_app. f_equal. lia.
Qed.

Lemma blit_all (off : nat -> nat) (data : nat -> list double) buf0 k :
  (forall s, s < k -> off s = length (concat (map data (seq 0 s)))) ->
  fold_left (fun buf s => blit (off s) (data s) buf) (seq 0 k) buf0 =
  concat (map data (seq 0 k))
  ++ skipn (length (concat (map data (seq 0 k)))) buf0.
Proof.
  induction k as [|k IH]; intros Hoff.
  - reflexivity.
  - rewrite seq_S, fold_left_app, IH by (intros s Hs; apply Hoff; lia).
    cbn [fold_left Nat.add]. rewrite (Hoff k) by lia.
    rewrite blit_prefix. rewrite map_app, concat_app. simpl.
    rewrite app_nil_r. reflexivity.
Qed.

Lemma fold_left_ext_in {A B : Type} (f g : A -> B -> A) (l : list B) :
  (forall a b, In b l -> f a b = g a b) ->
  forall a, fold_left f l a = fold_left g l a.
Proof.
  induction l as [|b l IH]; intros H a; simpl; [reflexivity|].
  rewrite (H a b) by (left; reflexivity).
  apply IH. intros a' b' Hb'. apply H. right; exact Hb'.
Qed.

Lemma list_sum_scaled {A : Type} (g : A -> nat) (m : nat) (l : list A) :
  list_sum (map (fun a => g a * m) l) = list_sum (map g l) * m.
Proof.
  induction l as [|a l IH]; simpl; [reflexivity|]. rewrite IH. lia.
Qed.

Lemma length_flat_map_sum {A B : Type} (f : A -> list B) (l : list A) :
  length (flat_map f l) = list_sum (map (fun a => length (f a)) l).
Proof.
  induction l as [|a l IH]; simpl; [reflexivity|].
  rewrite length_app, IH. reflexivity.
Qed.

Lemma firstn_seq_le r : forall start n, r <= n ->
  firstn r (seq start n) = seq start r.
Proof.
  induction r as [|r IH]; intros start n H; [reflexivity|].
  destruct n as [|n]; [lia|]. simpl. f_equal. apply IH. lia.
Qed.

Lemma firstn_map_seq {A : Type} (f : nat -> A) n r : r <= n ->
  firstn r (map f (seq 0 n)) = map f (seq 0 r).
Proof.
  intros H. rewrite firstn_map, firstn_seq_le by exact H. reflexivity.
Qed.

Lemma chunk_length splitters ps d :
  length (chunk splitters ps d) = length (bucket splitters ps d).
Proof.
  apply length_map.
Qed.

Lemma chunk_records splitters ps d :
  Forall (fun rec => length rec = num_fields) (chunk splitters ps d).
Proof.
  unfold chunk. rewrite Forall_map, Forall_forall. reflexivity.
Qed.

Lemma received_records splitters sorted r :
  Forall (fun rec => length rec = num_fields) (received splitters sorted r).
Proof.
  unfold received. rewrite Forall_flat_map, Forall_forall.
  intros ps _. apply chunk_records.
Qed.

Lemma chunk_data_length splitters ps d :
  length (concat (chunk splitters ps d))
  = length (bucket splitters ps d) * num_fields.
Proof.
  rewrite (concat_fixed_length (chunk_records splitters ps d)), chunk_length.
  reflexivity.
Qed.

Lemma send_counts_eq size splitters ps :
  send_counts_of size splitters ps =
  map (fun d => length (bucket splitters ps d)) (seq 0 size).
Proof.
  apply nth_ext with (d := 0) (d' := 0).
  - rewrite send_counts_length, length_map, length_seq. reflexivity.
  - intros d Hd. rewrite send_counts_length in Hd.
    rewrite send_counts_nth by exact Hd.
    symmetry. apply (nth_map_seq (fun d => length (bucket splitters ps d))).
    exact Hd.
Qed.

Lemma buckets_eq size splitters ps :
  snd (partition size splitters ps) = map (bucket splitters ps) (seq 0 size).
Proof.
  apply nth_ext with (d := []) (d' := []).
  - rewrite buckets_length, length_map, length_seq. reflexivity.
  - intros d Hd. rewrite buckets_length in Hd.
    rewrite buckets_nth by exact Hd.
    symmetry. apply nth_map_seq. exact Hd.
Qed.

Lemma send_args_eq size splitters ps :
  send_args_of size splitters ps =
  {| send_buf := pack ps (snd (partition size splitters ps));
     send_counts_packed := scale (send_counts_of size splitters ps);
     send_displs_packed :=
       scale (displacements 0 (send_counts_of size splitters ps)) |}.
Proof.
  unfold send_args_of, send_counts_of.
  destruct (partition size splitters ps). reflexivity.
Qed.

Lemma send_buf_eq size splitters ps :
  send_buf (send_args_of size splitters ps) =
  concat (map (fun d => concat (chunk splitters ps d)) (seq 0 size)).
Proof.
  rewrite send_args_eq. cbn [send_buf]. unfold pack.
  rewrite buckets_eq, flat_map_concat_map, map_map. f_equal.
  apply map_ext. intros d. unfold chunk. apply flat_map_concat_map.
Qed.

(** What rank [r] is sent by a rank whose shell is [ps]. *)
Lemma send_slice size splitters ps r : r < size ->
  let a := send_args_of size splitters ps in
  slice (nth r (send_displs_packed a) 0) (nth r (send_counts_packed a) 0)
        (send_buf a) = concat (chunk splitters ps r).
Proof.
  intros Hr a. unfold a. rewrite send_buf_eq, send_args_eq.
  cbn [send_displs_packed send_counts_packed].
  rewrite !scale_nth, displacements_nth
    by (rewrite send_counts_length; exact Hr).
  rewrite send_counts_eq. cbn [Nat.add].
  set (ls := map (fun d => concat (chunk splitters ps d)) (seq 0 size)).
  assert (Hn : nth r ls [] = concat (chunk splitters ps r)).
  { unfold ls. apply (nth_map_seq (fun d => concat (chunk splitters ps d))).
    exact Hr. }
  rewrite <- Hn.
  rewrite (nth_map_seq (fun d => length (bucket splitters ps d))) by exact Hr.
  replace (length (bucket splitters ps r) * num_fields)
    with (length (nth r ls [])) by (rewrite Hn; apply chunk_data_length).
  replace (list_sum (firstn r (map (fun d => length (bucket splitters ps d))
                                   (seq 0 size))) * num_fields)
    with (list_sum (map (@length double) (firstn r ls))).
  - apply slice_concat; [reflexivity|].
    unfold ls. rewrite length_map, length_seq. exact Hr.
  - unfold ls. rewrite !firstn_map_seq by lia.
    rewrite map_map, <- list_sum_scaled. f_equal.
    apply map_ext. intros d. apply chunk_data_length.
Qed.

Lemma recv_counts_eq splitters sorted r : r < length sorted ->
  MPI_Alltoall (map (send_counts_of (length sorted) splitters) sorted) r =
  map (fun ps => length (chunk splitters ps r)) sorted.
Proof.
  intros Hr. unfold MPI_Alltoall. rewrite map_map. apply map_ext.
  intros ps. rewrite send_counts_nth by exact Hr. symmetry. apply chunk_length.
Qed.

Lemma received_length splitters sorted r :
  length (received splitters sorted r) =
  list_sum (map (fun ps => length (chunk splitters ps r)) sorted).
Proof.
  apply length_flat_map_sum.
Qed.

Lemma total_recv_eq splitters sorted r : r < length sorted ->
  let recv_counts :=
    MPI_Alltoall (map (send_counts_of (length sorted) splitters) sorted) r in
  (if 0 <? length sorted
   then nth (length sorted - 1) (displacements 0 recv_counts) 0
        + nth (length sorted - 1) recv_counts 0
   else 0) = length (received splitters sorted r).
Proof.
  intros Hr recv_counts. unfold recv_counts. rewrite recv_counts_eq by exact Hr.
  destruct (Nat.ltb_spec 0 (length sorted)) as [H | H]; [|lia].
  rewrite received_length.
  rewrite <- (length_map (fun ps => length (chunk splitters ps r)) sorted) at 1 2.
  apply total_by_displacements. rewrite length_map. exact H.
Qed.

Lemma received_data_prefix splitters sorted r s : s <= length sorted ->
  length (concat (map (fun s => concat (chunk splitters (shell sorted s) r))
                      (seq 0 s)))
  = list_sum (firstn s (map (fun ps => length (chunk splitters ps r)) sorted))
    * num_fields.
Proof.
  intros Hs. rewrite (firstn_map_nth _ _ no_shell) by exact Hs.
  rewrite <- list_sum_scaled.
  induction s as [|s IH]; [reflexivity|].
  rewrite seq_S, !map_app, concat_app, length_app, list_sum_app.
  rewrite IH by lia. simpl. rewrite app_nil_r, chunk_data_length, chunk_length.
  unfold shell. lia.
Qed.

Lemma recv_buf_eq splitters sorted r : r < length sorted ->
  let size := length sorted in
  let recv_counts :=
    MPI_Alltoall (map (send_counts_of size splitters) sorted) r in
  MPI_Alltoallv (map (send_args_of size splitters) sorted) r
    (repeat 0%Q (length (received splitters sorted r) * num_fields))
    (scale (displacements 0 recv_counts))
  = concat (received splitters sorted r).
Proof.
  intros Hr size recv_counts. unfold MPI_Alltoallv, recv_counts, size.
  rewrite recv_counts_eq by exact Hr. rewrite length_map.
  rewrite (fold_left_ext_in _
    (fun buf s =>
       blit (list_sum (firstn s (map (fun ps => length (chunk splitters ps r))
                                     sorted)) * num_fields)
            (concat (chunk splitters (shell sorted s) r)) buf)).
  - rewrite (blit_all
      (fun s => list_sum (firstn s (map (fun ps => length (chunk splitters ps r))
                                        sorted)) * num_fields)
      (fun s => concat (chunk splitters (shell sorted s) r))).
    + rewrite skipn_all2.
      * rewrite app_nil_r. unfold shell.
        rewrite (map_nth_seq (fun ps => concat (chunk splitters ps r))
                             sorted no_shell).
        apply (concat_flat_map (fun ps => chunk splitters ps r)).
      * rewrite repeat_length, received_data_prefix by lia.
        rewrite firstn_all2 by (rewrite length_map; lia).
        rewrite received_length. lia.
    + intros s Hs. symmetry. apply received_data_prefix. lia.
  - intros buf s Hs. apply in_seq in Hs.
    rewrite scale_nth, displacements_nth by (rewrite length_map; lia).
    cbn [Nat.add]. f_equal.
    rewrite nth_indep with (d' := send_args_of (length sorted) splitters no_shell)
      by (rewrite length_map; lia).
    rewrite map_nth. apply send_slice. exact Hr.
Qed.

Lemma unpack_eq field recs : field < num_fields ->
  Forall (fun rec => length rec = num_fields) recs ->
  unpack field (length recs) (concat recs) =
  map (fun rec => nth field rec 0%Q) recs.
Proof.
  intros Hf Hrecs. unfold unpack.
  rewrite <- (map_nth_seq (fun rec => nth field rec 0%Q) recs []).
  apply map_ext_in. intros i Hi. apply in_seq in Hi.
  unfold at_. apply nth_concat_fixed; [exact Hrecs | lia | exact Hf].
Qed.

(** ** Step 9: the k-way merge *)

Lemma flat_map_seq_shift {A : Type} (f : nat -> list A) n :
  flat_map f (seq 1 n) = flat_map (fun c => f (S c)) (seq 0 n).
Proof.
  rewrite <- seq_shift, !flat_map_concat_map, map_map. reflexivity.
Qed.

Lemma chunks_tile counts : forall from,
  flat_map (fun c => seq (nth c (displacements from counts) 0) (nth c counts 0))
           (seq 0 (length counts))
  = seq from (list_sum counts).
Proof.
  induction counts as [|n counts IH]; intros from; [reflexivity|].
  cbn [length seq flat_map displacements list_sum nth].
  rewrite flat_map_seq_shift. cbn [nth].
  rewrite IH, <- seq_app. reflexivity.
Qed.

Lemma list_sum_le {A : Type} (f g : A -> nat) (l : list A) :
  (forall a, In a l -> f a <= g a) ->
  list_sum (map f l) <= list_sum (map g l).
Proof.
  induction l as [|a l IH]; intros H; simpl; [lia|].
  specialize (H a (or_introl eq_refl)) as Ha.
  specialize (IH (fun b Hb => H b (or_intror Hb))). lia.
Qed.

Lemma flat_map_grow {A : Type} (f f' : nat -> list A) (c : nat) (a : A) l :
  NoDup l -> In c l ->
  f' c = f c ++ [a] ->
  (forall c', c' <> c -> f' c' = f c') ->
  Permutation (flat_map f' l) (a :: flat_map f l).
Proof.
  intros Hnd Hin Hc Hother. induction l as [|b l IH]; [destruct Hin|].
  inversion Hnd as [|? ? Hb Hnd']; subst. simpl.
  destruct (Nat.eq_dec b c) as [-> | Hne].
  - rewrite Hc.
    assert (Hl : flat_map f' l = flat_map f l).
    { rewrite !flat_map_concat_map. f_equal. apply map_ext_in.
      intros c' Hc'. apply Hother. intros ->. contradiction. }
    rewrite Hl, <- app_assoc. simpl.
    symmetry. apply Permutation_middle.
  - destruct Hin as [-> | Hin]; [contradiction|].
    rewrite Hother by exact Hne.
    rewrite (IH Hnd' Hin). symmetry. apply Permutation_middle.
Qed.

Lemma handed_out_upd recv_counts chunk_pos c :
  c < length recv_counts -> length chunk_pos = length recv_counts ->
  chunk_start recv_counts c <= nth c chunk_pos 0 ->
  Permutation
    (handed_out recv_counts (upd c (S (nth c chunk_pos 0)) chunk_pos))
    (nth c chunk_pos 0 :: handed_out recv_counts chunk_pos).
Proof.
  intros Hc Hlen Hle. unfold handed_out.
  apply flat_map_grow with (c := c).
  - apply seq_NoDup.
  - apply in_seq. lia.
  - rewrite nth_upd_eq by lia.
    replace (S (nth c chunk_pos 0) - chunk_start recv_counts c)
      with (S (nth c chunk_pos 0 - chunk_start recv_counts c)) by lia.
    rewrite seq_S. do 2 f_equal. lia.
  - intros c' Hne. rewrite nth_upd_neq by congruence. reflexivity.
Qed.

Lemma handed_out_length recv_counts chunk_pos :
  (forall c, c < length recv_counts ->
     chunk_start recv_counts c <= nth c chunk_pos 0 <= chunk_stop recv_counts c) ->
  length (handed_out recv_counts chunk_pos) <= list_sum recv_counts.
Proof.
  intros H. unfold handed_out. rewrite length_flat_map_sum.
  rewrite <- (map_id recv_counts) at 2.
  rewrite <- (map_nth_seq (fun n => n) recv_counts 0).
  apply list_sum_le. intros c Hc. apply in_seq in Hc.
  rewrite length_seq. specialize (H c). unfold chunk_stop in H. lia.
Qed.

Lemma handed_out_all recv_counts chunk_pos :
  (forall c, c < length recv_counts ->
     nth c chunk_pos 0 = chunk_stop recv_counts c) ->
  handed_out recv_counts chunk_pos = seq 0 (list_sum recv_counts).
Proof.
  intros H. rewrite <- chunks_tile. unfold handed_out.
  rewrite !flat_map_concat_map. f_equal. apply map_ext_in.
  intros c Hc. apply in_seq in Hc. rewrite H by lia.
  unfold chunk_stop, chunk_start. f_equal. lia.
Qed.

Lemma handed_out_none recv_counts :
  handed_out recv_counts (displacements 0 recv_counts) = [].
Proof.
  unfold handed_out, chunk_start.
  induction (seq 0 (length recv_counts)) as [|c l IH]; [reflexivity|].
  simpl. rewrite Nat.sub_diag, IH. reflexivity.
Qed.

Lemma StronglySorted_snoc {A : Type} (R : A -> A -> Prop) (l : list A) (a : A) :
  StronglySorted R l -> Forall (fun b => R b a) l -> StronglySorted R (l ++ [a]).
Proof.
  induction 1 as [|b l Hs IH Hb]; intros Ha; simpl.
  - repeat constructor.
  - inversion Ha as [|? ? Hba Ha']; subst.
    constructor; [apply IH; exact Ha'|].
    apply Forall_app. split; [exact Hb | constructor; [exact Hba | constructor]].
Qed.

Section Merge.
Context {PQ : StdPriorityQueue} {PQL : StdPriorityQueueLaws PQ}.
Variables (recv_counts : list nat) (recv_r2 : list double).
Hypothesis Hsorted : chunks_sorted recv_counts recv_r2.

Lemma well_placed_mono chunk_pos c v e :
  nth c chunk_pos 0 <= v ->
  well_placed recv_counts recv_r2 chunk_pos e ->
  well_placed recv_counts recv_r2 (upd c v chunk_pos) e.
Proof.
  unfold well_placed. cbv zeta.
  intros Hv (H1 & H2 & H3 & H4). repeat split; try assumption.
  destruct (Nat.eq_dec c (MergeElement.chunk_id e)) as [Heq | Hne].
  - rewrite <- Heq in *.
    destruct (Nat.lt_ge_cases c (length chunk_pos)) as [Hc | Hc].
    + rewrite nth_upd_eq by exact Hc. lia.
    + rewrite nth_overflow in H3 by exact Hc. lia.
  - rewrite nth_upd_neq by exact Hne. exact H3.
Qed.

Lemma merge_inv_weaken (P P' : nat -> Prop) h chunk_pos merge_order :
  merge_inv recv_counts recv_r2 P h chunk_pos merge_order ->
  (forall c, c < length recv_counts -> P' c ->
     nth c chunk_pos 0 < chunk_stop recv_counts c -> P c) ->
  merge_inv recv_counts recv_r2 P' h chunk_pos merge_order.
Proof.
  intros [] H. split; try assumption.
  intros c Hc HP Hlt. apply inv_front0; try assumption. apply H; assumption.
Qed.

(** [top = pq.top(); pq.pop(); merge_order[out_idx++] = top.source_idx;] *)
Lemma merge_inv_pop (P : nat -> Prop) h chunk_pos merge_order :
  merge_inv recv_counts recv_r2 P h chunk_pos merge_order ->
  pq_empty h = false ->
  let top := pq_top h in
  merge_inv recv_counts recv_r2
    (fun c => P c /\ c <> MergeElement.chunk_id top)
    (pq_pop h) chunk_pos (merge_order ++ [MergeElement.source_idx top]) /\
  well_placed recv_counts recv_r2 chunk_pos top /\
  Forall (fun s => (recv_r2.[s] <= recv_r2.[MergeElement.source_idx top])%Q)
         (merge_order ++ [MergeElement.source_idx top]).
Proof.
  intros [] Hne top.
  pose proof (pq_pop_elems h inv_ok0 Hne) as Hperm. fold top in Hperm.
  pose proof (pq_top_min h inv_ok0 Hne) as Hmin. fold top in Hmin.
  assert (Htop : In top (pq_elems h)).
  { apply Permutation_in with (top :: pq_elems (pq_pop h));
      [symmetry; exact Hperm | left; reflexivity]. }
  assert (Hsub : forall e, In e (pq_elems (pq_pop h)) -> In e (pq_elems h)).
  { intros e He. apply Permutation_in with (top :: pq_elems (pq_pop h));
      [symmetry; exact Hperm | right; exact He]. }
  rewrite Forall_forall in inv_heap0, Hmin.
  pose proof (inv_heap0 top Htop) as Hwp.
  assert (Hlow : Forall (fun s => (recv_r2.[s]
                   <= recv_r2.[MergeElement.source_idx top])%Q)
                   (merge_order ++ [MergeElement.source_idx top])).
  { apply Forall_app. split.
    - rewrite Forall_forall. intros s Hs.
      destruct Hwp as (_ & _ & _ & <-). apply inv_low0; assumption.
    - constructor; [apply Qle_refl | constructor]. }
  split; [|split; assumption].
  split.
  - apply pq_pop_ok; assumption.
  - assumption.
  - assumption.
  - rewrite Forall_forall. intros e He. apply inv_heap0, Hsub, He.
  - intros c Hc [HP Hcne] Hlt.
    specialize (inv_front0 c Hc HP Hlt).
    apply (Permutation_in _ (Permutation_map MergeElement.chunk_id Hperm))
      in inv_front0.
    destruct inv_front0 as [Heq | Hin]; [congruence | exact Hin].
  - rewrite <- inv_perm0, <- app_assoc. apply Permutation_app_head.
    rewrite (Permutation_map MergeElement.source_idx Hperm). reflexivity.
  - apply StronglySorted_snoc; [exact inv_sorted0|].
    apply Forall_app in Hlow. apply Hlow.
  - intros s e Hs He. apply in_app_or in Hs. destruct Hs as [Hs | [<- | []]].
    + apply inv_low0; [exact Hs | apply Hsub, He].
    + destruct Hwp as (_ & _ & _ & <-).
      apply gt_false, Hmin, Hsub, He.
Qed.

(** [pq.push(element chunk_pos[c] of chunk c); chunk_pos[c]++;] *)
Lemma merge_inv_push (P : nat -> Prop) h chunk_pos merge_order c :
  merge_inv recv_counts recv_r2 P h chunk_pos merge_order ->
  c < length recv_counts ->
  nth c chunk_pos 0 < chunk_stop recv_counts c ->
  Forall (fun s => (recv_r2.[s] <= recv_r2.[nth c chunk_pos 0%nat])%Q)
         merge_order ->
  merge_inv recv_counts recv_r2 (fun c' => P c' \/ c' = c)
    (pq_push (element_at recv_r2 (nth c chunk_pos 0) c) h)
    (upd c (S (nth c chunk_pos 0)) chunk_pos) merge_order.
Proof.
  intros [] Hc Hlt Hlow.
  set (e := element_at recv_r2 (nth c chunk_pos 0) c).
  pose proof (pq_push_elems e h inv_ok0) as Hperm.
  pose proof (inv_range0 c Hc) as Hrange.
  split.
  - apply pq_push_ok; assumption.
  - rewrite upd_length. assumption.
  - intros c' Hc'. destruct (Nat.eq_dec c c') as [<- | Hne].
    + rewrite nth_upd_eq by lia. lia.
    + rewrite nth_upd_neq by exact Hne. apply inv_range0, Hc'.
  - rewrite Forall_forall in *. intros e' He'.
    apply (Permutation_in _ Hperm) in He'. destruct He' as [<- | He'].
    + unfold well_placed, e, element_at.
      cbn [MergeElement.chunk_id MergeElement.source_idx MergeElement.r2].
      rewrite nth_upd_eq by lia.
      repeat split; try lia.
    + apply well_placed_mono; [lia | apply inv_heap0, He'].
  - intros c' Hc' HP Hlt'.
    apply (Permutation_in (l := map MergeElement.chunk_id (e :: pq_elems h)));
      [symmetry; apply Permutation_map, Hperm|].
    destruct (Nat.eq_dec c c') as [<- | Hne]; [left; reflexivity|].
    right. rewrite nth_upd_neq in Hlt' by exact Hne.
    apply inv_front0; try assumption.
    destruct HP as [HP | ->]; [exact HP | congruence].
  - rewrite (Permutation_map MergeElement.source_idx Hperm).
    rewrite handed_out_upd by (try assumption; lia).
    cbn [map]. rewrite <- Permutation_middle. cbn.
    apply perm_skip, inv_perm0.
  - assumption.
  - intros s e' Hs He'.
    apply (Permutation_in _ Hperm) in He'. destruct He' as [<- | He'].
    + rewrite Forall_forall in Hlow. apply Hlow, Hs.
    + apply inv_low0; assumption.
Qed.

Lemma merge_loop_correct : forall fuel h chunk_pos merge_order,
  merge_inv recv_counts recv_r2 (fun _ => True) h chunk_pos merge_order ->
  list_sum recv_counts <= fuel + length merge_order ->
  exists merge_order',
    merge_loop fuel recv_counts (displacements 0 recv_counts) recv_r2
               h chunk_pos merge_order = Some merge_order' /\
    Permutation merge_order' (seq 0 (list_sum recv_counts)) /\
    StronglySorted (fun s t => (recv_r2.[s] <= recv_r2.[t])%Q) merge_order'.
Proof.
  induction fuel as [|fuel IH]; intros h chunk_pos merge_order Hinv Hfuel.
  - (* no turn left: the queue is empty *)
    assert (He : pq_empty h = true).
    { destruct (pq_empty h) eqn:E; [reflexivity|]. exfalso.
      destruct (merge_inv_pop Hinv E) as [[] _].
      apply Permutation_length in inv_perm0.
      pose proof (handed_out_length recv_counts chunk_pos inv_range0) as Hl.
      rewrite !length_app in inv_perm0. simpl in *. lia. }
    simpl. rewrite He. exists merge_order.
    destruct Hinv. apply (pq_empty_elems h inv_ok0) in He.
    rewrite He in *. simpl in inv_perm0. rewrite app_nil_r in inv_perm0.
    repeat split; [|exact inv_sorted0].
    rewrite inv_perm0, handed_out_all; [reflexivity|].
    intros c Hc. specialize (inv_range0 c Hc).
    destruct (Nat.eq_dec (nth c chunk_pos 0) (chunk_stop recv_counts c));
      [assumption|].
    exfalso. apply (inv_front0 c Hc I). lia.
  - cbn [merge_loop]. destruct (pq_empty h) eqn:E.
    + exists merge_order.
      destruct Hinv. apply (pq_empty_elems h inv_ok0) in E.
      rewrite E in *. simpl in inv_perm0. rewrite app_nil_r in inv_perm0.
      repeat split; [|exact inv_sorted0].
      rewrite inv_perm0, handed_out_all; [reflexivity|].
      intros c Hc. specialize (inv_range0 c Hc).
      destruct (Nat.eq_dec (nth c chunk_pos 0) (chunk_stop recv_counts c));
        [assumption|].
      exfalso. apply (inv_front0 c Hc I). lia.
    + destruct (merge_inv_pop Hinv E) as (Hpop & Hwp & Hlow).
      set (top := pq_top h) in *.
      unfold well_placed in Hwp. cbv zeta in Hwp.
      destruct Hwp as (Hc & Hstart & Hpos & Hr2).
      set (c := MergeElement.chunk_id top) in *.
      fold (chunk_start recv_counts c). fold (chunk_stop recv_counts c).
      destruct (Nat.ltb_spec (nth c chunk_pos 0) (chunk_stop recv_counts c))
        as [Hlt | Hge].
      * apply IH.
        -- eapply merge_inv_weaken.
           ++ apply merge_inv_push; [exact Hpop | exact Hc | exact Hlt |].
              eapply Forall_impl; [|exact Hlow]. cbv beta. intros s Hs.
              apply Qle_trans with recv_r2.[MergeElement.source_idx top];
                [exact Hs|].
              apply (Hsorted Hc); [exact Hstart | lia | exact Hlt].
           ++ intros c' _ _ _. cbv beta.
              destruct (Nat.eq_dec c' c); [right | left; split]; auto.
        -- rewrite length_app. simpl. lia.
      * apply IH.
        -- eapply merge_inv_weaken; [exact Hpop|].
           intros c' _ _ Hlt'. split; [exact I|]. intros ->. lia.
        -- rewrite length_app. simpl. lia.
Qed.

Lemma merge_init_correct :
  let '(h, chunk_pos) :=
    merge_init (length recv_counts) recv_counts
               (displacements 0 recv_counts) recv_r2 in
  merge_inv recv_counts recv_r2 (fun _ => True) h chunk_pos [].
Proof.
  unfold merge_init.
  assert (H : forall k, k <= length recv_counts ->
    let '(h, chunk_pos) :=
      fold_left
        (fun '(h, chunk_pos) c =>
           if 0 <? nth c recv_counts 0 then
             (pq_push (element_at recv_r2 (nth c (displacements 0 recv_counts) 0) c) h,
              upd c (S (nth c chunk_pos 0)) chunk_pos)
           else (h, chunk_pos))
        (seq 0 k) (pq_new, displacements 0 recv_counts) in
    merge_inv recv_counts recv_r2 (fun c => c < k) h chunk_pos [] /\
    (forall c, k <= c -> nth c chunk_pos 0 = chunk_start recv_counts c)).
  { induction k as [|k IH]; intros Hk.
    - simpl. split; [|reflexivity]. split.
      + apply pq_new_ok.
      + apply displacements_length.
      + intros c Hc. unfold chunk_stop, chunk_start. lia.
      + rewrite pq_new_elems. constructor.
      + intros c _ Hc. lia.
      + rewrite pq_new_elems, handed_out_none. reflexivity.
      + constructor.
      + intros s e [].
    - rewrite seq_S, fold_left_app. cbn [fold_left Nat.add].
      specialize (IH ltac:(lia)).
      destruct (fold_left _ (seq 0 k) _) as [h chunk_pos].
      destruct IH as [Hinv Hfresh].
      destruct (Nat.ltb_spec 0 (nth k recv_counts 0)) as [Hpos | Hzero].
      + split.
        * fold (chunk_start recv_counts k). rewrite <- (Hfresh k) by lia.
          eapply merge_inv_weaken.
          -- apply merge_inv_push; [exact Hinv | lia | | constructor].
             rewrite Hfresh by lia. unfold chunk_stop. lia.
          -- intros c _ Hc _. cbv beta. lia.
        * intros c Hc. rewrite nth_upd_neq by lia. apply Hfresh. lia.
      + split.
        * eapply merge_inv_weaken; [exact Hinv|].
          intros c _ Hc Hlt. cbv beta.
          destruct (Nat.eq_dec c k) as [-> | Hne]; [|lia].
          rewrite Hfresh in Hlt by lia. unfold chunk_stop in Hlt. lia.
        * intros c Hc. apply Hfresh. lia. }
  specialize (H (length recv_counts) (Nat.le_refl _)).
  destruct (fold_left _ _ _) as [h chunk_pos].
  destruct H as [Hinv _].
  eapply merge_inv_weaken; [exact Hinv|].
  intros c Hc _ _. exact Hc.
Qed.

Lemma k_way_merge_correct :
  exists merge_order,
    k_way_merge (length recv_counts) (list_sum recv_counts) recv_counts
                (displacements 0 recv_counts) recv_r2 = Some merge_order /\
    Permutation merge_order (seq 0 (list_sum recv_counts)) /\
    StronglySorted (fun s t => (recv_r2.[s] <= recv_r2.[t])%Q) merge_order.
Proof.
  unfold k_way_merge.
  destruct (Nat.ltb_spec 0 (list_sum recv_counts)) as [Hpos | Hzero].
  - pose proof merge_init_correct as Hinit.
    destruct (merge_init _ _ _ _) as [h chunk_pos].
    apply merge_loop_correct; [exact Hinit | simpl; lia].
  - exists []. replace (list_sum recv_counts) with 0 by lia.
    repeat split; constructor.
Qed.
End Merge.

(** ** Step 3: the splitters are sorted, so [std::lower_bound] applies *)

Lemma widen_range lo hi : (double_1e_15 <= widen lo hi - lo)%Q.
Proof.
  unfold widen. destruct (dlt (hi - lo) double_1e_15) eqn:E.
  - ring_simplify (lo + 1 - lo)%Q. unfold Qle. simpl. lia.
  - apply dlt_false in E. exact E.
Qed.

Lemma bin_width_pos lo hi : (0 < bin_width_of lo (widen lo hi))%Q.
Proof.
  unfold bin_width_of. pose proof (widen_range lo hi) as H.
  apply Qlt_shift_div_l; [reflexivity|].
  ring_simplify (0 * inject_Z (Z.of_nat NUM_BINS))%Q.
  apply Qlt_le_trans with double_1e_15%Q; [reflexivity | exact H].
Qed.

Lemma bin_width_full lo hi :
  (lo + inject_Z (Z.of_nat NUM_BINS) * bin_width_of lo hi == hi)%Q.
Proof.
  unfold bin_width_of. field. discriminate.
Qed.

(** The boundary of bin [b]: [r2_min_global + b * bin_width]. *)
Lemma boundary_step (lo w : Q) (b : nat) : (0 < w)%Q ->
  (lo + inject_Z (Z.of_nat b) * w
   <= lo + inject_Z (Z.of_nat b + 1) * w)%Q.
Proof.
  intros Hw. rewrite inject_Z_plus.
  setoid_replace (lo + (inject_Z (Z.of_nat b) + inject_Z 1) * w)%Q
    with (lo + inject_Z (Z.of_nat b) * w + w)%Q by ring.
  rewrite <- (Qplus_0_r (lo + inject_Z (Z.of_nat b) * w)) at 1.
  apply Qplus_le_r. apply Qlt_le_weak, Hw.
Qed.

Lemma boundary_mono (lo w : Q) (a b : nat) : (0 < w)%Q -> a <= b ->
  (lo + inject_Z (Z.of_nat a) * w <= lo + inject_Z (Z.of_nat b) * w)%Q.
Proof.
  intros Hw Hab. apply Qplus_le_r. apply Qmult_le_compat_r.
  - rewrite <- Zle_Qle. lia.
  - apply Qlt_le_weak, Hw.
Qed.

Lemma splitter_loop_spec size (lo w : Q) global_hist target : (0 < w)%Q ->
  forall k b0 cumsum emitted,
  StronglySorted Qle emitted ->
  Forall (fun s => (lo + w <= s)%Q /\
                   (s <= lo + inject_Z (Z.of_nat b0) * w)%Q) emitted ->
  length emitted <= size - 1 ->
  let result :=
    splitter_loop size lo w global_hist target (seq b0 k) cumsum emitted in
  StronglySorted Qle result /\
  Forall (fun s => (lo + w <= s)%Q /\
                   (s <= lo + inject_Z (Z.of_nat (b0 + k)) * w)%Q) result /\
  length result <= size - 1.
Proof.
  intros Hw. induction k as [|k IH]; intros b0 cumsum emitted Hs Hb Hl.
  - simpl. rewrite Nat.add_0_r. auto.
  - cbn [seq splitter_loop]. unfold double in *.
    assert (Hrelax : forall b1, b0 <= b1 ->
      Forall (fun s => (lo + w <= s)%Q /\
                       (s <= lo + inject_Z (Z.of_nat b1) * w)%Q) emitted).
    { intros b1 Hb1. eapply Forall_impl; [|exact Hb]. cbv beta.
      intros s [H1 H2]. split; [exact H1|].
      apply Qle_trans with (lo + inject_Z (Z.of_nat b0) * w)%Q; [exact H2|].
      apply boundary_mono; assumption. }
    destruct (Nat.ltb_spec (length emitted) (size - 1)) as [Hroom | Hfull].
    + destruct (Z.leb_spec (target * (Z.of_nat (length emitted) + 1))
                           (cumsum + nth b0 global_hist 0%Z)) as [Hemit | Hskip].
      * replace (b0 + S k) with (S b0 + k) by lia. apply IH.
        -- apply StronglySorted_snoc; [exact Hs|].
           eapply Forall_impl; [|exact Hb]. cbv beta. intros s [_ H2].
           apply Qle_trans with (lo + inject_Z (Z.of_nat b0) * w)%Q;
             [exact H2 | apply boundary_step, Hw].
        -- apply Forall_app. split; [apply Hrelax; lia|].
           constructor; [|constructor]. split.
           ++ setoid_replace (lo + w)%Q
                with (lo + inject_Z (Z.of_nat 0 + 1) * w)%Q
                by (simpl; ring).
              apply Qplus_le_r, Qmult_le_compat_r;
                [rewrite <- Zle_Qle; lia | apply Qlt_le_weak, Hw].
           ++ replace (Z.of_nat b0 + 1)%Z with (Z.of_nat (S b0)) by lia.
              apply Qle_refl.
        -- rewrite length_app. simpl. lia.
      * replace (b0 + S k) with (S b0 + k) by lia. apply IH;
          [exact Hs | apply Hrelax; lia | exact Hl].
    + split; [exact Hs | split; [apply Hrelax; lia | exact Hl]].
Qed.

Lemma StronglySorted_app_Qle (l1 l2 : list Q) :
  StronglySorted Qle l1 -> StronglySorted Qle l2 ->
  (forall a b, In a l1 -> In b l2 -> (a <= b)%Q) ->
  StronglySorted Qle (l1 ++ l2).
Proof.
  induction 1 as [|a l1 Hs IH Ha]; intros H2 H; simpl; [exact H2|].
  constructor.
  - apply IH; [exact H2|]. intros b c Hb Hc. apply H; [right|]; assumption.
  - apply Forall_app. split; [exact Ha|].
    rewrite Forall_forall. intros c Hc. apply H; [left; reflexivity | exact Hc].
Qed.

Lemma StronglySorted_repeat_Qle (a : Q) n : StronglySorted Qle (repeat a n).
Proof.
  induction n as [|n IH]; simpl; constructor; [exact IH|].
  rewrite Forall_forall. intros b Hb. apply repeat_spec in Hb. subst.
  apply Qle_refl.
Qed.

(** The splitters every rank derives: [size - 1] of them, in
    non-decreasing order, none below the end of the first bin. *)
Lemma splitters_of_spec size lo hi global_hist :
  let w := bin_width_of lo (widen lo hi) in
  let splitters := splitters_of size lo (widen lo hi) global_hist in
  length splitters = size - 1 /\
  StronglySorted Qle splitters /\
  Forall (fun s => (lo + w <= s)%Q) splitters.
Proof.
  intros w splitters. unfold splitters, splitters_of. cbv zeta. fold w.
  set (target := ((_ + _ - 1) ÷ _)%Z).
  pose proof (bin_width_pos lo hi) as Hw. fold w in Hw.
  destruct (@splitter_loop_spec size lo w global_hist target Hw NUM_BINS 0 0%Z [])
    as (Hs & Hb & Hl); [constructor | constructor | simpl; lia |].
  set (emitted := splitter_loop _ _ _ _ _ _ _ _) in *.
  pose proof (bin_width_full lo (widen lo hi)) as Hfull. fold w in Hfull.
  split; [|split].
  - rewrite length_app, repeat_length. lia.
  - apply StronglySorted_app_Qle;
      [exact Hs | apply StronglySorted_repeat_Qle|].
    intros a b Ha Hb'. apply repeat_spec in Hb'. subst b.
    rewrite Forall_forall in Hb. destruct (Hb a Ha) as [_ H].
    rewrite <- Hfull. exact H.
  - apply Forall_app. split.
    + eapply Forall_impl; [|exact Hb]. cbv beta. intros s [H _]. exact H.
    + rewrite Forall_forall. intros b Hb'. apply repeat_spec in Hb'. subst b.
      rewrite <- Hfull.
      setoid_replace (lo + w)%Q with (lo + inject_Z 1 * w)%Q by ring.
      apply Qplus_le_r, Qmult_le_compat_r;
        [rewrite <- Zle_Qle; simpl; lia | apply Qlt_le_weak, Hw].
Qed.

Lemma lower_bound_le l v : lower_bound l v <= length l.
Proof.
  induction l as [|s l IH]; simpl; [lia|]. destruct (dlt s v); simpl; lia.
Qed.

Lemma lower_bound_above l v : forall k, k < lower_bound l v ->
  (l.[k] < v)%Q.
Proof.
  induction l as [|s l IH]; intros k Hk; simpl in Hk; [lia|].
  destruct (dlt s v) eqn:E; [|lia].
  destruct k as [|k]; [apply dlt_true, E | apply IH; lia].
Qed.

Lemma lower_bound_below l v : lower_bound l v < length l ->
  (v <= l.[lower_bound l v])%Q.
Proof.
  induction l as [|s l IH]; intros H; simpl in H; [lia|]. simpl.
  destruct (dlt s v) eqn:E.
  - apply IH. lia.
  - apply dlt_false, E.
Qed.

(** Particles bound for a lower rank are not beyond those bound for a
    higher one. *)
Lemma lower_bound_order l v1 v2 :
  lower_bound l v1 < lower_bound l v2 -> (v1 <= v2)%Q.
Proof.
  intros H.
  apply Qle_trans with l.[lower_bound l v1].
  - apply lower_bound_below. pose proof (lower_bound_le l v2). lia.
  - apply Qlt_le_weak, lower_bound_above, H.
Qed.

(** ** The received chunks are sorted *)

Lemma StronglySorted_filter {A : Type} (R : A -> A -> Prop) (f : A -> bool) l :
  StronglySorted R l -> StronglySorted R (filter f l).
Proof.
  induction 1 as [|a l Hs IH Ha]; simpl; [constructor|].
  destruct (f a); [|exact IH]. constructor; [exact IH|].
  rewrite Forall_forall in *. intros b Hb. apply filter_In in Hb.
  apply Ha, Hb.
Qed.

Lemma StronglySorted_seq start n : StronglySorted lt (seq start n).
Proof.
  revert start. induction n as [|n IH]; intros start; simpl; constructor.
  - apply IH.
  - rewrite Forall_forall. intros b Hb. apply in_seq in Hb. lia.
Qed.

Lemma bucket_sorted splitters ps d : StronglySorted lt (bucket splitters ps d).
Proof.
  apply StronglySorted_filter, StronglySorted_seq.
Qed.

Lemma bucket_in splitters ps d i :
  In i (bucket splitters ps d) <->
  i < n_particles ps /\ lower_bound splitters (r2 ps).[i] = d.
Proof.
  unfold bucket. rewrite filter_In, in_seq, Nat.eqb_eq. intuition lia.
Qed.

Lemma chunk_nth splitters ps d a : a < length (bucket splitters ps d) ->
  nth a (chunk splitters ps d) [] = record_of ps (nth a (bucket splitters ps d) 0).
Proof.
  intros H. unfold chunk.
  rewrite nth_indep with (d' := record_of ps 0) by (rewrite length_map; exact H).
  apply map_nth.
Qed.

Lemma chunk_sorted splitters ps d a b : I1 ps ->
  a <= b -> b < length (bucket splitters ps d) ->
  (rec_r2 (nth a (chunk splitters ps d) [])
   <= rec_r2 (nth b (chunk splitters ps d) []))%Q.
Proof.
  intros HI1 Hab Hb. rewrite !chunk_nth by lia.
  change (rec_r2 (record_of ps ?i)) with ((r2 ps).[i]).
  assert (Hin : In (nth b (bucket splitters ps d) 0) (bucket splitters ps d))
    by (apply nth_In; exact Hb).
  apply bucket_in in Hin.
  apply I1_le; [exact HI1 | | apply Hin].
  destruct (Nat.eq_dec a b) as [-> | Hne]; [lia|].
  apply Nat.lt_le_incl.
  apply (StronglySorted_nth 0 (bucket_sorted splitters ps d)); lia.
Qed.

Lemma nth_flat_map {A B : Type} (f : A -> list B) (d0 : A) (d : B) l :
  forall c a, c < length l -> a < length (f (nth c l d0)) ->
  nth (list_sum (firstn c (map (fun x => length (f x)) l)) + a) (flat_map f l) d
  = nth a (f (nth c l d0)) d.
Proof.
  induction l as [|x l IH]; intros c a Hc Ha; simpl in Hc; [lia|].
  destruct c as [|c]; simpl in *.
  - apply app_nth1. exact Ha.
  - rewrite app_nth2 by lia.
    replace (length (f x) + list_sum (firstn c (map (fun x => length (f x)) l))
             + a - length (f x))
      with (list_sum (firstn c (map (fun x => length (f x)) l)) + a) by lia.
    apply IH; [lia | exact Ha].
Qed.

Lemma at_map_rec_r2 recs i :
  (map rec_r2 recs).[i] = rec_r2 (nth i recs []).
Proof.
  unfold at_. change 0%Q with (rec_r2 []). apply map_nth.
Qed.

Lemma received_chunks_sorted splitters sorted r :
  (forall ps, In ps sorted -> I1 ps) ->
  chunks_sorted (map (fun ps => length (chunk splitters ps r)) sorted)
                (map rec_r2 (received splitters sorted r)).
Proof.
  intros HI1 c a b Hc Ha Hab Hb. rewrite length_map in Hc.
  unfold chunk_stop, chunk_start in *.
  rewrite displacements_nth in * by (rewrite length_map; exact Hc).
  cbn [Nat.add] in *.
  rewrite (nth_map_in _ _ _ no_shell) in Hb by exact Hc.
  set (start := list_sum (firstn c _)) in *.
  rewrite !at_map_rec_r2. unfold received.
  replace a with (start + (a - start)) by lia.
  replace b with (start + (b - start)) by lia.
  unfold start.
  rewrite !(nth_flat_map (fun ps => chunk splitters ps r) no_shell) by lia.
  apply chunk_sorted.
  - apply HI1, nth_In, Hc.
  - lia.
  - rewrite <- chunk_length. fold start. lia.
Qed.

(** ** Step 10: the installed shell *)

Lemma nine_fields (rec : list double) : length rec = num_fields ->
  [nth 0 rec 0%Q; nth 1 rec 0%Q; nth 2 rec 0%Q; nth 3 rec 0%Q; nth 4 rec 0%Q;
   nth 5 rec 0%Q; nth 6 rec 0%Q; nth 7 rec 0%Q; nth 8 rec 0%Q] = rec.
Proof.
  intros H. do 9 (destruct rec as [|? rec]; [discriminate H|]).
  destruct rec; [reflexivity | discriminate H].
Qed.

Lemma install_n ps total merge_order recv_buf :
  n_particles (install ps total merge_order recv_buf) = total.
Proof.
  reflexivity.
Qed.

Lemma install_field field recs merge_order old i :
  field < num_fields ->
  Forall (fun rec => length rec = num_fields) recs ->
  i < length recs -> nth i merge_order 0 < length recs ->
  (fill (length recs)
        (fun i => (unpack field (length recs) (concat recs)).[nth i merge_order 0])
        old).[i]
  = nth field (nth (nth i merge_order 0) recs []) 0%Q.
Proof.
  intros Hf Hrecs Hi Hm.
  rewrite (@at_fill _
             (fun i => (unpack field (length recs) (concat recs)).[nth i merge_order 0]))
    by exact Hi.
  rewrite unpack_eq by assumption. unfold at_.
  apply (nth_map_in (fun rec : list double => nth field rec 0%Q)). exact Hm.
Qed.

Lemma install_record ps recs merge_order i :
  Forall (fun rec => length rec = num_fields) recs ->
  i < length recs -> nth i merge_order 0 < length recs ->
  record_of (install ps (length recs) merge_order (concat recs)) i
  = nth (nth i merge_order 0) recs [].
Proof.
  intros Hrecs Hi Hm. unfold record_of, install.
  cbn [x y z vx vy vz q Er r2].
  rewrite !install_field by (try assumption; unfold num_fields; lia).
  apply nine_fields.
  rewrite Forall_forall in Hrecs. apply Hrecs, nth_In, Hm.
Qed.

Lemma install_records ps recs merge_order :
  Forall (fun rec => length rec = num_fields) recs ->
  Permutation merge_order (seq 0 (length recs)) ->
  records (install ps (length recs) merge_order (concat recs))
  = map (fun s => nth s recs []) merge_order.
Proof.
  intros Hrecs Hperm. unfold records. rewrite install_n.
  pose proof (Permutation_length Hperm) as Hlen. rewrite length_seq in Hlen.
  rewrite <- (map_nth_seq (fun s => nth s recs []) merge_order 0), Hlen.
  apply map_ext_in. intros i Hi. apply in_seq in Hi.
  apply install_record; [exact Hrecs | lia|].
  assert (Hin : In (nth i merge_order 0) (seq 0 (length recs))).
  { apply (Permutation_in _ Hperm), nth_In. lia. }
  apply in_seq in Hin. lia.
Qed.

Lemma map_nth_id {A : Type} (l : list A) (d : A) :
  map (fun i => nth i l d) (seq 0 (length l)) = l.
Proof.
  rewrite (map_nth_seq (fun a => a) l d). apply map_id.
Qed.

Lemma install_perm ps recs merge_order :
  Forall (fun rec => length rec = num_fields) recs ->
  Permutation merge_order (seq 0 (length recs)) ->
  Permutation (records (install ps (length recs) merge_order (concat recs))) recs.
Proof.
  intros Hrecs Hperm. rewrite install_records by assumption.
  rewrite (Permutation_map _ Hperm). rewrite map_nth_id. reflexivity.
Qed.

Lemma install_I1 ps recs merge_order :
  Forall (fun rec => length rec = num_fields) recs ->
  Permutation merge_order (seq 0 (length recs)) ->
  StronglySorted
    (fun s t => ((map rec_r2 recs).[s] <= (map rec_r2 recs).[t])%Q) merge_order ->
  I1 (install ps (length recs) merge_order (concat recs)).
Proof.
  intros Hrecs Hperm Hs i Hi. rewrite install_n in Hi.
  pose proof (Permutation_length Hperm) as Hlen. rewrite length_seq in Hlen.
  rewrite <- !rec_r2_records by (rewrite install_n; lia).
  rewrite install_records by assumption.
  rewrite !(nth_map_in _ _ _ 0) by lia.
  rewrite <- !at_map_rec_r2.
  apply (StronglySorted_nth 0 Hs); lia.
Qed.

(** ** One rank, steps 5 to 10 *)

Section ReceiveAndMerge.
Context {PQ : StdPriorityQueue} {PQL : StdPriorityQueueLaws PQ}.

Lemma receive_and_merge_correct splitters sorted r :
  r < length sorted ->
  (forall ps, In ps sorted -> I1 ps) ->
  exists ps',
    receive_and_merge (length sorted) r (shell sorted r)
      (map (send_counts_of (length sorted) splitters) sorted)
      (map (send_args_of (length sorted) splitters) sorted) = Some ps' /\
    Permutation (records ps') (received splitters sorted r) /\
    I1 ps' /\
    n_total ps' = n_total (shell sorted r).
Proof.
  intros Hr HI1. unfold receive_and_merge. cbv zeta.
  pose proof (@total_recv_eq splitters sorted r Hr) as Ht. cbv zeta in Ht. rewrite Ht.
  pose proof (@recv_buf_eq splitters sorted r Hr) as Hbuf. cbv zeta in Hbuf. rewrite Hbuf.
  pose proof (received_records splitters sorted r) as Hrecs.
  rewrite unpack_eq by (try exact Hrecs; unfold num_fields; lia).
  fold rec_r2. change (fun rec : list double => rec_r2 rec) with rec_r2.
  rewrite recv_counts_eq by exact Hr.
  set (recv_counts := map (fun ps => length (chunk splitters ps r)) sorted).
  set (recs := received splitters sorted r) in *.
  assert (Hlen : length sorted = length recv_counts)
    by (unfold recv_counts; rewrite length_map; reflexivity).
  assert (Htot : length recs = list_sum recv_counts)
    by apply received_length.
  destruct (@k_way_merge_correct PQ PQL recv_counts (map rec_r2 recs)
              (received_chunks_sorted splitters sorted r HI1))
    as (merge_order & Hmerge & Hperm & Hs).
  change (map (fun rec : list Q => nth 8 rec 0%Q) recs) with (map rec_r2 recs).
  replace (k_way_merge (length sorted) (length recs))
    with (k_way_merge (length recv_counts) (list_sum recv_counts))
    by (rewrite Hlen, Htot; reflexivity).
  rewrite Hmerge.
  rewrite <- Htot in Hperm.
  exists (install (shell sorted r) (length recs) merge_order (concat recs)).
  split; [reflexivity|]. split; [|split].
  - apply install_perm; assumption.
  - apply install_I1; assumption.
  - reflexivity.
Qed.
End ReceiveAndMerge.

(** ** The whole call *)

Lemma all_some_map {A B : Type} (f : A -> option B) (Q : A -> B -> Prop) l :
  (forall a, In a l -> exists b, f a = Some b /\ Q a b) ->
  exists res, all_some (map f l) = Some res /\ Forall2 Q l res.
Proof.
  induction l as [|a l IH]; intros H; simpl.
  - exists []. split; [reflexivity | constructor].
  - destruct (H a (or_introl eq_refl)) as (b & Hb & HQ).
    destruct (IH (fun a' Ha' => H a' (or_intror Ha'))) as (res & Hres & HF).
    rewrite Hb, Hres. exists (b :: res).
    split; [reflexivity | constructor; assumption].
Qed.

Lemma Forall2_seq_nth {B : Type} (Q : nat -> B -> Prop) (res : list B) (d : B) :
  forall n start, Forall2 Q (seq start n) res ->
  length res = n /\ forall i, i < n -> Q (start + i) (nth i res d).
Proof.
  induction res as [|b res IH]; intros n start H.
  - inversion H as [Hn|]. destruct n; [|discriminate].
    split; [reflexivity | intros; lia].
  - destruct n as [|n]; [inversion H|]. simpl in H.
    inversion H as [|? ? ? ? Hb Hrest]; subst.
    destruct (IH n (S start) Hrest) as [Hl Hi].
    split; [simpl; lia|]. intros [|i] Hlt; simpl.
    + rewrite Nat.add_0_r. exact Hb.
    + replace (start + S i) with (S start + i) by lia. apply Hi. lia.
Qed.


Section WholeCall.
Context {SORT : StdSort} {SORTL : StdSortLaws SORT}.
Context {PQ : StdPriorityQueue} {PQL : StdPriorityQueueLaws PQ}.

Lemma locally_sorted_length shells :
  length (locally_sorted shells) = length shells.
Proof.
  apply length_map.
Qed.

Lemma locally_sorted_shell shells r : r < length shells ->
  shell (locally_sorted shells) r =
  if (n_particles (shell shells r) =? 0) && (length shells =? 1)
  then shell shells r else local_sort (shell shells r).
Proof.
  intros Hr. unfold shell, locally_sorted. cbv zeta.
  apply (nth_map_in
    (fun ps => if (n_particles ps =? 0) && (length shells =? 1) then ps
               else local_sort ps)).
  exact Hr.
Qed.

Lemma locally_sorted_I1 shells ps : In ps (locally_sorted shells) -> I1 ps.
Proof.
  unfold locally_sorted. cbv zeta. rewrite in_map_iff.
  intros (ps0 & <- & _).
  destruct (Nat.eqb_spec (n_particles ps0) 0) as [Hz | Hnz]; simpl.
  - destruct (length shells =? 1); [|apply local_sort_I1].
    intros i Hi. lia.
  - apply local_sort_I1.
Qed.

Lemma locally_sorted_records shells r : r < length shells ->
  Permutation (records (shell (locally_sorted shells) r))
              (records (computeSquareRadius (shell shells r))).
Proof.
  intros Hr. rewrite locally_sorted_shell by exact Hr.
  destruct (Nat.eqb_spec (n_particles (shell shells r)) 0) as [Hz | Hnz]; simpl.
  - destruct (length shells =? 1); [|apply local_sort_perm].
    unfold records. cbn [n_particles computeSquareRadius set_r2].
    rewrite Hz. reflexivity.
  - apply local_sort_perm.
Qed.

Lemma locally_sorted_n_total shells r : r < length shells ->
  n_total (shell (locally_sorted shells) r) = n_total (shell shells r).
Proof.
  intros Hr. rewrite locally_sorted_shell by exact Hr.
  destruct (_ && _); reflexivity.
Qed.

Lemma chunk_everything ps : chunk [] ps 0 = records ps.
Proof.
  unfold chunk, bucket, records. simpl.
  rewrite filter_all; [reflexivity | reflexivity].
Qed.

(** What the call leaves on every rank: the records routed to it, sorted. *)
Lemma sort_outcome shells :
  exists shells',
    sortParticlesParallel shells = Some shells' /\
    length shells' = length shells /\
    forall r, r < length shells ->
      Permutation (records (shell shells' r))
                  (received (routing shells) (locally_sorted shells) r) /\
      I1 (shell shells' r) /\
      n_total (shell shells' r) = n_total (shell shells r).
Proof.
  unfold sortParticlesParallel, routing. cbv zeta.
  destruct (Nat.eqb_spec (length shells) 1) as [Hone | Hmany].
  - exists (locally_sorted shells).
    split; [reflexivity|]. split; [apply locally_sorted_length|].
    intros r Hr. assert (r = 0) by lia. subst r.
    split; [|split].
    + destruct shells as [|ps0 [|? ?]]; try discriminate Hone.
      unfold received, shell. simpl. rewrite app_nil_r, chunk_everything.
      reflexivity.
    + apply locally_sorted_I1 with shells, nth_In.
      rewrite locally_sorted_length. exact Hr.
    + apply locally_sorted_n_total. exact Hr.
  - set (sorted := locally_sorted shells).
    set (splitters := global_splitters sorted).
    assert (Hlen : length sorted = length shells) by apply locally_sorted_length.
    rewrite <- Hlen.
    destruct (all_some_map
      (fun r => receive_and_merge (length sorted) r (shell sorted r)
                  (map (send_counts_of (length sorted) splitters) sorted)
                  (map (send_args_of (length sorted) splitters) sorted))
      (fun r ps' =>
         Permutation (records ps') (received splitters sorted r) /\
         I1 ps' /\ n_total ps' = n_total (shell sorted r))
      (seq 0 (length sorted))) as (shells' & Hres & HF).
    { intros r Hr. apply in_seq in Hr.
      apply receive_and_merge_correct; [lia|].
      apply locally_sorted_I1. }
    exists shells'. split; [exact Hres|].
    destruct (@Forall2_seq_nth _ _ _ no_shell _ _ HF) as [Hl Hi].
    split; [exact Hl|].
    intros r Hr. destruct (Hi r Hr) as (H1 & H2 & H3).
    fold (shell shells' r) in H1, H2, H3.
    repeat split; try assumption.
    rewrite H3. apply locally_sorted_n_total. lia.
Qed.
End WholeCall.

(** ** Where the records go *)

Lemma chunk_in splitters ps r rec :
  In rec (chunk splitters ps r) <->
  exists idx, idx < n_particles ps /\
              lower_bound splitters (r2 ps).[idx] = r /\
              rec = record_of ps idx.
Proof.
  unfold chunk. rewrite in_map_iff. split.
  - intros (idx & <- & Hidx). apply bucket_in in Hidx.
    exists idx. intuition.
  - intros (idx & H1 & H2 & ->). exists idx.
    split; [reflexivity | apply bucket_in; split; assumption].
Qed.

Lemma received_in splitters sorted r rec :
  In rec (received splitters sorted r) <->
  exists ps idx, In ps sorted /\ idx < n_particles ps /\
                 lower_bound splitters (r2 ps).[idx] = r /\
                 rec = record_of ps idx.
Proof.
  unfold received. rewrite in_flat_map. split.
  - intros (ps & Hps & Hrec). apply chunk_in in Hrec.
    destruct Hrec as (idx & H). exists ps, idx. intuition.
  - intros (ps & idx & Hps & H). exists ps. split; [exact Hps|].
    apply chunk_in. exists idx. exact H.
Qed.

Lemma Permutation_flat_map_pointwise {A B C : Type}
    (f : A -> list C) (g : B -> list C) (dA : A) (dB : B) :
  forall l1 l2, length l1 = length l2 ->
  (forall r, r < length l1 -> Permutation (f (nth r l1 dA)) (g (nth r l2 dB))) ->
  Permutation (flat_map f l1) (flat_map g l2).
Proof.
  induction l1 as [|a l1 IH]; intros [|b l2] Hlen H; try discriminate Hlen.
  - constructor.
  - simpl. apply Permutation_app.
    + apply (H 0). simpl. lia.
    + apply IH; [simpl in Hlen; lia|].
      intros r Hr. apply (H (S r)). simpl. lia.
Qed.

Lemma flat_map_app_perm {A B : Type} (g h : A -> list B) l :
  Permutation (flat_map (fun a => g a ++ h a) l) (flat_map g l ++ flat_map h l).
Proof.
  induction l as [|a l IH]; simpl; [constructor|].
  rewrite IH, <- !app_assoc. apply Permutation_app_head.
  rewrite !app_assoc. apply Permutation_app_tail, Permutation_app_comm.
Qed.

Lemma flat_map_swap {A B C : Type} (f : A -> B -> list C) la lb :
  Permutation (flat_map (fun a => flat_map (fun b => f a b) lb) la)
              (flat_map (fun b => flat_map (fun a => f a b) la) lb).
Proof.
  induction la as [|a la IH]; simpl.
  - induction lb as [|b lb IHb]; simpl; [constructor | exact IHb].
  - rewrite IH. symmetry. apply (flat_map_app_perm (f a)).
Qed.

Lemma filter_disjoint_perm {A : Type} (f g : A -> bool) l :
  (forall a, f a = true -> g a = false) ->
  Permutation (filter f l ++ filter g l) (filter (fun a => f a || g a) l).
Proof.
  intros H. induction l as [|a l IH]; simpl; [constructor|].
  destruct (f a) eqn:Ef; simpl.
  - rewrite (H a Ef). apply perm_skip, IH.
  - destruct (g a); [|exact IH].
    rewrite <- Permutation_middle. apply perm_skip, IH.
Qed.

(** Sorting indices into classes by a key loses none of them. *)
Lemma filter_classes (key : nat -> nat) l k :
  Permutation (flat_map (fun d => filter (fun i => key i =? d) l) (seq 0 k))
              (filter (fun i => key i <? k) l).
Proof.
  induction k as [|k IH].
  - simpl. induction l as [|a l IHl]; [constructor | exact IHl].
  - rewrite seq_S, flat_map_app, IH. simpl. rewrite app_nil_r.
    rewrite filter_disjoint_perm.
    + erewrite filter_ext; [reflexivity|]. intros i. cbv beta.
      destruct (Nat.ltb_spec (key i) k), (Nat.eqb_spec (key i) k),
        (Nat.ltb_spec (key i) (S k)); simpl; try reflexivity; lia.
    + intros i Hi. apply Nat.ltb_lt in Hi. apply Nat.eqb_neq. lia.
Qed.

Lemma chunks_cover splitters ps size : length splitters < size ->
  Permutation (flat_map (fun r => chunk splitters ps r) (seq 0 size))
              (records ps).
Proof.
  intros Hlen. unfold chunk, records.
  rewrite flat_map_concat_map.
  rewrite <- (map_map (bucket splitters ps) (map (record_of ps))).
  rewrite <- concat_map, <- flat_map_concat_map.
  apply Permutation_map. unfold bucket.
  rewrite (filter_classes (fun i => lower_bound splitters (r2 ps).[i])).
  rewrite filter_all; [reflexivity|].
  intros i _. apply Nat.ltb_lt.
  pose proof (lower_bound_le splitters (r2 ps).[i]). lia.
Qed.

Section Routing.
Context {SORT : StdSort}.

Lemma global_splitters_spec sorted :
  let lo := global_min sorted in
  let w := bin_width_of lo (global_max sorted) in
  length (global_splitters sorted) = length sorted - 1 /\
  StronglySorted Qle (global_splitters sorted) /\
  Forall (fun s => (lo + w <= s)%Q) (global_splitters sorted).
Proof.
  unfold global_splitters, global_max. cbv zeta.
  apply splitters_of_spec.
Qed.

Lemma routing_length shells : length (routing shells) = length shells - 1.
Proof.
  unfold routing. destruct (Nat.eqb_spec (length shells) 1) as [-> | _].
  - reflexivity.
  - destruct (global_splitters_spec (locally_sorted shells)) as [H _].
    rewrite H. unfold locally_sorted. rewrite length_map. reflexivity.
Qed.

(** The splitters are sorted: [std::lower_bound] is used within its
    contract. *)
Lemma routing_sorted shells : StronglySorted Qle (routing shells).
Proof.
  unfold routing. destruct (length shells =? 1); [constructor|].
  apply global_splitters_spec.
Qed.

Lemma received_cover shells :
  Permutation
    (flat_map (fun r => received (routing shells) (locally_sorted shells) r)
              (seq 0 (length shells)))
    (all_records (locally_sorted shells)).
Proof.
  unfold received, all_records.
  rewrite (flat_map_swap (fun r ps => chunk (routing shells) ps r)).
  destruct shells as [|ps0 shells]; [constructor|].
  apply (Permutation_flat_map_pointwise _ _ no_shell no_shell);
    [reflexivity|].
  intros r _. apply chunks_cover. rewrite routing_length. simpl. lia.
Qed.
End Routing.

Section Conservation.
Context {SORT : StdSort} {SORTL : StdSortLaws SORT}.
Context {PQ : StdPriorityQueue} {PQL : StdPriorityQueueLaws PQ}.

Lemma locally_sorted_all_records shells :
  Permutation (all_records (locally_sorted shells))
              (all_records (map computeSquareRadius shells)).
Proof.
  unfold all_records.
  apply (Permutation_flat_map_pointwise _ _ no_shell no_shell).
  - rewrite locally_sorted_length, length_map. reflexivity.
  - intros r Hr. rewrite locally_sorted_length in Hr.
    fold (shell (locally_sorted shells) r).
    rewrite (nth_map_in computeSquareRadius _ _ no_shell) by exact Hr.
    apply locally_sorted_records. exact Hr.
Qed.

(** The call rearranges the particle records and loses none. *)
Lemma sort_permutes shells shells' :
  sortParticlesParallel shells = Some shells' ->
  Permutation (all_records shells')
              (all_records (map computeSquareRadius shells)).
Proof.
  intros Hrun.
  destruct (sort_outcome shells) as (shells'' & Hrun' & Hlen & Hout).
  rewrite Hrun in Hrun'. injection Hrun' as <-.
  rewrite <- locally_sorted_all_records, <- received_cover.
  unfold all_records at 1.
  apply (Permutation_flat_map_pointwise _ _ no_shell 0).
  - rewrite length_seq. exact Hlen.
  - intros r Hr. rewrite Hlen in Hr. rewrite seq_nth by exact Hr.
    apply Hout. exact Hr.
Qed.
End Conservation.

(** ** The redistributor: the properties of the specification *)

Section Redistributor.
Context {SORT : StdSort} {SORTL : StdSortLaws SORT}.
Context {PQ : StdPriorityQueue} {PQL : StdPriorityQueueLaws PQ}.

Lemma records_in ps i : i < n_particles ps -> In (record_of ps i) (records ps).
Proof.
  intros H. unfold records. apply in_map, in_seq. lia.
Qed.



Lemma all_records_length shells :
  length (all_records shells) = list_sum (map n_particles shells).
Proof.
  unfold all_records. rewrite length_flat_map_sum. f_equal.
  apply map_ext. intros ps. apply records_length.
Qed.

End Redistributor.

(** ** Particles at one radius *)

Lemma fold_dmin_in l : forall a, In (fold_left dmin l a) (a :: l).
Proof.
  induction l as [|b l IH]; intros a; simpl; [left; reflexivity|].
  specialize (IH (dmin a b)). simpl in IH. unfold dmin in IH at 1.
  destruct IH as [H | H]; [|right; right; exact H].
  destruct (dlt b a); [right; left | left]; exact H.
Qed.

Lemma MPI_Allreduce_min_lower (c : Q) l : l <> [] ->
  (forall a, In a l -> (c <= a)%Q) -> (c <= MPI_Allreduce_min l)%Q.
Proof.
  intros Hne H. destruct l as [|a l]; [congruence|].
  apply H. simpl. apply fold_dmin_in.
Qed.

Section OneRadius.
Context {SORT : StdSort} {SORTL : StdSortLaws SORT}.

Lemma local_sort_r2_in ps i : i < n_particles ps ->
  exists j, j < n_particles ps /\
            (r2 (local_sort ps)).[i] = (r2 (computeSquareRadius ps)).[j].
Proof.
  intros Hi. rewrite local_sort_r2 by exact Hi.
  exists (nth i (sorted_indices (computeSquareRadius ps)) 0).
  split; [|reflexivity].
  assert (Hin : In (nth i (sorted_indices (computeSquareRadius ps)) 0)
                   (seq 0 (n_particles ps))).
  { apply (Permutation_in _ (sorted_indices_perm (computeSquareRadius ps))).
    apply nth_In. rewrite sorted_indices_length. exact Hi. }
  apply in_seq in Hin. lia.
Qed.

(** With several ranks, particles that all sit at one radius [c] are all
    routed to rank 0: the first splitter is the end of a bin, beyond [c]. *)
Lemma one_radius_rank_0 shells (c : Q) :
  2 <= length shells -> (c <= DBL_MAX)%Q ->
  (forall p i, p < length shells -> i < n_particles (shell shells p) ->
     ((r2 (computeSquareRadius (shell shells p))).[i] == c)%Q) ->
  forall ps i, In ps (locally_sorted shells) -> i < n_particles ps ->
    lower_bound (routing shells) (r2 ps).[i] = 0.
Proof.
  intros Hsize Hc Hall.
  assert (Hsorted : forall ps i, In ps (locally_sorted shells) ->
            i < n_particles ps -> ((r2 ps).[i] == c)%Q).
  { intros ps i Hps Hi. destruct (In_nth _ _ no_shell Hps) as (p & Hp & <-).
    rewrite locally_sorted_length in Hp.
    fold (shell (locally_sorted shells) p) in *.
    rewrite locally_sorted_shell in * by exact Hp.
    replace (length shells =? 1) with false in *
      by (symmetry; apply Nat.eqb_neq; lia).
    rewrite andb_false_r in *.
    destruct (local_sort_r2_in (shell shells p) Hi) as (j & Hj & ->).
    apply Hall; assumption. }
  intros ps i Hps Hi.
  unfold routing.
  replace (length shells =? 1) with false by (symmetry; apply Nat.eqb_neq; lia).
  destruct (global_splitters_spec (locally_sorted shells)) as (Hlen & _ & Hlow).
  cbv zeta in Hlow. rewrite locally_sorted_length in Hlen.
  destruct (global_splitters (locally_sorted shells)) as [|s0 rest];
    [simpl in Hlen; lia|].
  inversion Hlow as [|? ? Hs0 _]; subst.
  pose proof (bin_width_pos (global_min (locally_sorted shells))
                (MPI_Allreduce_max (map r2_max_local (locally_sorted shells))))
    as Hw.
  fold (global_max (locally_sorted shells)) in Hw.
  assert (Hlo : (c <= global_min (locally_sorted shells))%Q).
  { unfold global_min. apply MPI_Allreduce_min_lower.
    - intros E. apply (f_equal (@length _)) in E.
      rewrite length_map, locally_sorted_length in E. simpl in E. lia.
    - intros a Ha. apply in_map_iff in Ha. destruct Ha as (ps' & <- & Hps').
      unfold r2_min_local.
      destruct (Nat.ltb_spec 0 (n_particles ps')) as [Hpos | _]; [|exact Hc].
      rewrite (Hsorted ps' 0 Hps' Hpos). apply Qle_refl. }
  simpl.
  assert (Hv : dlt s0 (r2 ps).[i] = false).
  { apply dlt_false. rewrite (Hsorted ps i Hps Hi).
    apply Qle_trans with (global_min (locally_sorted shells)); [exact Hlo|].
    apply Qle_trans with
      (global_min (locally_sorted shells)
       + bin_width_of (global_min (locally_sorted shells))
                      (global_max (locally_sorted shells)))%Q; [|exact Hs0].
    rewrite <- (Qplus_0_r (global_min (locally_sorted shells))) at 1.
    apply Qplus_le_r, Qlt_le_weak, Hw. }
  rewrite Hv. reflexivity.
Qed.

Lemma received_rank_0 splitters sorted :
  (forall ps i, In ps sorted -> i < n_particles ps ->
     lower_bound splitters (r2 ps).[i] = 0) ->
  received splitters sorted 0 = all_records sorted /\
  forall r, r <> 0 -> received splitters sorted r = [].
Proof.
  intros H. unfold received, all_records. split.
  - rewrite !flat_map_concat_map. f_equal. apply map_ext_in.
    intros ps Hps. unfold chunk, bucket, records.
    rewrite filter_all; [reflexivity|].
    intros i Hi. apply in_seq in Hi. apply Nat.eqb_eq, H; [exact Hps | lia].
  - intros r Hr. induction sorted as [|ps sorted IH]; [reflexivity|].
    simpl. rewrite IH by (intros ps' i Hps'; apply H; right; exact Hps').
    rewrite app_nil_r. unfold chunk, bucket.
    rewrite filter_none; [reflexivity|].
    intros i Hi. apply in_seq in Hi. apply Nat.eqb_neq.
    rewrite H; [congruence | left; reflexivity | lia].
Qed.

Lemma locally_sorted_count shells :
  list_sum (map n_particles (locally_sorted shells))
  = list_sum (map n_particles shells).
Proof.
  unfold locally_sorted. cbv zeta. rewrite map_map. f_equal.
  apply map_ext. intros ps. destruct (_ && _); reflexivity.
Qed.
End OneRadius.

Section OneRadiusOutcome.
Context {SORT : StdSort} {SORTL : StdSortLaws SORT}.
Context {PQ : StdPriorityQueue} {PQL : StdPriorityQueueLaws PQ}.

(** C3, as the code has it: in S5 every particle is routed to rank 0,
    which ends up with all nine; ranks 1 and 2 end up empty. *)
Theorem sortParticlesParallel_S5 (shells : list ParticleSystem) :
  length shells = 3 ->
  list_sum (map n_particles shells) = 9 ->
  (forall p i, p < length shells -> i < n_particles (shell shells p) ->
     ((r2 (computeSquareRadius (shell shells p))).[i] == 1)%Q) ->
  exists shells',
    sortParticlesParallel shells = Some shells' /\
    map n_particles shells' = [9; 0; 0].
Proof.
  intros Hsize Hcount Hall.
  destruct (sort_outcome shells) as (shells' & Hrun & Hlen & Hout).
  exists shells'. split; [exact Hrun|].
  assert (Hroute : forall ps i, In ps (locally_sorted shells) ->
            i < n_particles ps -> lower_bound (routing shells) (r2 ps).[i] = 0).
  { apply one_radius_rank_0 with (c := 1%Q); [lia | | exact Hall].
    unfold DBL_MAX, Qle. simpl. lia. }
  destruct (received_rank_0 _ _ Hroute) as [H0 Hother].
  assert (Hn : forall r, r < 3 ->
            n_particles (shell shells' r)
            = length (received (routing shells) (locally_sorted shells) r)).
  { intros r Hr. rewrite <- records_length.
    apply Permutation_length, Hout. lia. }
  rewrite Hsize in Hlen.
  destruct shells' as [|a [|b [|c [|? ?]]]]; try discriminate Hlen.
  pose proof (Hn 0 ltac:(lia)) as Ha.
  pose proof (Hn 1 ltac:(lia)) as Hb.
  pose proof (Hn 2 ltac:(lia)) as Hc.
  rewrite H0, all_records_length, locally_sorted_count, Hcount in Ha.
  rewrite Hother in Hb, Hc by lia.
  unfold shell in Ha, Hb, Hc. simpl in Ha, Hb, Hc. simpl. congruence.
Qed.
End OneRadiusOutcome.

(** ** When nothing moves *)

Lemma lower_bound_unique l v : forall p,
  (forall k, k < p -> (l.[k] < v)%Q) ->
  (p < length l -> (v <= l.[p])%Q) ->
  p <= length l -> lower_bound l v = p.
Proof.
  induction l as [|s l IH]; intros p Hlt Hge Hp; simpl in *.
  - lia.
  - destruct p as [|p].
    + specialize (Hge ltac:(lia)). apply dlt_false in Hge.
      unfold at_ in Hge. simpl in Hge. rewrite Hge. reflexivity.
    + pose proof (Hlt 0 ltac:(lia)) as H0. apply dlt_true in H0.
      unfold at_ in H0. simpl in H0. rewrite H0. f_equal.
      apply IH.
      * intros k Hk. apply (Hlt (S k)). lia.
      * intros Hp'. apply Hge. lia.
      * lia.
Qed.

Lemma in_band_lower_bound l p v :
  StronglySorted Qle l -> p <= length l -> in_band l p v ->
  lower_bound l v = p.
Proof.
  intros Hs Hp [Hlow Hhigh]. apply lower_bound_unique; [|exact Hhigh | exact Hp].
  intros k Hk. destruct Hlow as [-> | Hlow]; [lia|].
  destruct (Nat.eq_dec k (p - 1)) as [-> | Hne]; [exact Hlow|].
  apply Qle_lt_trans with l.[p - 1]; [|exact Hlow].
  apply (StronglySorted_nth 0%Q Hs); lia.
Qed.

Lemma gnu_lower_bound_loop_scan (v : list double) (val : double) :
  StronglySorted Qle v ->
  forall fuel first len,
  len <= fuel -> first + len <= length v ->
  (forall k, k < first -> (v.[k] < val)%Q) ->
  (forall k, first + len <= k -> k < length v -> (val <= v.[k])%Q) ->
  gnu_lower_bound_loop fuel v first len val = lower_bound v val.
Proof.
  intros Hs. induction fuel as [|fuel IH]; intros first len Hfuel Hlen Hlo Hhi.
  - simpl. symmetry. apply lower_bound_unique; [exact Hlo | | lia].
    intros Hf. apply Hhi; lia.
  - cbn [gnu_lower_bound_loop].
    destruct (Nat.ltb_spec 0 len) as [Hpos | Hzero].
    + assert (Hhalf : len / 2 < len) by (apply Nat.div_lt; lia).
      destruct (dlt v.[first + len / 2] val) eqn:E.
      * apply IH; try lia.
        -- intros k Hk. apply dlt_true in E.
           destruct (Nat.eq_dec k (first + len / 2)) as [-> | Hne]; [exact E|].
           apply Qle_lt_trans with v.[first + len / 2]; [|exact E].
           apply (StronglySorted_nth 0%Q Hs); unfold double in *; lia.
        -- intros k Hk Hk'. apply Hhi; lia.
      * apply IH; try lia.
        -- exact Hlo.
        -- intros k Hk Hk'. apply dlt_false in E.
           destruct (Nat.eq_dec k (first + len / 2)) as [-> | Hne]; [exact E|].
           apply Qle_trans with v.[first + len / 2]; [exact E|].
           apply (StronglySorted_nth 0%Q Hs); unfold double in *; lia.
    + symmetry. apply lower_bound_unique; [exact Hlo | | lia].
      intros Hf. apply Hhi; lia.
Qed.

(** On a sorted range libstdc++'s binary search returns what the contract
    of [std::lower_bound] says. *)
Lemma gnu_lower_bound_scan (v : list double) (val : double) :
  StronglySorted Qle v -> gnu_lower_bound v val = lower_bound v val.
Proof.
  intros Hs. unfold gnu_lower_bound.
  apply gnu_lower_bound_loop_scan; try lia; try exact Hs; intros; lia.
Qed.

(** So it does on the splitters of every call. *)
Lemma gnu_lower_bound_routing {SORT : StdSort} shells val :
  gnu_lower_bound (routing shells) val = lower_bound (routing shells) val.
Proof.
  apply gnu_lower_bound_scan, routing_sorted.
Qed.

(** A rank all of whose particles the splitters give to itself sends
    nothing away. *)
Lemma send_counts_identity size splitters ps p : p < size ->
  (forall i, i < n_particles ps -> lower_bound splitters (r2 ps).[i] = p) ->
  identity_pattern p (send_counts_of size splitters ps) /\
  nth p (send_counts_of size splitters ps) 0 = n_particles ps.
Proof.
  intros Hp Hdest. split.
  - intros d Hd.
    destruct (Nat.lt_ge_cases d size) as [Hlt | Hge].
    + rewrite send_counts_nth by exact Hlt. unfold bucket.
      rewrite filter_none; [reflexivity|].
      intros i Hi. apply in_seq in Hi. apply Nat.eqb_neq.
      rewrite Hdest by lia. congruence.
    + apply nth_overflow. rewrite send_counts_length. exact Hge.
  - rewrite send_counts_nth by exact Hp. unfold bucket.
    rewrite filter_all; [apply length_seq|].
    intros i Hi. apply in_seq in Hi. apply Nat.eqb_eq, Hdest. lia.
Qed.

(** ** A second call moves nothing *)

Lemma computeSquareRadius_consistent ps :
  Forall consistent (records (computeSquareRadius ps)).
Proof.
  unfold records. rewrite Forall_map, Forall_forall. intros i Hi.
  apply in_seq in Hi. unfold consistent, rec_r2, record_of.
  cbn [nth]. unfold computeSquareRadius in *.
  cbn [r2 x y z set_r2 n_particles] in *.
  rewrite (@at_fill _ (fun i => (x ps).[i] * (x ps).[i] + (y ps).[i] * (y ps).[i]
                                + (z ps).[i] * (z ps).[i])%Q) by lia.
  reflexivity.
Qed.

Lemma consistent_recompute ps :
  Forall consistent (records ps) ->
  records (computeSquareRadius ps) = records ps.
Proof.
  intros H. unfold records in *. rewrite Forall_map, Forall_forall in H.
  apply map_ext_in. intros i Hi. specialize (H i Hi). apply in_seq in Hi.
  unfold consistent, rec_r2, record_of in H. cbn [nth] in H.
  unfold record_of, computeSquareRadius. cbn [r2 x y z vx vy vz q Er set_r2].
  rewrite (@at_fill _ (fun i => (x ps).[i] * (x ps).[i] + (y ps).[i] * (y ps).[i]
                                + (z ps).[i] * (z ps).[i])%Q) by lia.
  rewrite <- H. reflexivity.
Qed.

Lemma consistent_nonneg rec : consistent rec -> (0 <= rec_r2 rec)%Q.
Proof.
  intros ->.
  assert (Hsq : forall a : Q, (0 <= a * a)%Q).
  { intros a. destruct (Qlt_le_dec a 0) as [Hn | Hp].
    - setoid_replace (a * a)%Q with ((- a) * (- a))%Q by ring.
      apply Qmult_le_0_compat; apply (Qopp_le_compat a 0), Qlt_le_weak, Hn.
    - apply Qmult_le_0_compat; exact Hp. }
  pose proof (Hsq (nth 0 rec 0%Q)). pose proof (Hsq (nth 1 rec 0%Q)).
  pose proof (Hsq (nth 2 rec 0%Q)).
  apply (Qplus_le_compat 0 _ 0); [|assumption].
  apply (Qplus_le_compat 0 _ 0); assumption.
Qed.

(** *** The reductions see the particles, not their owners *)

Lemma fold_dmin_le l : forall a,
  (fold_left dmin l a <= a)%Q /\
  Forall (fun b => (fold_left dmin l a <= b)%Q) l.
Proof.
  induction l as [|b l IH]; intros a; simpl.
  - split; [apply Qle_refl | constructor].
  - destruct (IH (dmin a b)) as [H1 H2].
    assert (Hab : (dmin a b <= a)%Q /\ (dmin a b <= b)%Q).
    { unfold dmin. destruct (dlt b a) eqn:E.
      - apply dlt_true in E. split; [apply Qlt_le_weak, E | apply Qle_refl].
      - apply dlt_false in E. split; [apply Qle_refl | exact E]. }
    split; [|constructor; [|exact H2]].
    + apply Qle_trans with (dmin a b); [exact H1 | apply Hab].
    + apply Qle_trans with (dmin a b); [exact H1 | apply Hab].
Qed.

Lemma fold_dmax_ge l : forall a,
  (a <= fold_left dmax l a)%Q /\
  Forall (fun b => (b <= fold_left dmax l a)%Q) l.
Proof.
  induction l as [|b l IH]; intros a; simpl.
  - split; [apply Qle_refl | constructor].
  - destruct (IH (dmax a b)) as [H1 H2].
    assert (Hab : (a <= dmax a b)%Q /\ (b <= dmax a b)%Q).
    { unfold dmax. destruct (dlt a b) eqn:E.
      - apply dlt_true in E. split; [apply Qlt_le_weak, E | apply Qle_refl].
      - apply dlt_false in E. split; [apply Qle_refl | exact E]. }
    split; [|constructor; [|exact H2]].
    + apply Qle_trans with (dmax a b); [apply Hab | exact H1].
    + apply Qle_trans with (dmax a b); [apply Hab | exact H1].
Qed.

Lemma fold_dmax_in l : forall a, In (fold_left dmax l a) (a :: l).
Proof.
  induction l as [|b l IH]; intros a; simpl; [left; reflexivity|].
  specialize (IH (dmax a b)). simpl in IH. unfold dmax in IH at 1.
  destruct IH as [H | H]; [|right; right; exact H].
  destruct (dlt a b); [right; left | left]; exact H.
Qed.

Lemma MPI_Allreduce_min_spec l : l <> [] ->
  In (MPI_Allreduce_min l) l /\
  Forall (fun b => (MPI_Allreduce_min l <= b)%Q) l.
Proof.
  intros Hne. destruct l as [|a l]; [congruence|]. simpl.
  split; [apply fold_dmin_in|].
  destruct (fold_dmin_le l a) as [H1 H2]. constructor; assumption.
Qed.

Lemma MPI_Allreduce_max_spec l : l <> [] ->
  In (MPI_Allreduce_max l) l /\
  Forall (fun b => (b <= MPI_Allreduce_max l)%Q) l.
Proof.
  intros Hne. destruct l as [|a l]; [congruence|]. simpl.
  split; [apply fold_dmax_in|].
  destruct (fold_dmax_ge l a) as [H1 H2]. constructor; assumption.
Qed.

Lemma least_of_unique dflt m m' R R' :
  Permutation R R' -> least_of dflt m R -> least_of dflt m' R' -> (m == m')%Q.
Proof.
  intros HP [H1 H2] [H1' H2'].
  destruct H2 as [[-> ->] | (v & Hv & Hm)].
  - apply Permutation_nil in HP. subst R'.
    destruct H2' as [[_ ->] | (v & [] & _)]. reflexivity.
  - destruct H2' as [[-> _] | (v' & Hv' & Hm')].
    + apply Permutation_sym, Permutation_nil in HP. subst R. destruct Hv.
    + apply Qle_antisym.
      * rewrite Hm'. apply H1. apply (Permutation_in _ (Permutation_sym HP)), Hv'.
      * rewrite Hm. apply H1'. apply (Permutation_in _ HP), Hv.
Qed.

Lemma greatest_of_unique dflt m m' R R' :
  Permutation R R' -> greatest_of dflt m R -> greatest_of dflt m' R' ->
  (m == m')%Q.
Proof.
  intros HP [H1 H2] [H1' H2'].
  destruct H2 as [[-> ->] | (v & Hv & Hm)].
  - apply Permutation_nil in HP. subst R'.
    destruct H2' as [[_ ->] | (v & [] & _)]. reflexivity.
  - destruct H2' as [[-> _] | (v' & Hv' & Hm')].
    + apply Permutation_sym, Permutation_nil in HP. subst R. destruct Hv.
    + apply Qle_antisym.
      * rewrite Hm. apply H1'. apply (Permutation_in _ HP), Hv.
      * rewrite Hm'. apply H1. apply (Permutation_in _ (Permutation_sym HP)), Hv'.
Qed.

Lemma radii_in shells v :
  In v (radii shells) <->
  exists ps i, In ps shells /\ i < n_particles ps /\ v = (r2 ps).[i].
Proof.
  unfold radii, all_records, records. rewrite in_map_iff. split.
  - intros (rec & <- & Hrec). apply in_flat_map in Hrec.
    destruct Hrec as (ps & Hps & Hrec). apply in_map_iff in Hrec.
    destruct Hrec as (i & <- & Hi). apply in_seq in Hi.
    exists ps, i. repeat split; [exact Hps | lia].
  - intros (ps & i & Hps & Hi & ->). exists (record_of ps i).
    split; [reflexivity|]. apply in_flat_map. exists ps.
    split; [exact Hps|]. apply in_map, in_seq. lia.
Qed.

Lemma global_min_least sorted :
  sorted <> [] ->
  (forall ps, In ps sorted -> I1 ps) ->
  (forall v, In v (radii sorted) -> (v <= DBL_MAX)%Q) ->
  least_of DBL_MAX (global_min sorted) (radii sorted).
Proof.
  intros Hne HI1 Hfin. unfold global_min.
  destruct (@MPI_Allreduce_min_spec (map r2_min_local sorted)) as [Hin Hle].
  { intros E. apply map_eq_nil in E. contradiction. }
  set (m := MPI_Allreduce_min (map r2_min_local sorted)) in *.
  rewrite Forall_forall in Hle.
  assert (Hlow : forall v, In v (radii sorted) -> (m <= v)%Q).
  { intros v Hv. apply radii_in in Hv. destruct Hv as (ps & i & Hps & Hi & ->).
    apply Qle_trans with (r2_min_local ps).
    - apply Hle, in_map, Hps.
    - unfold r2_min_local.
      destruct (Nat.ltb_spec 0 (n_particles ps)) as [_ | Hz]; [|lia].
      apply I1_le; [apply HI1, Hps | lia | exact Hi]. }
  split; [exact Hlow|].
  apply in_map_iff in Hin. destruct Hin as (ps & Hm & Hps).
  unfold r2_min_local in Hm.
  destruct (Nat.ltb_spec 0 (n_particles ps)) as [Hpos | Hz].
  - right. exists (r2 ps).[0]. split; [|rewrite Hm; reflexivity].
    apply radii_in. exists ps, 0. auto.
  - destruct (radii sorted) as [|v R] eqn:E.
    + left. split; [reflexivity | symmetry; exact Hm].
    + right. exists v. split; [left; reflexivity|].
      apply Qle_antisym; [apply Hlow; left; reflexivity|].
      rewrite <- Hm. apply Hfin. left; reflexivity.
Qed.

Lemma global_max_greatest sorted :
  sorted <> [] ->
  (forall ps, In ps sorted -> I1 ps) ->
  (forall v, In v (radii sorted) -> (- DBL_MAX <= v)%Q) ->
  greatest_of (- DBL_MAX)%Q (MPI_Allreduce_max (map r2_max_local sorted))
              (radii sorted).
Proof.
  intros Hne HI1 Hfin.
  destruct (@MPI_Allreduce_max_spec (map r2_max_local sorted)) as [Hin Hle].
  { intros E. apply map_eq_nil in E. contradiction. }
  set (m := MPI_Allreduce_max (map r2_max_local sorted)) in *.
  rewrite Forall_forall in Hle.
  assert (Hhigh : forall v, In v (radii sorted) -> (v <= m)%Q).
  { intros v Hv. apply radii_in in Hv. destruct Hv as (ps & i & Hps & Hi & ->).
    apply Qle_trans with (r2_max_local ps).
    - unfold r2_max_local.
      destruct (Nat.ltb_spec 0 (n_particles ps)) as [_ | Hz]; [|lia].
      apply I1_le; [apply HI1, Hps | lia | lia].
    - apply Hle, in_map, Hps. }
  split; [exact Hhigh|].
  apply in_map_iff in Hin. destruct Hin as (ps & Hm & Hps).
  unfold r2_max_local in Hm.
  destruct (Nat.ltb_spec 0 (n_particles ps)) as [Hpos | Hz].
  - right. exists (r2 ps).[n_particles ps - 1]. split; [|rewrite Hm; reflexivity].
    apply radii_in. exists ps, (n_particles ps - 1). repeat split; [exact Hps | lia].
  - destruct (radii sorted) as [|v R] eqn:E.
    + left. split; [reflexivity | symmetry; exact Hm].
    + right. exists v. split; [left; reflexivity|].
      apply Qle_antisym; [|apply Hhigh; left; reflexivity].
      rewrite <- Hm. apply Hfin. left; reflexivity.
Qed.

(** *** Equal numbers give equal routes *)

Lemma dlt_compat a a' b b' : (a == a')%Q -> (b == b')%Q -> dlt a b = dlt a' b'.
Proof.
  intros Ha Hb. unfold dlt. f_equal. apply Qleb_comp; assumption.
Qed.

Lemma widen_compat lo lo' hi hi' : (lo == lo')%Q -> (hi == hi')%Q ->
  (widen lo hi == widen lo' hi')%Q.
Proof.
  intros Hlo Hhi. unfold widen.
  rewrite (@dlt_compat (hi - lo) (hi' - lo') double_1e_15 double_1e_15)
    by (rewrite ?Hlo, ?Hhi; reflexivity).
  destruct (dlt (hi' - lo') double_1e_15); [rewrite Hlo; reflexivity | exact Hhi].
Qed.

Lemma bin_width_of_compat lo lo' hi hi' : (lo == lo')%Q -> (hi == hi')%Q ->
  (bin_width_of lo hi == bin_width_of lo' hi')%Q.
Proof.
  intros Hlo Hhi. unfold bin_width_of. rewrite Hlo, Hhi. reflexivity.
Qed.

Lemma double_to_int_compat d d' : (d == d')%Q -> double_to_int d = double_to_int d'.
Proof.
  intros H. unfold double_to_int.
  rewrite (Qleb_comp 0%Q 0%Q (Qeq_refl 0%Q) d d' H).
  destruct (Qle_bool 0 d'); [apply Qfloor_comp | apply Qceiling_comp]; exact H.
Qed.

Lemma bin_of_compat lo lo' w w' v v' :
  (lo == lo')%Q -> (w == w')%Q -> (v == v')%Q ->
  bin_of lo w v = bin_of lo' w' v'.
Proof.
  intros Hlo Hw Hv. unfold bin_of.
  rewrite (@double_to_int_compat ((v - lo) / w) ((v' - lo') / w'))
    by (rewrite Hlo, Hw, Hv; reflexivity).
  reflexivity.
Qed.

Lemma lower_bound_compat l l' v v' :
  Forall2 Qeq l l' -> (v == v')%Q -> lower_bound l v = lower_bound l' v'.
Proof.
  intros Hl Hv. induction Hl as [|s s' l l' Hs _ IH]; [reflexivity|].
  simpl. rewrite (dlt_compat Hs Hv), IH. reflexivity.
Qed.

Lemma splitter_loop_compat size lo lo' w w' global_hist target :
  (lo == lo')%Q -> (w == w')%Q ->
  forall bins cumsum emitted emitted',
  Forall2 Qeq emitted emitted' ->
  Forall2 Qeq
    (splitter_loop size lo w global_hist target bins cumsum emitted)
    (splitter_loop size lo' w' global_hist target bins cumsum emitted').
Proof.
  intros Hlo Hw. induction bins as [|b bins IH]; intros cumsum emitted emitted' He.
  - exact He.
  - cbn [splitter_loop]. unfold double in *. rewrite <- (Forall2_length He).
    destruct (length emitted <? size - 1); [|exact He].
    destruct (_ <=? _)%Z; apply IH; [|exact He].
    apply Forall2_app; [exact He|]. constructor; [|constructor].
    rewrite Hlo, Hw. reflexivity.
Qed.

Lemma Forall2_Qeq_repeat a a' n : (a == a')%Q -> Forall2 Qeq (repeat a n) (repeat a' n).
Proof.
  intros H. induction n; simpl; constructor; assumption.
Qed.

Lemma splitters_of_compat size lo lo' hi hi' global_hist :
  (lo == lo')%Q -> (hi == hi')%Q ->
  Forall2 Qeq (splitters_of size lo hi global_hist)
              (splitters_of size lo' hi' global_hist).
Proof.
  intros Hlo Hhi. unfold splitters_of. cbv zeta.
  set (target := ((_ + _ - 1) ÷ _)%Z).
  pose proof (@splitter_loop_compat size lo lo' (bin_width_of lo hi)
                (bin_width_of lo' hi') global_hist target Hlo
                (bin_width_of_compat Hlo Hhi) (seq 0 NUM_BINS) 0%Z [] []
                (Forall2_nil _)) as H.
  apply Forall2_app; [exact H|].
  unfold double in *. rewrite (Forall2_length H). apply Forall2_Qeq_repeat, Hhi.
Qed.

(** *** The histogram counts particles, whoever owns them *)

Lemma fold_countZ (t : nat -> bool) idx : forall acc : Z,
  fold_left (fun a i => if t i then (a + 1)%Z else a) idx acc =
  (acc + Z.of_nat (length (filter t idx)))%Z.
Proof.
  induction idx as [|i idx IH]; intros acc; simpl; [lia|].
  rewrite IH. destruct (t i); simpl length; lia.
Qed.

Lemma filter_map_length {A B : Type} (f : B -> bool) (g : A -> B) l :
  length (filter f (map g l)) = length (filter (fun a => f (g a)) l).
Proof.
  induction l as [|a l IH]; simpl; [reflexivity|].
  destruct (f (g a)); simpl; rewrite IH; reflexivity.
Qed.

Lemma local_hist_length lo w ps : length (local_hist_of lo w ps) = NUM_BINS.
Proof.
  unfold local_hist_of.
  rewrite (fold_upd_length (fun i => bin_of lo w (r2 ps).[i])
             (fun _ c => (c + 1)%Z) 0%Z).
  apply repeat_length.
Qed.

Lemma radii_shell ps :
  map rec_r2 (records ps) = map (fun i => (r2 ps).[i]) (seq 0 (n_particles ps)).
Proof.
  unfold records. rewrite map_map. reflexivity.
Qed.

Lemma local_hist_nth lo w ps b : b < NUM_BINS ->
  nth b (local_hist_of lo w ps) 0%Z =
  Z.of_nat (count_bin lo w b (map rec_r2 (records ps))).
Proof.
  intros Hb. unfold local_hist_of.
  rewrite (fold_upd_nth (fun i => bin_of lo w (r2 ps).[i])
             (fun _ c => (c + 1)%Z) 0%Z) by (rewrite repeat_length; exact Hb).
  rewrite nth_repeat.
  rewrite (fold_countZ (fun i => bin_of lo w (r2 ps).[i] =? b)).
  unfold count_bin. rewrite radii_shell, filter_map_length. reflexivity.
Qed.

Lemma count_bin_app lo w b R1 R2 :
  count_bin lo w b (R1 ++ R2) = count_bin lo w b R1 + count_bin lo w b R2.
Proof.
  unfold count_bin. rewrite filter_app, length_app. reflexivity.
Qed.

Lemma fold_Zadd_shift l : forall acc : Z,
  fold_left Z.add l acc = (acc + fold_left Z.add l 0)%Z.
Proof.
  induction l as [|a l IH]; intros acc; simpl; [lia|].
  rewrite IH, (IH a). lia.
Qed.

Lemma global_hist_nth lo w sorted b : b < NUM_BINS ->
  fold_left Z.add
    (map (fun h => nth b h 0%Z) (map (local_hist_of lo w) sorted)) 0%Z
  = Z.of_nat (count_bin lo w b (radii sorted)).
Proof.
  intros Hb. unfold radii, all_records.
  induction sorted as [|ps sorted IH]; [reflexivity|].
  cbn [map fold_left flat_map]. rewrite map_app, count_bin_app.
  rewrite fold_Zadd_shift, IH, local_hist_nth by exact Hb. lia.
Qed.

Lemma global_hist_eq lo w sorted :
  MPI_Allreduce_sum NUM_BINS (map (local_hist_of lo w) sorted) =
  map (fun b => Z.of_nat (count_bin lo w b (radii sorted))) (seq 0 NUM_BINS).
Proof.
  unfold MPI_Allreduce_sum. apply map_ext_in. intros b Hb.
  apply in_seq in Hb. apply global_hist_nth. lia.
Qed.

Lemma Permutation_filter_length {A : Type} (f : A -> bool) l l' :
  Permutation l l' -> length (filter f l) = length (filter f l').
Proof.
  induction 1 as [|a l l' _ IH|a b l|l l' l'' _ IH1 _ IH2]; simpl.
  - reflexivity.
  - destruct (f a); simpl; rewrite IH; reflexivity.
  - destruct (f a), (f b); reflexivity.
  - rewrite IH1. exact IH2.
Qed.

Lemma count_bin_compat lo lo' w w' b R R' :
  (lo == lo')%Q -> (w == w')%Q -> Permutation R R' ->
  count_bin lo w b R = count_bin lo' w' b R'.
Proof.
  intros Hlo Hw HP. unfold count_bin.
  rewrite (Permutation_filter_length _ HP). f_equal.
  apply filter_ext. intros v.
  rewrite (@bin_of_compat lo lo' w w' v v Hlo Hw (Qeq_refl v)). reflexivity.
Qed.

(** Two assignments of the same particles to the same number of ranks give
    the same splitters. *)
Lemma global_splitters_compat A B :
  A <> [] -> length A = length B ->
  (forall ps, In ps A -> I1 ps) -> (forall ps, In ps B -> I1 ps) ->
  (forall v, In v (radii A) -> (- DBL_MAX <= v)%Q /\ (v <= DBL_MAX)%Q) ->
  Permutation (radii A) (radii B) ->
  Forall2 Qeq (global_splitters A) (global_splitters B).
Proof.
  intros HA Hlen HIA HIB Hfin HP.
  assert (HB : B <> []) by (destruct A, B; try discriminate; congruence).
  assert (HfinB : forall v, In v (radii B) ->
            (- DBL_MAX <= v)%Q /\ (v <= DBL_MAX)%Q).
  { intros v Hv. apply Hfin, (Permutation_in _ (Permutation_sym HP)), Hv. }
  assert (Hlo : (global_min A == global_min B)%Q).
  { apply (@least_of_unique DBL_MAX _ _ _ _ HP);
      apply global_min_least; try assumption.
    - intros v Hv. apply Hfin, Hv.
    - intros v Hv. apply HfinB, Hv. }
  assert (Hraw : (MPI_Allreduce_max (map r2_max_local A)
                  == MPI_Allreduce_max (map r2_max_local B))%Q).
  { apply (@greatest_of_unique (- DBL_MAX)%Q _ _ _ _ HP);
      apply global_max_greatest; try assumption.
    - intros v Hv. apply Hfin, Hv.
    - intros v Hv. apply HfinB, Hv. }
  assert (Hhi : (global_max A == global_max B)%Q)
    by (apply widen_compat; assumption).
  unfold global_splitters. cbv zeta. rewrite !global_hist_eq, <- Hlen.
  replace (map (fun b => Z.of_nat (count_bin (global_min B)
             (bin_width_of (global_min B) (global_max B)) b (radii B)))
             (seq 0 NUM_BINS))
    with (map (fun b => Z.of_nat (count_bin (global_min A)
             (bin_width_of (global_min A) (global_max A)) b (radii A)))
             (seq 0 NUM_BINS)).
  - apply splitters_of_compat; assumption.
  - apply map_ext. intros b. f_equal.
    apply count_bin_compat; [exact Hlo | | exact HP].
    apply bin_width_of_compat; assumption.
Qed.

Lemma all_records_consistent_recompute shells :
  Forall consistent (all_records shells) ->
  all_records (map computeSquareRadius shells) = all_records shells.
Proof.
  unfold all_records. intros H. rewrite Forall_flat_map in H.
  rewrite !flat_map_concat_map, map_map. f_equal.
  apply map_ext_in. intros ps Hps. apply consistent_recompute.
  rewrite Forall_forall in H. apply H, Hps.
Qed.

Lemma all_records_recomputed_consistent shells :
  Forall consistent (all_records (map computeSquareRadius shells)).
Proof.
  unfold all_records. rewrite Forall_flat_map, Forall_map, Forall_forall.
  intros ps _. apply computeSquareRadius_consistent.
Qed.

Lemma records_in_all shells p rec : p < length shells ->
  In rec (records (shell shells p)) -> In rec (all_records shells).
Proof.
  intros Hp Hrec. unfold all_records. apply in_flat_map.
  exists (shell shells p). split; [apply nth_In, Hp | exact Hrec].
Qed.

Section SecondCall.
Context {SORT : StdSort} {SORTL : StdSortLaws SORT}.
Context {PQ : StdPriorityQueue} {PQL : StdPriorityQueueLaws PQ}.

(** The idempotence law of the redistributor: a second call right after a
    first one finds every particle on the rank the splitters give it, and
    moves none.  The radii are those of finite doubles. *)
Lemma second_call_moves_nothing shells shells' p :
  length shells <> 1 -> p < length shells ->
  (forall v, In v (radii (map computeSquareRadius shells)) -> (v <= DBL_MAX)%Q) ->
  sortParticlesParallel shells = Some shells' ->
  let send_counts :=
    send_counts_of (length shells') (routing shells')
                   (shell (locally_sorted shells') p) in
  identity_pattern p send_counts /\
  nth p send_counts 0 = n_particles (shell shells' p).
Proof.
  intros Hsize Hp Hfin Hrun send_counts.
  destruct (sort_outcome shells) as (shells'' & Hrun' & Hlen & Hout).
  rewrite Hrun in Hrun'. injection Hrun' as <-.
  pose proof (sort_permutes shells Hrun) as Hperm.
  assert (Hcons' : Forall consistent (all_records shells')).
  { eapply Permutation_Forall; [symmetry; exact Hperm|].
    apply all_records_recomputed_consistent. }
  set (A := locally_sorted shells).
  set (B := locally_sorted shells').
  assert (HPA : Permutation (all_records A)
                            (all_records (map computeSquareRadius shells)))
    by apply locally_sorted_all_records.
  assert (HPB : Permutation (all_records B) (all_records A)).
  { unfold B. rewrite locally_sorted_all_records.
    rewrite all_records_consistent_recompute by exact Hcons'.
    rewrite Hperm. symmetry. exact HPA. }
  assert (Hsplit : Forall2 Qeq (routing shells) (routing shells')).
  { unfold routing. rewrite Hlen.
    replace (length shells =? 1) with false
      by (symmetry; apply Nat.eqb_neq; exact Hsize).
    apply global_splitters_compat.
    - intros E. apply (f_equal (@length _)) in E.
      unfold A in E. rewrite locally_sorted_length in E. simpl in E. lia.
    - unfold A, B. rewrite !locally_sorted_length. symmetry. exact Hlen.
    - apply locally_sorted_I1.
    - apply locally_sorted_I1.
    - intros v Hv.
      assert (Hv' : In v (radii (map computeSquareRadius shells))).
      { unfold radii in *. eapply Permutation_in; [|exact Hv].
        apply Permutation_map, HPA. }
      split; [|apply Hfin, Hv'].
      unfold radii in Hv'. apply in_map_iff in Hv'.
      destruct Hv' as (rec & <- & Hrec).
      pose proof (all_records_recomputed_consistent shells) as Hc.
      rewrite Forall_forall in Hc.
      apply Qle_trans with 0%Q; [|apply consistent_nonneg, Hc, Hrec].
      unfold DBL_MAX, Qle. simpl. lia.
    - unfold radii. apply Permutation_map. symmetry. exact HPB. }
  assert (Hp' : p < length shells') by lia.
  assert (HB : shell B p = local_sort (shell shells' p)).
  { unfold B. rewrite locally_sorted_shell by exact Hp'. rewrite Hlen.
    replace (length shells =? 1) with false
      by (symmetry; apply Nat.eqb_neq; exact Hsize).
    rewrite andb_false_r. reflexivity. }
  unfold send_counts. fold B. rewrite HB.
  change (n_particles (shell shells' p))
    with (n_particles (local_sort (shell shells' p))).
  apply send_counts_identity; [exact Hp'|].
  intros i Hi. rewrite local_sort_n in Hi.
  destruct (local_sort_r2_in (shell shells' p) Hi) as (j & Hj & ->).
  assert (Hcp : Forall consistent (records (shell shells' p))).
  { rewrite Forall_forall in *. intros rec Hrec.
    apply Hcons', (@records_in_all shells' p rec Hp' Hrec). }
  change ((r2 (computeSquareRadius (shell shells' p))).[j])
    with (rec_r2 (record_of (computeSquareRadius (shell shells' p)) j)).
  assert (Hin : In (record_of (computeSquareRadius (shell shells' p)) j)
                   (records (shell shells' p))).
  { rewrite <- (@consistent_recompute _ Hcp). apply records_in. exact Hj. }
  destruct (Hout p Hp) as (Hrecv & _).
  apply (Permutation_in _ Hrecv) in Hin. apply received_in in Hin.
  destruct Hin as (ps & idx & _ & _ & Hd & ->).
  change (rec_r2 (record_of ps idx)) with ((r2 ps).[idx]).
  rewrite <- Hd. symmetry.
  apply lower_bound_compat; [exact Hsplit | reflexivity].
Qed.
End SecondCall.

(** ** The order of the merge *)

Section MergeOrder.
Context {PQ : StdPriorityQueue} {PQL : StdPriorityQueueLaws PQ}.

(** C4, as the code has it: the merge writes every received cell once, in
    non-decreasing order of [r2]; the comparison looks at [r2] only. *)
Theorem k_way_merge_by_r2 (recv_counts : list nat) (recv_r2 : list double) :
  chunks_sorted recv_counts recv_r2 ->
  exists merge_order,
    k_way_merge (length recv_counts) (list_sum recv_counts) recv_counts
                (displacements 0 recv_counts) recv_r2 = Some merge_order /\
    Permutation merge_order (seq 0 (list_sum recv_counts)) /\
    forall i j, i < j -> j < length merge_order ->
      (recv_r2.[nth i merge_order 0%nat]
       <= recv_r2.[nth j merge_order 0%nat])%Q.
Proof.
  intros Hsorted.
  destruct (k_way_merge_correct Hsorted) as (merge_order & Hrun & Hperm & Hs).
  exists merge_order. split; [exact Hrun|]. split; [exact Hperm|].
  intros i j Hij Hj. apply (StronglySorted_nth 0 Hs); assumption.
Qed.
End MergeOrder.

(** ** libstdc++'s heap keeps the contract of the priority queue *)

(** From here on [lia] also reasons about [/ 2] on indices. *)
Ltac Zify.zify_post_hook ::= Z.to_euclidean_division_equations.

Lemma comp_refl a : GnuHeap.comp a a = false.
Proof.
  apply gt_false, Qle_refl.
Qed.

Lemma comp_trans a b c :
  GnuHeap.comp a b = false -> GnuHeap.comp b c = false -> GnuHeap.comp a c = false.
Proof.
  unfold GnuHeap.comp. rewrite !gt_false. apply Qle_trans.
Qed.

Lemma comp_true_false a b : GnuHeap.comp a b = true -> GnuHeap.comp b a = false.
Proof.
  unfold GnuHeap.comp, MergeElement.gt. intros H. apply dlt_true in H.
  apply dlt_false, Qlt_le_weak, H.
Qed.

Lemma get_upd_eq i a v : i < length v -> GnuHeap.get (upd i a v) i = a.
Proof.
  apply nth_upd_eq.
Qed.

Lemma get_upd_neq i j a v :
  i <> j -> GnuHeap.get (upd i a v) j = GnuHeap.get v j.
Proof.
  apply nth_upd_neq.
Qed.

Lemma upd_same {A : Type} (v : list A) (d : A) : forall i, upd i (nth i v d) v = v.
Proof.
  induction v as [|b v IH]; intros [|i]; simpl; try reflexivity.
  rewrite IH. reflexivity.
Qed.

Lemma upd_perm_take {A : Type} (v : list A) (a d : A) : forall i, i < length v ->
  Permutation (nth i v d :: upd i a v) (a :: v).
Proof.
  induction v as [|b v IH]; intros [|i] H; simpl in *; try lia.
  - apply perm_swap.
  - rewrite perm_swap. rewrite (IH i) by lia. apply perm_swap.
Qed.

Lemma upd_perm_cross {A : Type} (v : list A) (a b d : A) h : h < length v ->
  Permutation (a :: upd h b v) (b :: upd h a v).
Proof.
  intros H. apply Permutation_cons_inv with (a := nth h v d).
  transitivity (a :: b :: v).
  - rewrite perm_swap. apply perm_skip, upd_perm_take, H.
  - rewrite perm_swap. symmetry. rewrite perm_swap.
    apply perm_skip, upd_perm_take, H.
Qed.

Lemma upd_exchange {A : Type} (v : list A) (a d : A) p h :
  p < length v -> h < length v -> p <> h ->
  Permutation (upd p a (upd h (nth p v d) v)) (upd h a v).
Proof.
  intros Hp Hh Hne. apply Permutation_cons_inv with (a := nth p v d).
  rewrite <- (@nth_upd_neq _ h p (nth p v d) d v (not_eq_sym Hne)) at 1.
  rewrite upd_perm_take by (rewrite upd_length; exact Hp).
  apply upd_perm_cross with (d := d). exact Hh.
Qed.

Lemma push_heap_exit n value v h :
  h < n -> n <= length v ->
  GnuHeap.hole_heap n v h ->
  (forall c, 0 < c < n -> (c - 1) / 2 = h ->
     GnuHeap.comp value (GnuHeap.get v c) = false) ->
  (0 < h -> GnuHeap.comp (GnuHeap.get v ((h - 1) / 2)) value = false) ->
  GnuHeap.heap_upto n (upd h value v).
Proof.
  intros Hh Hn [H1 H2] Hchild Hparent i Hi.
  destruct (Nat.eq_dec i h) as [-> | Hih].
  - rewrite get_upd_eq by lia. rewrite get_upd_neq by lia.
    apply Hparent. lia.
  - rewrite (@get_upd_neq h i value v) by congruence.
    destruct (Nat.eq_dec ((i - 1) / 2) h) as [Hp | Hp].
    + rewrite Hp, get_upd_eq by lia. apply Hchild; assumption.
    + rewrite get_upd_neq by congruence. apply H1; assumption.
Qed.

Lemma push_heap_loop_spec n value : forall fuel v h,
  h <= fuel -> h < n -> n <= length v ->
  GnuHeap.hole_heap n v h ->
  (forall c, 0 < c < n -> (c - 1) / 2 = h ->
     GnuHeap.comp value (GnuHeap.get v c) = false) ->
  let v' := GnuHeap.push_heap_loop fuel v h 0 value in
  GnuHeap.heap_upto n v' /\
  length v' = length v /\
  Permutation v' (upd h value v) /\
  (forall i, n <= i -> GnuHeap.get v' i = GnuHeap.get v i).
Proof.
  induction fuel as [|fuel IH]; intros v h Hfuel Hh Hn Hhole Hchild.
  - simpl. assert (h = 0) by lia. subst h.
    split; [|split; [|split]].
    + apply push_heap_exit; try assumption. lia.
    + apply upd_length.
    + reflexivity.
    + intros i Hi. apply get_upd_neq. lia.
  - cbn [GnuHeap.push_heap_loop].
    destruct ((0 <? h) && GnuHeap.comp (GnuHeap.get v ((h - 1) / 2)) value) eqn:E.
    + apply andb_true_iff in E. destruct E as [Hpos Hgt].
      apply Nat.ltb_lt in Hpos.
      set (p := (h - 1) / 2) in *.
      assert (Hp : p < h) by (unfold p; lia).
      destruct Hhole as [H1 H2].
      destruct (IH (upd h (GnuHeap.get v p) v) p) as (Hheap & Hlen & Hperm & Hrest).
      * lia.
      * lia.
      * rewrite upd_length. exact Hn.
      * split.
        -- intros i Hi Hip Hpp.
           assert (Hih : i <> h) by (intros ->; apply Hpp; reflexivity).
           rewrite (@get_upd_neq h i (GnuHeap.get v p) v) by congruence.
           destruct (Nat.eq_dec ((i - 1) / 2) h) as [Hq | Hq].
           ++ rewrite Hq, get_upd_eq by lia. apply H2; [lia | exact Hq | lia].
           ++ rewrite get_upd_neq by congruence. apply H1; assumption.
        -- intros c Hc Hcp Hp0.
           rewrite (@get_upd_neq h ((p - 1) / 2) (GnuHeap.get v p) v) by lia.
           destruct (Nat.eq_dec c h) as [-> | Hch].
           ++ rewrite get_upd_eq by lia. apply H1; lia.
           ++ rewrite get_upd_neq by congruence.
              apply comp_trans with (GnuHeap.get v p).
              ** apply H1; lia.
              ** rewrite <- Hcp. apply H1; lia.
      * intros c Hc Hcp.
        destruct (Nat.eq_dec c h) as [-> | Hch].
        -- rewrite get_upd_eq by lia. apply comp_true_false, Hgt.
        -- rewrite get_upd_neq by congruence.
           apply comp_trans with (GnuHeap.get v p).
           ++ apply comp_true_false, Hgt.
           ++ rewrite <- Hcp. apply H1; lia.
      * split; [exact Hheap|]. split; [|split].
        -- rewrite Hlen. apply upd_length.
        -- rewrite Hperm. apply upd_exchange; lia.
        -- intros i Hi. rewrite Hrest by exact Hi. apply get_upd_neq. lia.
    + apply andb_false_iff in E.
      split; [|split; [|split]].
      * apply push_heap_exit; try assumption.
        intros Hpos. destruct E as [E | E]; [|exact E].
        apply Nat.ltb_ge in E. lia.
      * apply upd_length.
      * reflexivity.
      * intros i Hi. apply get_upd_neq. lia.
Qed.

Lemma adjust_heap_loop_spec len value : forall fuel v h,
  h < len -> len <= length v -> len <= fuel + h ->
  GnuHeap.hole_heap len v h ->
  let '(v', h') := GnuHeap.adjust_heap_loop fuel v h len in
  GnuHeap.hole_heap len v' h' /\
  length v' = length v /\
  h' < len /\ ~ h' < (len - 1) / 2 /\
  Permutation (upd h' value v') (upd h value v) /\
  (forall i, len <= i -> GnuHeap.get v' i = GnuHeap.get v i).
Proof.
  induction fuel as [|fuel IH]; intros v h Hh Hlen Hfuel Hhole.
  - simpl. lia.
  - cbn [GnuHeap.adjust_heap_loop].
    destruct (Nat.ltb_spec h ((len - 1) / 2)) as [Hdown | Hstop].
    + set (r := 2 * (h + 1)).
      set (c := if GnuHeap.comp (GnuHeap.get v r) (GnuHeap.get v (r - 1))
                then r - 1 else r).
      assert (Hr : r < len) by (unfold r; lia).
      assert (Hc : (c = r \/ c = r - 1) /\
                   GnuHeap.comp (GnuHeap.get v c) (GnuHeap.get v r) = false /\
                   GnuHeap.comp (GnuHeap.get v c) (GnuHeap.get v (r - 1)) = false).
      { unfold c. destruct (GnuHeap.comp (GnuHeap.get v r) (GnuHeap.get v (r - 1))) eqn:E.
        - split; [right; reflexivity|]. split; [|apply comp_refl].
          apply comp_true_false, E.
        - split; [left; reflexivity|]. split; [apply comp_refl | exact E]. }
      destruct Hc as (Hcr & Hc1 & Hc2).
      destruct Hhole as [H1 H2].
      specialize (IH (upd h (GnuHeap.get v c) v) c).
      destruct (GnuHeap.adjust_heap_loop fuel (upd h (GnuHeap.get v c) v) c len)
        as [v' h'].
      destruct IH as (Hhole' & Hlen' & Hh' & Hstop' & Hperm & Hrest).
      * unfold r in *. lia.
      * rewrite upd_length. exact Hlen.
      * unfold r in *. lia.
      * split.
        -- intros i Hi Hic Hpc.
           destruct (Nat.eq_dec i h) as [-> | Hih].
           ++ rewrite get_upd_eq by lia.
              rewrite get_upd_neq by lia.
              apply H2; unfold r in *; lia.
           ++ rewrite (@get_upd_neq h i (GnuHeap.get v c) v) by congruence.
              destruct (Nat.eq_dec ((i - 1) / 2) h) as [Hq | Hq].
              ** rewrite Hq, get_upd_eq by lia.
                 assert (Hi' : i = r \/ i = r - 1) by (unfold r in *; lia).
                 destruct Hi' as [-> | ->]; assumption.
              ** rewrite get_upd_neq by congruence. apply H1; assumption.
        -- intros g Hg Hgc Hc0.
           replace ((c - 1) / 2) with h by (unfold r in *; lia).
           rewrite get_upd_eq by lia.
           rewrite get_upd_neq by (unfold r in *; lia).
           rewrite <- Hgc. apply H1; unfold r in *; lia.
      * split; [exact Hhole'|]. split; [rewrite Hlen'; apply upd_length|].
        split; [exact Hh'|]. split; [exact Hstop'|]. split.
        -- rewrite Hperm. apply upd_exchange; unfold r in *; lia.
        -- intros i Hi. rewrite Hrest by exact Hi. apply get_upd_neq. lia.
    + repeat split; try assumption; try lia; try apply Hhole.
      reflexivity.
Qed.

Lemma adjust_heap_spec len value v :
  0 < len -> len <= length v ->
  GnuHeap.hole_heap len v 0 ->
  let v' := GnuHeap.adjust_heap v 0 len value in
  GnuHeap.heap_upto len v' /\
  length v' = length v /\
  Permutation v' (upd 0 value v) /\
  (forall i, len <= i -> GnuHeap.get v' i = GnuHeap.get v i).
Proof.
  intros Hpos Hlen Hhole. unfold GnuHeap.adjust_heap.
  pose proof (@adjust_heap_loop_spec len value len v 0 Hpos Hlen ltac:(lia) Hhole)
    as Hloop.
  destruct (GnuHeap.adjust_heap_loop len v 0 len) as [v1 sc].
  destruct Hloop as (Hhole1 & Hlen1 & Hsc & Hstop & Hperm1 & Hrest1).
  destruct (Nat.even len && (sc =? (len - 2) / 2)) eqn:E.
  - apply andb_true_iff in E. destruct E as [Heven Hsc'].
    apply Nat.even_spec in Heven. destruct Heven as [k Hk].
    apply Nat.eqb_eq in Hsc'.
    set (c := 2 * (sc + 1) - 1).
    assert (Hc : c = len - 1 /\ sc < c /\ (c - 1) / 2 = sc) by (unfold c; lia).
    destruct Hhole1 as [H1 H2].
    destruct (@push_heap_loop_spec len value c (upd sc (GnuHeap.get v1 c) v1) c)
      as (Hheap & Hlen2 & Hperm2 & Hrest2).
    + lia.
    + lia.
    + rewrite upd_length. lia.
    + split.
      * intros i Hi Hic Hpc.
        destruct (Nat.eq_dec i sc) as [-> | Hisc].
        -- rewrite get_upd_eq by lia. rewrite get_upd_neq by lia.
           apply H2; lia.
        -- rewrite (@get_upd_neq sc i (GnuHeap.get v1 c) v1) by congruence.
           rewrite get_upd_neq by lia. apply H1; lia.
      * intros g Hg Hgc Hc0. lia.
    + intros g Hg Hgc. lia.
    + fold (GnuHeap.push_heap_aux (upd sc (GnuHeap.get v1 c) v1) c 0 value) in *.
      split; [exact Hheap|]. split; [|split].
      * rewrite Hlen2, upd_length. exact Hlen1.
      * rewrite Hperm2, <- Hperm1. apply upd_exchange; lia.
      * intros i Hi. rewrite Hrest2 by exact Hi.
        rewrite get_upd_neq by lia. apply Hrest1, Hi.
  - assert (Hleaf : forall g, 0 < g < len -> (g - 1) / 2 <> sc).
    { intros g Hg Hgs. apply andb_false_iff in E. destruct E as [E | E].
      - assert (Hodd : Nat.odd len = true)
          by (rewrite <- Nat.negb_even, E; reflexivity).
        apply Nat.odd_spec in Hodd. destruct Hodd as [k Hk]. lia.
      - apply Nat.eqb_neq in E. lia. }
    destruct (@push_heap_loop_spec len value sc v1 sc)
      as (Hheap & Hlen2 & Hperm2 & Hrest2); try lia; try assumption.
    + intros g Hg Hgs. exfalso. apply (Hleaf g); assumption.
    + fold (GnuHeap.push_heap_aux v1 sc 0 value) in *.
      split; [exact Hheap|]. split; [lia|]. split.
      * rewrite Hperm2. exact Hperm1.
      * intros i Hi. rewrite Hrest2 by exact Hi. apply Hrest1, Hi.
Qed.

Lemma heap_root_min v : GnuHeap.is_heap v ->
  forall i, i < length v ->
  GnuHeap.comp (GnuHeap.get v 0) (GnuHeap.get v i) = false.
Proof.
  intros Hheap i. induction i as [i IH] using lt_wf_ind. intros Hi.
  destruct (Nat.eq_dec i 0) as [-> | Hpos]; [apply comp_refl|].
  apply comp_trans with (GnuHeap.get v ((i - 1) / 2)).
  - apply IH; lia.
  - apply Hheap. lia.
Qed.

Lemma gnu_push_spec e v : GnuHeap.is_heap v ->
  GnuHeap.is_heap (GnuHeap.push e v) /\ Permutation (GnuHeap.push e v) (e :: v).
Proof.
  intros Hheap. unfold GnuHeap.push, GnuHeap.push_heap.
  rewrite length_app. simpl. rewrite Nat.add_1_r.
  set (n := length v).
  assert (He : GnuHeap.get (v ++ [e]) n = e).
  { unfold GnuHeap.get. rewrite app_nth2 by (unfold n; lia).
    unfold n. rewrite Nat.sub_diag. reflexivity. }
  rewrite He. unfold GnuHeap.push_heap_aux.
  destruct (@push_heap_loop_spec (S n) e n (v ++ [e]) n)
    as (H1 & H2 & H3 & _).
  - lia.
  - lia.
  - rewrite length_app. simpl. unfold n. lia.
  - split.
    + intros i Hi Hin Hpn. unfold GnuHeap.get.
      rewrite !app_nth1 by (fold n; lia). apply Hheap. fold n. lia.
    + intros c Hc Hcn Hn. lia.
  - intros c Hc Hcn. lia.
  - split.
    + unfold GnuHeap.is_heap. rewrite H2, length_app. simpl.
      fold n. rewrite Nat.add_1_r. exact H1.
    + rewrite H3. rewrite <- He at 1. unfold GnuHeap.get.
      rewrite upd_same. rewrite Permutation_app_comm. reflexivity.
Qed.

Lemma removelast_get v i : i < length v - 1 ->
  GnuHeap.get (removelast v) i = GnuHeap.get v i.
Proof.
  intros H. unfold GnuHeap.get.
  destruct v as [|a v] using rev_ind; [simpl in H; lia|].
  rewrite removelast_last.
  rewrite length_app in H. simpl in H.
  rewrite app_nth1 by lia. reflexivity.
Qed.

Lemma removelast_snoc_get v : v <> [] ->
  v = removelast v ++ [GnuHeap.get v (length v - 1)].
Proof.
  intros Hne. destruct v as [|a v] using rev_ind; [congruence|].
  rewrite removelast_last, length_app. simpl.
  unfold GnuHeap.get. rewrite app_nth2 by lia.
  replace (length v + 1 - 1 - length v) with 0 by lia. reflexivity.
Qed.

Lemma gnu_pop_spec v : GnuHeap.is_heap v -> v <> [] ->
  GnuHeap.is_heap (GnuHeap.pop v) /\
  Permutation v (GnuHeap.top v :: GnuHeap.pop v).
Proof.
  intros Hheap Hne. unfold GnuHeap.pop, GnuHeap.pop_heap, GnuHeap.top.
  destruct (Nat.ltb_spec 1 (length v)) as [Hlong | Hshort].
  - set (last := length v - 1).
    set (v1 := upd last (GnuHeap.get v 0) v).
    destruct (@adjust_heap_spec last (GnuHeap.get v last) v1)
      as (H1 & H2 & H3 & H4).
    + unfold last. lia.
    + unfold v1. rewrite upd_length. unfold last. lia.
    + split.
      * intros i Hi _ _. unfold v1.
        rewrite !get_upd_neq by lia. apply Hheap. unfold last in *. lia.
      * intros c _ _ Hc. lia.
    + set (w := GnuHeap.adjust_heap v1 0 last (GnuHeap.get v last)) in *.
      assert (Hlenw : length w = length v)
        by (rewrite H2; unfold v1; apply upd_length).
      assert (Hwne : w <> []) by (intros E; rewrite E in Hlenw; simpl in Hlenw; lia).
      assert (Hwlast : GnuHeap.get w (length w - 1) = GnuHeap.get v 0).
      { rewrite Hlenw. fold last. rewrite H4 by lia. unfold v1.
        apply get_upd_eq. unfold last. lia. }
      split.
      * intros i Hi.
        assert (Hlr : length (removelast w) = last).
        { rewrite (removelast_snoc_get Hwne) in Hlenw at 1.
          rewrite length_app in Hlenw. simpl in Hlenw. unfold last. lia. }
        rewrite Hlr in Hi.
        rewrite !removelast_get by (rewrite Hlenw; fold last; lia).
        apply H1. lia.
      * rewrite <- Hwlast.
        rewrite Permutation_cons_append, <- (removelast_snoc_get Hwne).
        rewrite H3. unfold v1. symmetry.
        rewrite (@upd_exchange _ v (GnuHeap.get v last) GnuHeap.dummy 0 last)
          by (unfold last; lia).
        unfold GnuHeap.get. rewrite upd_same. reflexivity.
  - destruct v as [|a [|b v]]; [congruence | | simpl in Hshort; lia].
    simpl. split; [|reflexivity].
    intros i Hi. simpl in Hi. lia.
Qed.

#[export] Instance gnu_StdPriorityQueueLaws :
  StdPriorityQueueLaws gnu_StdPriorityQueue.
Proof.
  split; simpl.
  - intros i Hi. simpl in Hi. lia.
  - reflexivity.
  - intros e h Hh. apply gnu_push_spec, Hh.
  - intros e h Hh. apply gnu_push_spec, Hh.
  - intros h _. destruct h; simpl; split; congruence.
  - intros h Hh Hne. rewrite Forall_forall. intros e He.
    destruct (In_nth _ _ GnuHeap.dummy He) as (i & Hi & <-).
    apply (heap_root_min Hh), Hi.
  - intros h Hh Hne. apply gnu_pop_spec; [exact Hh|].
    destruct h; [discriminate | congruence].
  - intros h Hh Hne. apply gnu_pop_spec; [exact Hh|].
    destruct h; [discriminate | congruence].
Qed.

Ltac Zify.zify_post_hook ::= idtac.

(** ** The scenarios, run *)




(** Ties are not needed for that: of four particles at distinct radii on
    three ranks, the last rank gets none, two less than the ceiling of
    [4 / 3], where the bound allows a deviation of one. *)
Lemma spread_shells_not_load_balanced :
  option_map (map n_particles)
    (@sortParticlesParallel insertion_StdSort gnu_StdPriorityQueue
       spread_shells)
  = Some [2; 2; 0] /\
  ~ load_balanced 3 4 0.
Proof.
  split; [vm_compute; reflexivity|].
  unfold load_balanced. vm_compute. intros H. apply H. reflexivity.
Qed.

(** C3 as amended, on S5 itself. *)
Lemma sortParticlesParallel_S5_run :
  exists shells',
    @sortParticlesParallel insertion_StdSort gnu_StdPriorityQueue S5
    = Some shells' /\
    map n_particles shells' = [9; 0; 0].
Proof.
  apply (@sortParticlesParallel_S5
           insertion_StdSort insertion_StdSortLaws
           gnu_StdPriorityQueue gnu_StdPriorityQueueLaws S5).
  - reflexivity.
  - reflexivity.
  - intros [|[|[|p]]] [|[|[|i]]] Hp Hi; simpl in Hp, Hi; try lia;
      vm_compute; reflexivity.
Defined.

(** C3 as stated fails on S5: the ranks do not hold three particles
    each. *)
Lemma S5_not_three_each :
  option_map (map n_particles)
    (@sortParticlesParallel insertion_StdSort gnu_StdPriorityQueue S5)
  = Some [9; 0; 0] /\
  option_map (map n_particles)
    (@sortParticlesParallel insertion_StdSort list_StdPriorityQueue S5)
  = Some [9; 0; 0] /\
  [9; 0; 0] <> [3; 3; 3].
Proof.
  split; [vm_compute; reflexivity|].
  split; [vm_compute; reflexivity | discriminate].
Qed.

Lemma chunks_sorted_ties : chunks_sorted [2; 1] [1; 1; 1]%Q.
Proof.
  intros c a b Hc Ha Hab Hb.
  assert (Hb3 : b < 3).
  { destruct c as [|[|c]]; simpl in Hc; try lia;
      unfold chunk_stop, chunk_start in Hb; simpl in Hb; lia. }
  destruct a as [|[|[|a]]], b as [|[|[|b]]]; try lia; vm_compute; discriminate.
Qed.

(** C4 as amended, on three cells of equal [r2] in two chunks. *)
Lemma k_way_merge_by_r2_ties :
  exists merge_order,
    @k_way_merge list_StdPriorityQueue 2 3 [2; 1] [0; 2] [1; 1; 1]%Q
    = Some merge_order /\
    Permutation merge_order (seq 0 3) /\
    forall i j, i < j -> j < length merge_order ->
      (([1; 1; 1]%Q).[nth i merge_order 0%nat]
       <= ([1; 1; 1]%Q).[nth j merge_order 0%nat])%Q.
Proof.
  exact (@k_way_merge_by_r2 list_StdPriorityQueue list_StdPriorityQueueLaws
           [2; 1] [1; 1; 1]%Q chunks_sorted_ties).
Defined.

(** C4 as stated fails: the comparison cannot tell two elements of equal
    [r2] apart, and the merge of chunk 0 = cells 0, 1 and chunk 1 = cell 2,
    all of [r2 = 1], writes cell 2 before cell 1, with libstdc++'s heap as
    with the list queue.  In the whole call on [tie_shells], rank 0 then
    holds the particle received from rank 1 before the second one of its
    own. *)
Lemma k_way_merge_not_by_chunk_id :
  (MergeElement.gt (MergeElement.mk 1 1 0) (MergeElement.mk 1 2 1) = false /\
   MergeElement.gt (MergeElement.mk 1 2 1) (MergeElement.mk 1 1 0) = false) /\
  @k_way_merge gnu_StdPriorityQueue 2 3 [2; 1] [0; 2] [1; 1; 1]%Q
  = Some [0; 2; 1] /\
  @k_way_merge list_StdPriorityQueue 2 3 [2; 1] [0; 2] [1; 1; 1]%Q
  = Some [0; 2; 1] /\
  ~ merged_by_r2_then_chunk [1; 1; 1]%Q [2; 1] [0; 2] [0; 2; 1] /\
  option_map (map (fun ps => (x ps, y ps, z ps)))
    (@sortParticlesParallel insertion_StdSort gnu_StdPriorityQueue tie_shells)
  = Some [([1; 0; 0], [0; 0; 1], [0; 1; 0])%Q; ([], [], [])].
Proof.
  split; [split; reflexivity|].
  split; [vm_compute; reflexivity|].
  split; [vm_compute; reflexivity|].
  split; [|vm_compute; reflexivity].
  intros H. specialize (H 1 2 ltac:(lia) ltac:(simpl; lia)).
  destruct H as [H | [_ H]].
  - vm_compute in H. discriminate H.
  - vm_compute in H. lia.
Qed.


(** * Properties of the rest of the time step *)

(** ** The class invariant *)

Lemma vec_resize_length n (v : list double) : length (vec_resize n v) = n.
Proof.
  unfold vec_resize. rewrite length_app, length_firstn, repeat_length. lia.
Qed.

Lemma fill_length n f (v : list double) :
  n <= length v -> length (fill n f v) = length v.
Proof.
  intros H. unfold fill. rewrite length_app, length_map, length_seq, length_skipn.
  lia.
Qed.

Lemma sized_intro ps :
  length (x ps) = n_particles ps -> length (y ps) = n_particles ps ->
  length (z ps) = n_particles ps -> length (vx ps) = n_particles ps ->
  length (vy ps) = n_particles ps -> length (vz ps) = n_particles ps ->
  length (q ps) = n_particles ps -> length (Er ps) = n_particles ps ->
  length (r2 ps) = n_particles ps -> sized ps.
Proof.
  intros. unfold sized. repeat constructor; assumption.
Qed.

Lemma sized_elim ps : sized ps ->
  length (x ps) = n_particles ps /\ length (y ps) = n_particles ps /\
  length (z ps) = n_particles ps /\ length (vx ps) = n_particles ps /\
  length (vy ps) = n_particles ps /\ length (vz ps) = n_particles ps /\
  length (q ps) = n_particles ps /\ length (Er ps) = n_particles ps /\
  length (r2 ps) = n_particles ps.
Proof.
  unfold sized. intros H.
  repeat (apply Forall_cons_iff in H; destruct H as [? H]).
  repeat split; assumption.
Qed.

(** ** The mover *)

Section Mover.
Context {MATH : StdMath}.

Lemma updatePositions_velocity ps dt i : i < n_particles ps ->
  velocity (updatePositions ps dt) i =
  (kicked ps dt (x ps) (vx ps) i, kicked ps dt (y ps) (vy ps) i,
   kicked ps dt (z ps) (vz ps) i).
Proof.
  intros Hi. unfold velocity, updatePositions. cbn [vx vy vz].
  rewrite !at_fill by exact Hi. reflexivity.
Qed.

Lemma updatePositions_position ps dt i : i < n_particles ps ->
  position (updatePositions ps dt) i =
  ((x ps).[i] + dt * kicked ps dt (x ps) (vx ps) i,
   (y ps).[i] + dt * kicked ps dt (y ps) (vy ps) i,
   (z ps).[i] + dt * kicked ps dt (z ps) (vz ps) i)%Q.
Proof.
  intros Hi. unfold position, updatePositions. cbn [x y z].
  rewrite !(@at_fill (n_particles ps) (fun i => _ + dt * _)%Q) by exact Hi.
  rewrite !at_fill by exact Hi. reflexivity.
Qed.

Lemma kick_form (v dt qom er pos inv_r : Q) :
  (v + dt * qom * er * pos * inv_r == v + dt * qom * er * inv_r * pos)%Q.
Proof.
  ring.
Qed.

(** The kick is along the position: there is one factor [k] for the three
    components. *)
Lemma kicked_radial ps dt i :
  exists k : Q,
    (kicked ps dt (x ps) (vx ps) i == (vx ps).[i] + k * (x ps).[i])%Q /\
    (kicked ps dt (y ps) (vy ps) i == (vy ps).[i] + k * (y ps).[i])%Q /\
    (kicked ps dt (z ps) (vz ps) i == (vz ps).[i] + k * (z ps).[i])%Q.
Proof.
  unfold kicked. cbv zeta.
  destruct (dlt double_1e_15 (std_sqrt (r2 ps).[i])).
  - exists (dt * (1 / iqom ps) * (Er ps).[i] * (1 / std_sqrt (r2 ps).[i]))%Q.
    repeat split; apply kick_form.
  - exists 0%Q. repeat split; symmetry; rewrite Qmult_0_l; apply Qplus_0_r.
Qed.

(** A move along the velocity, after a kick along the position, keeps the
    cross product of position and velocity. *)
Lemma cross_kick_drift (a b va vb va' vb' k dt : Q) :
  (va' == va + k * a)%Q -> (vb' == vb + k * b)%Q ->
  ((a + dt * va') * vb' - (b + dt * vb') * va' == a * vb - b * va)%Q.
Proof.
  intros -> ->. ring.
Qed.

(** The new position against the old one. *)
Lemma cross_drift (a b va vb va' vb' k dt : Q) :
  (va' == va + k * a)%Q -> (vb' == vb + k * b)%Q ->
  ((a + dt * va') * b - (b + dt * vb') * a == - dt * (a * vb - b * va))%Q.
Proof.
  intros -> ->. ring.
Qed.

(** The cross product of position and velocity through the move. *)
Lemma updatePositions_cross ps dt i : i < n_particles ps ->
  let ps' := updatePositions ps dt in
  vec3_eq (cross (position ps' i) (velocity ps' i))
          (cross (position ps i) (velocity ps i)).
Proof.
  intros Hi. cbv zeta.
  rewrite updatePositions_position, updatePositions_velocity by exact Hi.
  destruct (kicked_radial ps dt i) as (k & Hx & Hy & Hz).
  unfold position, velocity, cross, vec3_eq.
  repeat split; eapply cross_kick_drift; eassumption.
Qed.

(** X9: in exact arithmetic, the mover conserves the angular momentum of
    every particle. *)
Theorem updatePositions_angular_momentum ps dt i :
  ~ (iqom ps == 0)%Q -> i < n_particles ps ->
  let ps' := updatePositions ps dt in
  vec3_eq (cross (position ps' i) (velocity ps' i))
          (cross (position ps i) (velocity ps i)).
Proof.
  intros _ Hi. apply updatePositions_cross, Hi.
Qed.

(** X10: in exact arithmetic, a particle that moves along its radius stays
    on the line through the origin it is on. *)
Theorem updatePositions_radial ps dt i :
  ~ (iqom ps == 0)%Q -> i < n_particles ps ->
  vec3_eq (cross (position ps i) (velocity ps i)) vec3_zero ->
  let ps' := updatePositions ps dt in
  vec3_eq (cross (position ps' i) (position ps i)) vec3_zero /\
  vec3_eq (cross (position ps' i) (velocity ps' i)) vec3_zero.
Proof.
  intros _ Hi. cbv zeta.
  rewrite updatePositions_position, updatePositions_velocity by exact Hi.
  destruct (kicked_radial ps dt i) as (k & Hx & Hy & Hz).
  unfold position, velocity, cross, vec3_eq, vec3_zero.
  intros (H1 & H2 & H3).
  repeat split.
  - rewrite (@cross_drift _ _ _ _ _ _ k dt Hy Hz), H1. apply Qmult_0_r.
  - rewrite (@cross_drift _ _ _ _ _ _ k dt Hz Hx), H2. apply Qmult_0_r.
  - rewrite (@cross_drift _ _ _ _ _ _ k dt Hx Hy), H3. apply Qmult_0_r.
  - rewrite (@cross_kick_drift _ _ _ _ _ _ k dt Hy Hz). exact H1.
  - rewrite (@cross_kick_drift _ _ _ _ _ _ k dt Hz Hx). exact H2.
  - rewrite (@cross_kick_drift _ _ _ _ _ _ k dt Hx Hy). exact H3.
Qed.

Lemma updatePositions_sized ps dt : sized ps -> sized (updatePositions ps dt).
Proof.
  intros H. apply sized_elim in H.
  destruct H as (Hx & Hy & Hz & Hvx & Hvy & Hvz & Hq & HEr & Hr).
  apply sized_intro; unfold updatePositions; cbv zeta;
    cbn [x y z vx vy vz q Er r2 n_particles];
    try assumption; (rewrite fill_length; [assumption | lia]).
Qed.
End Mover.

(** ** Sums *)

Lemma Qsum_app l1 l2 : (Qsum (l1 ++ l2) == Qsum l1 + Qsum l2)%Q.
Proof.
  induction l1 as [|a l1 IH]; simpl.
  - symmetry. apply Qplus_0_l.
  - rewrite IH. apply Qplus_assoc.
Qed.

Lemma Qsum_perm l1 l2 : Permutation l1 l2 -> (Qsum l1 == Qsum l2)%Q.
Proof.
  induction 1 as [|a l1 l2 _ IH|a b l|l1 l2 l3 _ IH1 _ IH2]; simpl.
  - reflexivity.
  - rewrite IH. reflexivity.
  - rewrite !Qplus_assoc, (Qplus_comm b a). reflexivity.
  - rewrite IH1. exact IH2.
Qed.

Lemma Qsum_ext {A : Type} (f g : A -> Q) l :
  (forall a, In a l -> (f a == g a)%Q) ->
  (Qsum (map f l) == Qsum (map g l))%Q.
Proof.
  induction l as [|a l IH]; intros H; simpl.
  - reflexivity.
  - rewrite (H a) by (left; reflexivity).
    rewrite IH by (intros b Hb; apply H; right; exact Hb). reflexivity.
Qed.

Lemma Qsum_flat_map {A : Type} (f : A -> list Q) l :
  (Qsum (flat_map f l) == Qsum (map (fun a => Qsum (f a)) l))%Q.
Proof.
  induction l as [|a l IH]; simpl.
  - reflexivity.
  - rewrite Qsum_app, IH. reflexivity.
Qed.

Lemma Qsum_nonneg l : Forall (fun v => (0 <= v)%Q) l -> (0 <= Qsum l)%Q.
Proof.
  induction 1 as [|a l Ha _ IH]; simpl.
  - apply Qle_refl.
  - apply (Qplus_le_compat 0 _ 0); assumption.
Qed.

(** A loop that adds [t a] at turn [a]. *)
Lemma fold_left_Qsum {A : Type} (step : Q -> A -> Q) (t : A -> Q) l :
  (forall acc a, In a l -> (step acc a == acc + t a)%Q) ->
  forall acc, (fold_left step l acc == acc + Qsum (map t l))%Q.
Proof.
  induction l as [|a l IH]; intros H acc; simpl.
  - symmetry. apply Qplus_0_r.
  - rewrite IH by (intros acc' b Hb; apply H; right; exact Hb).
    rewrite (H acc a) by (left; reflexivity).
    symmetry. apply Qplus_assoc.
Qed.

Lemma MPI_Allreduce_dsum_Qsum l : (MPI_Allreduce_dsum l == Qsum l)%Q.
Proof.
  unfold MPI_Allreduce_dsum.
  rewrite (@fold_left_Qsum _ Qplus (fun a => a) l) by (intros; reflexivity).
  rewrite map_id. apply Qplus_0_l.
Qed.

(** Leaving out one index of a sum. *)
Lemma Qsum_skip_one (f : nat -> Q) n i : i < n ->
  (Qsum (map (fun j => if i =? j then 0 else f j) (seq 0 n))
   == Qsum (map f (seq 0 n)) - f i)%Q.
Proof.
  intros Hi.
  assert (H : forall len start, 
    (Qsum (map (fun j => if i =? j then 0 else f j) (seq start len))
     == Qsum (map f (seq start len))
        - (if (start <=? i) && (i <? start + len) then f i else 0))%Q).
  { induction len as [|len IH]; intros start.
    - simpl. destruct (Nat.leb_spec start i), (Nat.ltb_spec i (start + 0));
        simpl; try lia; ring.
    - cbn [seq map Qsum fold_right]. change (fold_right Qplus 0%Q ?l) with (Qsum l).
      rewrite IH.
      destruct (Nat.eqb_spec i start) as [Heq | Hne];
        destruct (Nat.leb_spec (S start) i), (Nat.leb_spec start i),
          (Nat.ltb_spec i (S start + len)), (Nat.ltb_spec i (start + S len));
        simpl; try lia; rewrite ?Heq; ring. }
  rewrite H. simpl. replace (i <? n) with true by (symmetry; apply Nat.ltb_lt; lia).
  reflexivity.
Qed.

(** ** The gather *)

Lemma firstn_at (v : list double) n : n <= length v ->
  firstn n v = map (fun i => v.[i]) (seq 0 n).
Proof.
  intros H. rewrite <- (map_id v) at 1.
  apply (firstn_map_nth (fun a : double => a) v 0%Q). exact H.
Qed.

Lemma list_sum_firstn_S (counts : list nat) : forall s, s < length counts ->
  list_sum (firstn (S s) counts) = list_sum (firstn s counts) + nth s counts 0.
Proof.
  induction counts as [|c counts IH]; intros s Hs; simpl in Hs; [lia|].
  destruct s as [|s].
  - simpl. lia.
  - change (list_sum (firstn (S (S s)) (c :: counts)))
      with (c + list_sum (firstn (S s) counts)).
    change (list_sum (firstn (S s) (c :: counts)))
      with (c + list_sum (firstn s counts)).
    change (nth (S s) (c :: counts) 0) with (nth s counts 0).
    rewrite (IH s) by lia. lia.
Qed.

Lemma gather_concat (bufs : list (list double)) (counts : list nat) :
  length counts = length bufs ->
  (forall s, s < length bufs -> nth s counts 0 <= length (nth s bufs [])) ->
  MPI_Allgatherv bufs counts (displacements 0 counts)
                 (repeat 0%Q (list_sum counts))
  = concat (map (fun s => firstn (nth s counts 0) (nth s bufs []))
                (seq 0 (length bufs))).
Proof.
  intros Hlen Hfit. unfold MPI_Allgatherv.
  assert (Hsum : forall s, s <= length bufs ->
            length (concat (map (fun s => slice 0 (nth s counts 0) (nth s bufs []))
                                (seq 0 s)))
            = list_sum (firstn s counts)).
  { induction s as [|s IH]; intros Hs; [reflexivity|].
    rewrite seq_S, map_app, concat_app, length_app, IH by lia.
    cbn [map concat Nat.add]. rewrite app_nil_r.
    unfold slice. cbn [skipn]. rewrite length_firstn, Nat.min_l by (apply Hfit; lia).
    rewrite list_sum_firstn_S by lia. reflexivity. }
  rewrite (@blit_all (fun s => nth s (displacements 0 counts) 0)
             (fun s => slice 0 (nth s counts 0) (nth s bufs []))).
  - rewrite Hsum by lia. rewrite <- Hlen, firstn_all.
    rewrite skipn_all2 by (rewrite repeat_length; lia).
    rewrite app_nil_r. reflexivity.
  - intros s Hs. rewrite displacements_nth by lia.
    rewrite Hsum by lia. reflexivity.
Qed.

(** What a gather of one of the arrays delivers: the field of every
    particle record, in rank order. *)
Lemma gather_field (field : ParticleSystem -> list double) (k : nat) shells :
  (forall ps, In ps shells -> n_particles ps <= length (field ps)) ->
  (forall ps i, nth k (record_of ps i) 0%Q = (field ps).[i]) ->
  MPI_Allgatherv (map field shells) (map n_particles shells)
                 (displacements 0 (map n_particles shells))
                 (repeat 0%Q (list_sum (map n_particles shells)))
  = map (fun rec => nth k rec 0%Q) (all_records shells).
Proof.
  intros Hfit Hk.
  rewrite gather_concat.
  - rewrite length_map. unfold all_records.
    rewrite flat_map_concat_map, concat_map, map_map. f_equal.
    etransitivity; [|apply (map_nth_seq _ shells no_shell)].
    apply map_ext_in. intros s Hs. apply in_seq in Hs.
    rewrite (@nth_map_in _ _ n_particles shells s 0 no_shell) by lia.
    rewrite (@nth_map_in _ _ field shells s [] no_shell) by lia.
    set (ps := nth s shells no_shell).
    rewrite firstn_at by (apply Hfit, nth_In; lia).
    unfold records. rewrite map_map. apply map_ext. intros i.
    symmetry. apply Hk.
  - rewrite !length_map. reflexivity.
  - intros s Hs. rewrite length_map in Hs.
    rewrite (@nth_map_in _ _ n_particles shells s 0 no_shell) by lia.
    rewrite (@nth_map_in _ _ field shells s [] no_shell) by lia.
    apply Hfit, nth_In. exact Hs.
Qed.

(** ** The energy *)

Lemma local_kinetic_Qsum ps :
  (local_kinetic ps == Qsum (map (kinetic_of (iqom ps)) (records ps)))%Q.
Proof.
  unfold local_kinetic.
  rewrite (@fold_left_Qsum _ _
             (fun i => kinetic_of (iqom ps) (record_of ps i)))
    by (intros; reflexivity).
  rewrite Qplus_0_l. unfold records. rewrite map_map. reflexivity.
Qed.

Lemma map_flat_map {A B C : Type} (f : B -> C) (g : A -> list B) l :
  map f (flat_map g l) = flat_map (fun a => map f (g a)) l.
Proof.
  induction l as [|a l IH]; simpl; [reflexivity|].
  rewrite map_app, IH. reflexivity.
Qed.

Lemma at_map_field (k : nat) (P : list (list double)) i :
  nth k (@nil double) 0%Q = 0%Q ->
  (map (fun rec => nth k rec 0%Q) P).[i] = nth k (nth i P []) 0%Q.
Proof.
  intros Hk. unfold at_. rewrite <- Hk at 1.
  apply (map_nth (fun rec : list double => nth k rec 0%Q)).
Qed.

Section Energy.
Context {MATH : StdMath}.

Lemma pair_step_add (P : list (list double)) i j acc :
  (pair_step (map (fun rec => nth 0 rec 0%Q) P) (map (fun rec => nth 1 rec 0%Q) P)
             (map (fun rec => nth 2 rec 0%Q) P) (map (fun rec => nth 6 rec 0%Q) P)
             i j acc
   == acc + (if i =? j then 0
             else pair_energy (nth i P []) (nth j P [])))%Q.
Proof.
  unfold pair_step, pair_energy. cbv zeta.
  rewrite !at_map_field by reflexivity.
  destruct (i =? j); [symmetry; apply Qplus_0_r|].
  destruct (dlt _ _); [reflexivity | symmetry; apply Qplus_0_r].
Qed.

Lemma local_potential_Qsum (P : list (list double)) start len total :
  (local_potential_of
     (map (fun rec => nth 0 rec 0%Q) P) (map (fun rec => nth 1 rec 0%Q) P)
     (map (fun rec => nth 2 rec 0%Q) P) (map (fun rec => nth 6 rec 0%Q) P)
     start (start + len) total
   == Qsum (map (fun i =>
                   Qsum (map (fun j => if i =? j then 0
                                       else pair_energy (nth i P []) (nth j P []))
                             (seq 0 total)))
                (seq start len)))%Q.
Proof.
  unfold local_potential_of.
  replace (start + len - start) with len by lia.
  rewrite (@fold_left_Qsum _ _
             (fun i => Qsum (map (fun j => if i =? j then 0%Q
                                           else pair_energy (nth i P []) (nth j P []))
                                 (seq 0 total)))).
  - apply Qplus_0_l.
  - intros acc i _.
    apply (@fold_left_Qsum _ _
             (fun j => if i =? j then 0%Q
                       else pair_energy (nth i P []) (nth j P []))).
    intros acc' j _. apply pair_step_add.
Qed.

(** The pairs of distinct indices, as all pairs less the diagonal. *)
Lemma pairs_Qsum (P : list (list double)) :
  (Qsum (map (fun i =>
                Qsum (map (fun j => if i =? j then 0
                                    else pair_energy (nth i P []) (nth j P []))
                          (seq 0 (length P))))
             (seq 0 (length P)))
   == Qsum (map (fun a => Qsum (map (pair_energy a) P) - pair_energy a a) P))%Q.
Proof.
  rewrite <- (map_nth_seq
                (fun a => Qsum (map (pair_energy a) P) - pair_energy a a)%Q P []).
  apply Qsum_ext. intros i Hi. apply in_seq in Hi.
  rewrite (@Qsum_skip_one (fun j => pair_energy (nth i P []) (nth j P [])))
    by lia.
  rewrite (map_nth_seq (pair_energy (nth i P [])) P []). reflexivity.
Qed.

(** What [computeEnergyParallel] returns, whatever the distribution of the
    particles over the ranks. *)
Lemma computeEnergyParallel_energy_of shells m :
  (forall ps, In ps shells -> sized ps /\ iqom ps = m) ->
  (computeEnergyParallel shells == energy_of m (all_records shells))%Q.
Proof.
  intros Hok. unfold computeEnergyParallel, energy_of. cbv zeta.
  assert (Hfit : forall field, In field [x; y; z; q] ->
            forall ps, In ps shells -> n_particles ps <= length (field ps)).
  { intros field Hf ps Hps. destruct (Hok ps Hps) as [Hs _].
    unfold sized in Hs. rewrite Forall_forall in Hs.
    rewrite (Hs (field ps)); [lia|].
    simpl in Hf. simpl.
    destruct Hf as [<- | [<- | [<- | [<- | []]]]]; tauto. }
  rewrite (@gather_field x 0), (@gather_field y 1), (@gather_field z 2),
    (@gather_field q 6);
    try (intros; reflexivity); try (apply Hfit; simpl; tauto).
  apply Qplus_comp.
  - rewrite MPI_Allreduce_dsum_Qsum. unfold all_records.
    rewrite map_flat_map, Qsum_flat_map.
    apply Qsum_ext. intros ps Hps. rewrite local_kinetic_Qsum.
    destruct (Hok ps Hps) as [_ ->]. reflexivity.
  - rewrite MPI_Allreduce_dsum_Qsum, <- pairs_Qsum.
    set (P := all_records shells).
    set (counts := map n_particles shells).
    assert (Htotal : list_sum counts = length P)
      by (unfold P, counts; symmetry; apply all_records_length).
    rewrite Htotal.
    etransitivity;
      [apply Qsum_ext; intros r _; apply local_potential_Qsum|].
    rewrite <- (@Qsum_flat_map _
                  (fun r => map (fun i =>
                     Qsum (map (fun j => if i =? j then 0%Q
                                         else pair_energy (nth i P []) (nth j P []))
                               (seq 0 (length P))))
                     (seq (nth r (displacements 0 counts) 0) (nth r counts 0)))).
    rewrite <- map_flat_map.
    replace (length shells) with (length counts)
      by (unfold counts; apply length_map).
    rewrite chunks_tile, Htotal. reflexivity.
Qed.

Lemma energy_of_perm m P P' :
  Permutation P P' -> (energy_of m P == energy_of m P')%Q.
Proof.
  intros HP. unfold energy_of. apply Qplus_comp.
  - apply Qsum_perm, Permutation_map, HP.
  - rewrite (@Qsum_ext _ _
               (fun a => Qsum (map (pair_energy a) P') - pair_energy a a)%Q P).
    + apply Qsum_perm, Permutation_map, HP.
    + intros a _. apply Qplus_comp; [|reflexivity].
      apply Qsum_perm, Permutation_map, HP.
Qed.
End Energy.

(** ** The class invariant through the redistribution *)

Lemma resize_sized ps n : sized (resize ps n).
Proof.
  apply sized_intro; apply vec_resize_length.
Qed.

Lemma computeSquareRadius_sized ps : sized ps -> sized (computeSquareRadius ps).
Proof.
  intros H. apply sized_elim in H.
  destruct H as (? & ? & ? & ? & ? & ? & ? & ? & Hr).
  apply sized_intro; try assumption.
  cbn [computeSquareRadius set_r2 r2 n_particles].
  rewrite fill_length; [exact Hr | lia].
Qed.

Lemma install_sized ps total merge_order recv_buf :
  sized (install ps total merge_order recv_buf).
Proof.
  apply sized_intro; unfold install;
    cbn [x y z vx vy vz q Er r2 n_particles resize];
    (rewrite fill_length; [apply vec_resize_length | rewrite vec_resize_length; lia]).
Qed.

Lemma all_some_nth {A : Type} (l : list (option A)) (d : A) : forall res,
  all_some l = Some res ->
  length res = length l /\
  forall i, i < length l -> nth i l None = Some (nth i res d).
Proof.
  induction l as [|[a|] l IH]; intros res H; simpl in H.
  - injection H as <-. split; [reflexivity | intros i Hi; simpl in Hi; lia].
  - destruct (all_some l) as [r|]; [|discriminate H].
    injection H as <-. destruct (IH r eq_refl) as [Hl Hn].
    split; [simpl; rewrite Hl; reflexivity|].
    intros [|i] Hi; [reflexivity|]. simpl in Hi. simpl. apply Hn. lia.
  - discriminate H.
Qed.

Section SortClass.
Context {SORT : StdSort} {PQ : StdPriorityQueue}.

Lemma reorder_length indices n (arr : list double) :
  length arr = n -> length (reorder indices n arr) = n.
Proof.
  intros H. unfold reorder. destruct (n =? 0); [exact H|].
  rewrite length_map, length_seq. reflexivity.
Qed.

Lemma local_sort_sized ps : sized ps -> sized (local_sort ps).
Proof.
  intros H. apply computeSquareRadius_sized, sized_elim in H.
  destruct H as (? & ? & ? & ? & ? & ? & ? & ? & ?).
  apply sized_intro; unfold local_sort; cbv zeta;
    cbn [x y z vx vy vz q Er r2 n_particles];
    apply reorder_length; assumption.
Qed.

Lemma receive_and_merge_form size r ps all_send_counts sends ps' :
  receive_and_merge size r ps all_send_counts sends = Some ps' ->
  sized ps' /\ iqom ps' = iqom ps /\ name ps' = name ps.
Proof.
  unfold receive_and_merge. cbv zeta.
  destruct (k_way_merge _ _ _ _ _) as [merge_order|]; [|discriminate].
  intros H. injection H as <-.
  split; [apply install_sized | split; reflexivity].
Qed.

(** The call keeps the class invariant, the species and its
    charge-to-mass ratio on every rank. *)
Lemma sort_class shells shells' :
  sortParticlesParallel shells = Some shells' ->
  (forall ps, In ps shells -> sized ps) ->
  length shells' = length shells /\
  forall r, r < length shells ->
    sized (shell shells' r) /\
    iqom (shell shells' r) = iqom (shell shells r) /\
    name (shell shells' r) = name (shell shells r).
Proof.
  unfold sortParticlesParallel. cbv zeta. intros Hrun Hsized.
  assert (Hloc : forall r, r < length shells ->
            sized (shell (locally_sorted shells) r) /\
            iqom (shell (locally_sorted shells) r) = iqom (shell shells r) /\
            name (shell (locally_sorted shells) r) = name (shell shells r)).
  { intros r Hr. unfold shell, locally_sorted. cbv zeta.
    rewrite (@nth_map_in _ _
               (fun ps => if (n_particles ps =? 0) && (length shells =? 1)
                          then ps else local_sort ps)
               shells r no_shell no_shell Hr).
    assert (Hs : sized (nth r shells no_shell)) by (apply Hsized, nth_In, Hr).
    destruct (_ && _).
    - repeat split; exact Hs.
    - split; [apply local_sort_sized, Hs | split; reflexivity]. }
  destruct (length shells =? 1).
  - injection Hrun as <-.
    split; [apply length_map | exact Hloc].
  - destruct (all_some_nth _ no_shell Hrun) as [Hlen Hnth].
    rewrite length_map, length_seq in Hlen, Hnth.
    split; [exact Hlen|].
    intros r Hr. specialize (Hnth r Hr).
    rewrite (@nth_map_seq _ _ (length shells) r None Hr) in Hnth.
    apply receive_and_merge_form in Hnth.
    destruct Hnth as (H1 & H2 & H3), (Hloc r Hr) as (_ & H4 & H5).
    fold (shell shells' r) in H1, H2, H3.
    repeat split; [exact H1 | congruence | congruence].
Qed.
End SortClass.

Section EnergyDistribution.
Context {MATH : StdMath}.


(** The energy does not read the cache of [r2]. *)
Lemma computeEnergyParallel_recomputed shells :
  computeEnergyParallel (map computeSquareRadius shells)
  = computeEnergyParallel shells.
Proof.
  unfold computeEnergyParallel. cbv zeta.
  rewrite !map_map, length_map. reflexivity.
Qed.
End EnergyDistribution.

Section EnergyThroughSort.
Context {SORT : StdSort} {SORTL : StdSortLaws SORT}.
Context {PQ : StdPriorityQueue} {PQL : StdPriorityQueueLaws PQ}.
Context {MATH : StdMath}.

End EnergyThroughSort.

(** ** Sort, then solve *)

Lemma run_field_frame shells p :
  let ps := shell shells p in
  let ps' := shell (run_updateElectricFieldParallel shells) p in
  x ps' = x ps /\ y ps' = y ps /\ z ps' = z ps /\
  vx ps' = vx ps /\ vy ps' = vy ps /\ vz ps' = vz ps /\
  q ps' = q ps /\ r2 ps' = r2 ps /\
  n_particles ps' = n_particles ps /\ n_total ps' = n_total ps /\
  iqom ps' = iqom ps /\ name ps' = name ps.
Proof.
  cbv zeta. destruct (Nat.lt_ge_cases p (length shells)) as [Hp | Hp].
  - rewrite run_field_shell by exact Hp. repeat split.
  - unfold shell.
    rewrite !nth_overflow by (rewrite ?run_field_length; exact Hp).
    repeat split.
Qed.

Lemma charge_within_frame ps ps' count bound :
  q ps' = q ps -> r2 ps' = r2 ps ->
  charge_within ps' count bound = charge_within ps count bound.
Proof.
  intros Hq Hr. unfold charge_within. rewrite Hq, Hr. reflexivity.
Qed.

Lemma Q_enc_run_field shells p i :
  Q_enc (run_updateElectricFieldParallel shells) p i = Q_enc shells p i.
Proof.
  unfold Q_enc. cbv zeta.
  destruct (run_field_frame shells p)
    as (_ & _ & _ & _ & _ & _ & Hq & Hr & Hn & _).
  rewrite Hr. f_equal.
  - f_equal. apply map_ext. intros p'.
    destruct (run_field_frame shells p')
      as (_ & _ & _ & _ & _ & _ & Hq' & Hr' & Hn' & _).
    rewrite Hn'. apply charge_within_frame; assumption.
  - apply charge_within_frame; assumption.
Qed.

(** The solver on shells that are sorted, rank by rank and across the
    ranks. *)
Lemma run_field_enclosed shells p i :
  (forall p', p' < length shells -> I1 (shell shells p')) ->
  I2 shells ->
  p < length shells -> i < n_particles (shell shells p) ->
  let r2_i := (r2 (shell shells p)).[i] in
  let Er_i := (Er (shell (run_updateElectricFieldParallel shells) p)).[i] in
  ((double_1e_30 < r2_i)%Q -> (Er_i == Q_enc shells p i / r2_i)%Q) /\
  ((r2_i <= double_1e_30)%Q -> Er_i = 0%Q).
Proof.
  intros HI1 HI2 Hp Hi. cbv zeta.
  rewrite run_field_shell by exact Hp.
  set (ps := shell shells p) in *.
  unfold updateElectricFieldParallel. cbn [rank set_Er Er].
  unfold at_ at 2 5.
  rewrite !app_nth1 by (rewrite field_sweep_length, length_seq; exact Hi).
  change (nth i ?l 0%Q) with (l.[i]).
  rewrite field_sweep_nth by exact Hi. cbv zeta. rewrite Nat.add_0_l.
  split; intros Hr.
  - apply dlt_true in Hr. rewrite Hr.
    apply Qdiv_comp; [|reflexivity].
    rewrite fold_left_Qplus_shift. unfold Q_enc. fold ps.
    apply Qplus_comp.
    + assert (Hscan : (if p =? 0 then 0%Q
                       else MPI_Exscan_sum (map local_charge_sum shells) p 0%Q)
                      = fold_left Qplus (firstn p (map local_charge_sum shells)) 0%Q)
        by (destruct p; reflexivity).
      rewrite Hscan, (firstn_map_nth _ _ no_shell) by lia.
      erewrite fold_left_Qplus_ext; [reflexivity|].
      intros p' Hp'. apply in_seq in Hp'.
      fold (shell shells p'). unfold local_charge_sum.
      symmetry. apply charge_within_all.
      intros j Hj. apply HI2; try assumption; lia.
    + rewrite charge_within_all; [reflexivity|].
      intros j Hj. apply I1_le; [apply HI1; exact Hp | lia | exact Hi].
  - apply dlt_false in Hr. rewrite Hr. reflexivity.
Qed.

Section SortThenSolve.
Context {SORT : StdSort} {SORTL : StdSortLaws SORT}.
Context {PQ : StdPriorityQueue} {PQL : StdPriorityQueueLaws PQ}.

(** What the solver needs, the redistribution delivers: I1 on every rank,
    I2 across the ranks, and the cache of [r2] up to date (I3). *)
Lemma sort_invariants shells shells' :
  sortParticlesParallel shells = Some shells' ->
  length shells' = length shells /\
  (forall p, p < length shells' -> I1 (shell shells' p)) /\
  I2 shells' /\
  (forall p, p < length shells' -> I3 (shell shells' p)).
Proof.
  intros Hrun.
  destruct (sort_outcome shells) as (shells'' & Hrun' & Hlen & Hout).
  rewrite Hrun in Hrun'. injection Hrun' as <-.
  split; [exact Hlen|]. split; [|split].
  - intros p Hp. apply Hout. lia.
  - intros p q i j Hpq Hq Hi Hj.
    rewrite Hlen in Hq.
    destruct (Hout p ltac:(lia)) as (Hp' & _).
    destruct (Hout q Hq) as (Hq' & _).
    pose proof (Permutation_in _ Hp' (records_in _ Hi)) as Hri.
    pose proof (Permutation_in _ Hq' (records_in _ Hj)) as Hrj.
    apply received_in in Hri, Hrj.
    destruct Hri as (ps1 & i1 & _ & _ & Hd1 & He1).
    destruct Hrj as (ps2 & i2 & _ & _ & Hd2 & He2).
    change ((r2 (shell shells' p)).[i]) with (rec_r2 (record_of (shell shells' p) i)).
    change ((r2 (shell shells' q)).[j]) with (rec_r2 (record_of (shell shells' q) j)).
    rewrite He1, He2.
    change (rec_r2 (record_of ?ps ?k)) with ((r2 ps).[k]).
    apply lower_bound_order with (routing shells). lia.
  - intros p Hp i Hi.
    assert (Hc : consistent (record_of (shell shells' p) i)).
    { pose proof (all_records_recomputed_consistent shells) as Hall.
      rewrite Forall_forall in Hall. apply Hall.
      apply (Permutation_in _ (sort_permutes shells Hrun)).
      apply (@records_in_all shells' p _ Hp), records_in, Hi. }
    unfold consistent, rec_r2, record_of in Hc. cbn [nth] in Hc.
    rewrite Hc. reflexivity.
Qed.

End SortThenSolve.

(** ** What the time step conserves *)

Lemma vec3_eq_refl a : vec3_eq a a.
Proof.
  destruct a as [[a1 a2] a3]. repeat split; reflexivity.
Qed.

Lemma vec3_eq_trans a b c : vec3_eq a b -> vec3_eq b c -> vec3_eq a c.
Proof.
  destruct a as [[a1 a2] a3], b as [[b1 b2] b3], c as [[c1 c2] c3].
  intros (H1 & H2 & H3) (K1 & K2 & K3).
  repeat split; etransitivity; eassumption.
Qed.

Lemma Qsum_Forall2 l l' : Forall2 Qeq l l' -> (Qsum l == Qsum l')%Q.
Proof.
  induction 1 as [|a b l l' Hab _ IH]; simpl.
  - reflexivity.
  - rewrite Hab, IH. reflexivity.
Qed.

Lemma vec3_sum_Forall2 l l' :
  Forall2 vec3_eq l l' -> vec3_eq (vec3_sum l) (vec3_sum l').
Proof.
  intros H. unfold vec3_sum, vec3_eq.
  repeat split; apply Qsum_Forall2;
    (induction H as [|[[a1 a2] a3] [[b1 b2] b3] l l' Hab _ IH];
     [constructor | constructor; [apply Hab | exact IH]]).
Qed.

Lemma vec3_sum_perm l l' :
  Permutation l l' -> vec3_eq (vec3_sum l) (vec3_sum l').
Proof.
  intros H. unfold vec3_sum, vec3_eq.
  repeat split; apply Qsum_perm, Permutation_map, H.
Qed.

Lemma Forall2_eq_eq {A : Type} (l l' : list A) : Forall2 eq l l' -> l = l'.
Proof.
  induction 1 as [|a b l l' Hab _ IH]; [reflexivity|]. rewrite Hab, IH. reflexivity.
Qed.

(** Two runs that agree particle by particle, as far as [g] can tell. *)
Lemma records_pointwise {B : Type} (R : B -> B -> Prop)
    (g : list double -> B) : forall shells_a shells_b,
  length shells_a = length shells_b ->
  (forall p, p < length shells_a ->
     n_particles (shell shells_a p) = n_particles (shell shells_b p) /\
     forall i, i < n_particles (shell shells_a p) ->
       R (g (record_of (shell shells_a p) i)) (g (record_of (shell shells_b p) i))) ->
  Forall2 R (map g (all_records shells_a)) (map g (all_records shells_b)).
Proof.
  induction shells_a as [|a shells_a IH]; intros [|b shells_b] Hlen H;
    try discriminate Hlen.
  - constructor.
  - unfold all_records. cbn [flat_map]. rewrite !map_app.
    apply Forall2_app.
    + destruct (H 0 ltac:(simpl; lia)) as [Hn Hrec].
      unfold shell in Hn, Hrec. cbn [nth] in Hn, Hrec.
      unfold records. rewrite <- Hn, !map_map.
      assert (Hall : forall i, In i (seq 0 (n_particles a)) -> i < n_particles a)
        by (intros i Hi; apply in_seq in Hi; lia).
      induction (seq 0 (n_particles a)) as [|i idx IHidx]; [constructor|].
      constructor.
      * apply Hrec, Hall. left; reflexivity.
      * apply IHidx. intros j Hj. apply Hall. right; exact Hj.
    + apply IH; [simpl in Hlen; lia|].
      intros p Hp. apply (H (S p)). simpl. lia.
Qed.

Lemma shell_map (f : ParticleSystem -> ParticleSystem) shells p :
  p < length shells -> shell (map f shells) p = f (shell shells p).
Proof.
  intros Hp. unfold shell.
  apply (@nth_map_in _ _ f shells p no_shell no_shell Hp).
Qed.

Lemma rec_q_record_of ps i : rec_q (record_of ps i) = (q ps).[i].
Proof.
  reflexivity.
Qed.

Lemma rec_angular_momentum_record_of ps i :
  rec_angular_momentum (record_of ps i) = cross (position ps i) (velocity ps i).
Proof.
  reflexivity.
Qed.

Section Conserved.
Context {SORT : StdSort} {SORTL : StdSortLaws SORT}.
Context {PQ : StdPriorityQueue} {PQL : StdPriorityQueueLaws PQ}.
Context {MATH : StdMath}.

(** The redistribution: the particles are rearranged, their charges and
    angular momenta are not touched. *)
Lemma sort_conserves shells shells' :
  sortParticlesParallel shells = Some shells' ->
  Permutation (map rec_q (all_records shells'))
              (map rec_q (all_records shells)) /\
  Permutation (map rec_angular_momentum (all_records shells'))
              (map rec_angular_momentum (all_records shells)).
Proof.
  intros Hrun. pose proof (sort_permutes shells Hrun) as HP.
  assert (Hsame : forall (B : Type) (g : list double -> B),
            (forall ps i, g (record_of (computeSquareRadius ps) i)
                          = g (record_of ps i)) ->
            map g (all_records (map computeSquareRadius shells))
            = map g (all_records shells)).
  { intros B g Hg. apply Forall2_eq_eq, records_pointwise.
    - apply length_map.
    - intros p Hp. rewrite length_map in Hp. rewrite shell_map by exact Hp.
      split; [reflexivity | intros i _; apply Hg]. }
  split.
  - rewrite <- (Hsame _ rec_q) by reflexivity. apply Permutation_map, HP.
  - rewrite <- (Hsame _ rec_angular_momentum) by reflexivity.
    apply Permutation_map, HP.
Qed.

(** The solver writes [Er] only. *)
Lemma run_field_conserves shells :
  map rec_q (all_records (run_updateElectricFieldParallel shells))
  = map rec_q (all_records shells) /\
  map rec_angular_momentum (all_records (run_updateElectricFieldParallel shells))
  = map rec_angular_momentum (all_records shells).
Proof.
  split; apply Forall2_eq_eq, records_pointwise;
    try apply run_field_length;
    intros p Hp;
    destruct (run_field_frame shells p)
      as (Hx & Hy & Hz & Hvx & Hvy & Hvz & Hq & _ & Hn & _);
    (split; [exact Hn|]); intros i _.
  - rewrite !rec_q_record_of, Hq. reflexivity.
  - rewrite !rec_angular_momentum_record_of. unfold position, velocity.
    rewrite Hx, Hy, Hz, Hvx, Hvy, Hvz. reflexivity.
Qed.

(** The mover keeps the charges, and the angular momenta as numbers. *)
Lemma move_conserves shells dt :
  map rec_q (all_records (map (fun ps => updatePositions ps dt) shells))
  = map rec_q (all_records shells) /\
  Forall2 vec3_eq
    (map rec_angular_momentum
         (all_records (map (fun ps => updatePositions ps dt) shells)))
    (map rec_angular_momentum (all_records shells)).
Proof.
  split; [apply Forall2_eq_eq|]; apply records_pointwise;
    try apply length_map;
    intros p Hp; rewrite length_map in Hp;
    rewrite (@shell_map (fun ps => updatePositions ps dt)) by exact Hp;
    (split; [reflexivity|]); intros i Hi.
  - reflexivity.
  - rewrite !rec_angular_momentum_record_of.
    apply updatePositions_cross. exact Hi.
Qed.

(** One time step: it returns, and it keeps the class invariant, the
    species, the charges and the total angular momentum. *)
Lemma time_step_conserves shells dt m :
  (forall ps, In ps shells -> sized ps /\ iqom ps = m) ->
  exists shells',
    time_step shells dt = Some shells' /\
    length shells' = length shells /\
    (forall ps, In ps shells' -> sized ps /\ iqom ps = m) /\
    Permutation (map rec_q (all_records shells'))
                (map rec_q (all_records shells)) /\
    vec3_eq (total_angular_momentum shells') (total_angular_momentum shells).
Proof.
  intros Hok.
  destruct (sort_outcome shells) as (sorted & Hrun & _).
  destruct (sort_class shells Hrun) as [Hlen Hclass];
    [intros ps Hps; apply Hok, Hps|].
  destruct (sort_conserves shells Hrun) as [Hq HL].
  destruct (run_field_conserves sorted) as [Hq' HL'].
  destruct (move_conserves (run_updateElectricFieldParallel sorted) dt)
    as [Hq'' HL''].
  exists (map (fun ps => updatePositions ps dt)
              (run_updateElectricFieldParallel sorted)).
  unfold time_step, sort_and_solve. rewrite Hrun.
  split; [reflexivity|].
  split; [rewrite length_map, run_field_length; exact Hlen|].
  split; [|split].
  - intros ps Hps. apply in_map_iff in Hps. destruct Hps as (ps1 & <- & Hps1).
    destruct (In_nth _ _ no_shell Hps1) as (r & Hr & Hps1').
    rewrite run_field_length in Hr.
    fold (shell (run_updateElectricFieldParallel sorted) r) in Hps1'.
    rewrite run_field_shell in Hps1' by exact Hr.
    rewrite Hlen in Hr. destruct (Hclass r Hr) as (Hs & Hm & _).
    subst ps1. split.
    + apply updatePositions_sized.
      apply sized_elim in Hs.
      destruct Hs as (? & ? & ? & ? & ? & ? & ? & HEr & ?).
      apply sized_intro; try assumption.
      unfold updateElectricFieldParallel. cbn [Er set_Er n_particles].
      rewrite length_app, field_sweep_length, length_seq, length_skipn. lia.
    + cbn [iqom updatePositions updateElectricFieldParallel set_Er].
      rewrite Hm. apply Hok, nth_In, Hr.
  - rewrite Hq'', Hq'. exact Hq.
  - unfold total_angular_momentum.
    eapply vec3_eq_trans; [apply vec3_sum_Forall2, HL''|].
    rewrite HL'. apply vec3_sum_perm, HL.
Qed.

(** The whole loop. *)
Lemma simulate_conserves Nt : forall shells dt m,
  (forall ps, In ps shells -> sized ps /\ iqom ps = m) ->
  exists final,
    simulate Nt shells dt = Some final /\
    length final = length shells /\
    (forall ps, In ps final -> sized ps /\ iqom ps = m) /\
    Permutation (map rec_q (all_records final))
                (map rec_q (all_records shells)) /\
    vec3_eq (total_angular_momentum final) (total_angular_momentum shells).
Proof.
  induction Nt as [|Nt IH]; intros shells dt m Hok.
  - exists shells. split; [reflexivity|]. split; [reflexivity|].
    split; [exact Hok|]. split; [reflexivity | apply vec3_eq_refl].
  - destruct (time_step_conserves shells dt Hok)
      as (shells' & Hstep & Hlen & Hok' & Hq & HL).
    destruct (IH shells' dt m Hok') as (final & Hrun & Hlen' & Hok'' & Hq' & HL').
    exists final. cbn [simulate]. rewrite Hstep.
    split; [exact Hrun|]. split; [congruence|]. split; [exact Hok''|].
    split.
    + rewrite Hq'. exact Hq.
    + eapply vec3_eq_trans; eassumption.
Qed.


End Conserved.

(** ** The driver: the initial share of every rank *)

Lemma int_cast_small (v : Z) : (- 2 ^ 31 <= v < 2 ^ 31)%Z -> int_cast v = v.
Proof.
  intros H. unfold int_cast.
  rewrite Z.mod_small by lia. lia.
Qed.

(** The ranks below [m] get one particle more. *)
Lemma sum_one_more (base m : Z) : forall k, (0 <= m)%Z ->
  fold_left Z.add
    (map (fun r => (base + (if (Z.of_nat r <? m)%Z then 1 else 0))%Z) (seq 0 k))
    0%Z
  = (Z.of_nat k * base + Z.min (Z.of_nat k) m)%Z.
Proof.
  induction k as [|k IH]; intros Hm.
  - simpl. lia.
  - rewrite seq_S, map_app, fold_left_app, IH by exact Hm.
    cbn [map fold_left Nat.add].
    destruct (Z.ltb_spec (Z.of_nat k) m); lia.
Qed.

(** X17: the initial shares of the ranks differ by one at most and add up
    to [N]. *)
Theorem local_N_of_total (N : Z) (size : nat) :
  (0 <= N)%Z -> 0 < size -> (N ÷ Z.of_nat size < 2 ^ 31 - 1)%Z ->
  let counts :=
    map (fun rank => local_N_of N {| rank := rank; size := size |})
        (seq 0 size) in
  fold_left Z.add counts 0%Z = N /\
  Forall (fun c => (N ÷ Z.of_nat size <= c <= N ÷ Z.of_nat size + 1)%Z) counts.
Proof.
  intros HN Hsize Hfit. cbv zeta.
  assert (Hq : (0 <= N ÷ Z.of_nat size)%Z) by (apply Z.quot_pos; lia).
  assert (Hr : (0 <= Z.rem N (Z.of_nat size) < Z.of_nat size)%Z)
    by (apply Z.rem_bound_pos; lia).
  assert (Heq : forall r,
            local_N_of N {| rank := r; size := size |}
            = (N ÷ Z.of_nat size
               + (if (Z.of_nat r <? Z.rem N (Z.of_nat size))%Z then 1 else 0))%Z).
  { intros r. unfold local_N_of. simpl.
    apply int_cast_small.
    destruct (Z.of_nat r <? Z.rem N (Z.of_nat size))%Z; lia. }
  split.
  - rewrite (map_ext _ _ Heq), sum_one_more by lia.
    rewrite Z.min_r by lia.
    rewrite (Z.quot_rem' N (Z.of_nat size)) at 3. lia.
  - apply Forall_forall. intros c Hc. apply in_map_iff in Hc.
    destruct Hc as (r & <- & _). rewrite Heq.
    destruct (Z.of_nat r <? Z.rem N (Z.of_nat size))%Z; lia.
Qed.

(** ** Saving the positions *)

Lemma gather_sized (field : ParticleSystem -> list double) shells :
  (forall ps, In ps shells -> length (field ps) = n_particles ps) ->
  MPI_Allgatherv (map field shells) (map n_particles shells)
                 (displacements 0 (map n_particles shells))
                 (repeat 0%Q (list_sum (map n_particles shells)))
  = concat (map field shells).
Proof.
  intros Hlen. rewrite gather_concat.
  - rewrite length_map. f_equal.
    etransitivity; [|apply (map_nth_seq field shells no_shell)].
    apply map_ext_in. intros s Hs. apply in_seq in Hs.
    rewrite (@nth_map_in _ _ n_particles shells s 0 no_shell) by lia.
    rewrite (@nth_map_in _ _ field shells s [] no_shell) by lia.
    rewrite <- Hlen by (apply nth_In; lia). apply firstn_all.
  - rewrite !length_map. reflexivity.
  - intros s Hs. rewrite length_map in Hs.
    rewrite (@nth_map_in _ _ n_particles shells s 0 no_shell) by lia.
    rewrite (@nth_map_in _ _ field shells s [] no_shell) by lia.
    rewrite Hlen by (apply nth_In; lia). lia.
Qed.


(** ** The class: resize, the constructor, the cache *)

Lemma at_vec_resize n (v : list double) i : i < n -> (vec_resize n v).[i] = v.[i].
Proof.
  intros Hi. unfold vec_resize, at_.
  destruct (Nat.lt_ge_cases i (length v)) as [Hv | Hv].
  - rewrite app_nth1 by (rewrite length_firstn; lia).
    rewrite nth_firstn. destruct (Nat.ltb_spec i n); [reflexivity | lia].
  - rewrite (nth_overflow v) by exact Hv.
    rewrite app_nth2 by (rewrite length_firstn; lia).
    apply nth_repeat.
Qed.

Lemma record_of_resize ps n i : i < n ->
  record_of (resize ps n) i = record_of ps i.
Proof.
  intros Hi. unfold record_of, resize. cbn [x y z vx vy vz q Er r2].
  rewrite !at_vec_resize by exact Hi. reflexivity.
Qed.

Lemma record_of_beyond ps i : sized ps -> n_particles ps <= i ->
  record_of ps i = repeat 0%Q num_fields.
Proof.
  intros Hs Hi. apply sized_elim in Hs.
  destruct Hs as (? & ? & ? & ? & ? & ? & ? & ? & ?).
  unfold record_of, at_. rewrite !nth_overflow by lia. reflexivity.
Qed.

(** X18: [resize] keeps the particles that fit, in place, and fills up with
    zeroed ones. *)
Theorem resize_records (ps : ParticleSystem) (new_size : nat) :
  sized ps ->
  sized (resize ps new_size) /\
  records (resize ps new_size)
  = firstn new_size (records ps)
    ++ repeat (repeat 0%Q num_fields) (new_size - n_particles ps).
Proof.
  intros Hs. split; [apply resize_sized|].
  unfold records. cbn [n_particles resize].
  rewrite (map_ext_in _ (record_of ps))
    by (intros i Hi; apply in_seq in Hi; apply record_of_resize; lia).
  destruct (Nat.le_gt_cases new_size (n_particles ps)) as [Hle | Hgt].
  - replace (new_size - n_particles ps) with 0 by lia.
    rewrite app_nil_r, firstn_map, firstn_seq_le by exact Hle. reflexivity.
  - rewrite firstn_all2 by (rewrite length_map, length_seq; lia).
    replace new_size with (n_particles ps + (new_size - n_particles ps)) at 1 by lia.
    rewrite seq_app, map_app. f_equal.
    rewrite (map_ext_in _ (fun _ => repeat 0%Q num_fields))
      by (intros i Hi; apply in_seq in Hi; apply record_of_beyond;
          [exact Hs | lia]).
    rewrite map_const, length_seq. reflexivity.
Qed.

Lemma vec_resize_nil n : vec_resize n [] = repeat 0%Q n.
Proof.
  unfold vec_resize. rewrite firstn_nil. simpl. rewrite Nat.sub_0_r. reflexivity.
Qed.

Lemma at_repeat_0 n i : (repeat 0%Q n).[i] = 0%Q.
Proof.
  unfold at_. destruct (Nat.lt_ge_cases i n).
  - apply nth_repeat.
  - apply nth_overflow. rewrite repeat_length. lia.
Qed.

(** X19: a new shell holds [local_particles] particles, all zeroed. *)
Theorem ParticleSystem_new_zeroed (local_particles : nat) (total_particles : Z)
    (species_name : string) (inv_qom : double) :
  let ps := ParticleSystem_new local_particles total_particles
                               species_name inv_qom in
  sized ps /\ n_particles ps = local_particles /\
  records ps = repeat (repeat 0%Q num_fields) local_particles /\
  getMaxRadiusSquared ps = 0%Q.
Proof.
  cbv zeta. split; [apply resize_sized|]. split; [reflexivity|].
  split.
  - unfold records, ParticleSystem_new. cbn [n_particles resize].
    rewrite (map_ext _ (fun _ => repeat 0%Q num_fields)).
    + rewrite map_const, length_seq. reflexivity.
    + intros i. unfold record_of, resize.
      cbn [x y z vx vy vz q Er r2].
      rewrite vec_resize_nil, !at_repeat_0. reflexivity.
  - unfold getMaxRadiusSquared, ParticleSystem_new, resize.
    cbn [r2 n_particles]. rewrite vec_resize_nil.
    induction (seq 0 local_particles) as [|i idx IH]; [reflexivity|].
    cbn [fold_left]. rewrite at_repeat_0. exact IH.
Qed.

Lemma Qsquare_nonneg (a : Q) : (0 <= a * a)%Q.
Proof.
  destruct (Qlt_le_dec a 0) as [Hn | Hp].
  - setoid_replace (a * a)%Q with ((- a) * (- a))%Q by ring.
    apply Qmult_le_0_compat; apply (Qopp_le_compat a 0), Qlt_le_weak, Hn.
  - apply Qmult_le_0_compat; exact Hp.
Qed.

(** X20: with the cache just recomputed, [getMaxRadiusSquared] is the
    largest squared radius of the shell. *)
Theorem getMaxRadiusSquared_fresh (ps : ParticleSystem) :
  let max_r2 := getMaxRadiusSquared (computeSquareRadius ps) in
  let radius2 i := ((x ps).[i] * (x ps).[i] + (y ps).[i] * (y ps).[i]
                    + (z ps).[i] * (z ps).[i])%Q in
  (forall i, i < n_particles ps -> (radius2 i <= max_r2)%Q) /\
  (0 < n_particles ps -> exists i, i < n_particles ps /\ (max_r2 == radius2 i)%Q).
Proof.
  cbv zeta. unfold getMaxRadiusSquared.
  cbn [computeSquareRadius set_r2 r2 n_particles].
  set (f := fun i => ((x ps).[i] * (x ps).[i] + (y ps).[i] * (y ps).[i]
                      + (z ps).[i] * (z ps).[i])%Q).
  set (v := fill (n_particles ps) f (r2 ps)).
  assert (Hv : forall i, i < n_particles ps -> v.[i] = f i)
    by (intros i Hi; apply at_fill, Hi).
  destruct (max_r2_loop_upper v (seq 0 (n_particles ps)) 0%Q) as [_ U].
  rewrite Forall_forall in U.
  split.
  - intros i Hi. apply Qle_trans with v.[i].
    + rewrite (Hv i Hi). apply Qle_refl.
    + apply U, in_seq. lia.
  - intros Hn.
    destruct (max_r2_loop_attained v (seq 0 (n_particles ps)) 0%Q)
      as [H | [j [Hj H]]].
    + exists 0. split; [exact Hn|]. apply Qle_antisym.
      * rewrite H.
        apply (Qplus_le_compat 0 _ 0); [apply (Qplus_le_compat 0 _ 0)|];
          apply Qsquare_nonneg.
      * apply Qle_trans with v.[0].
        -- rewrite (Hv 0 Hn). apply Qle_refl.
        -- apply U, in_seq. lia.
    + apply in_seq in Hj. exists j. split; [lia|].
      rewrite H, Hv by lia. reflexivity.
Qed.

(** ** The redistribution looks at the particles, not at their owners *)

Lemma filter_map_comm {A B : Type} (f : A -> B) (P : B -> bool) l :
  filter P (map f l) = map f (filter (fun a => P (f a)) l).
Proof.
  induction l as [|a l IH]; simpl; [reflexivity|].
  rewrite IH. destruct (P (f a)); reflexivity.
Qed.

Lemma filter_flat_map {A B : Type} (f : A -> list B) (P : B -> bool) l :
  filter P (flat_map f l) = flat_map (fun a => filter P (f a)) l.
Proof.
  induction l as [|a l IH]; simpl; [reflexivity|].
  rewrite filter_app, IH. reflexivity.
Qed.

Lemma Permutation_filter {A : Type} (P : A -> bool) l l' :
  Permutation l l' -> Permutation (filter P l) (filter P l').
Proof.
  induction 1 as [|a l l' _ IH|a b l|l1 l2 l3 _ IH1 _ IH2]; simpl.
  - constructor.
  - destruct (P a); [constructor|]; exact IH.
  - destruct (P a), (P b); try reflexivity. constructor.
  - etransitivity; eassumption.
Qed.

(** What rank [r] receives: the records whose [r2] the splitters route to
    it. *)
Lemma received_filter splitters sorted r :
  received splitters sorted r
  = filter (fun rec => lower_bound splitters (rec_r2 rec) =? r)
           (all_records sorted).
Proof.
  unfold received, all_records. rewrite filter_flat_map.
  apply flat_map_ext. intros ps.
  unfold chunk, bucket, records. rewrite filter_map_comm. reflexivity.
Qed.

Section ByParticles.
Context {SORT : StdSort} {SORTL : StdSortLaws SORT}.
Context {PQ : StdPriorityQueue} {PQL : StdPriorityQueueLaws PQ}.

Lemma radii_recomputed_bounds shells :
  (forall v, In v (radii (map computeSquareRadius shells)) -> (v <= DBL_MAX)%Q) ->
  forall v, In v (radii (locally_sorted shells)) ->
    (- DBL_MAX <= v)%Q /\ (v <= DBL_MAX)%Q.
Proof.
  intros Hfin v Hv.
  assert (Hv' : In v (radii (map computeSquareRadius shells))).
  { unfold radii in *. eapply Permutation_in; [|exact Hv].
    apply Permutation_map, locally_sorted_all_records. }
  split; [|apply Hfin, Hv'].
  unfold radii in Hv'. apply in_map_iff in Hv'.
  destruct Hv' as (rec & <- & Hrec).
  pose proof (all_records_recomputed_consistent shells) as Hc.
  rewrite Forall_forall in Hc.
  apply Qle_trans with 0%Q; [|apply consistent_nonneg, Hc, Hrec].
  unfold DBL_MAX, Qle. simpl. lia.
Qed.

(** Two runs on the same particles compute the same splitters. *)
Lemma routing_by_particles shells_a shells_b :
  length shells_a = length shells_b ->
  (forall v, In v (radii (map computeSquareRadius shells_a)) -> (v <= DBL_MAX)%Q) ->
  Permutation (all_records (map computeSquareRadius shells_a))
              (all_records (map computeSquareRadius shells_b)) ->
  Forall2 Qeq (routing shells_a) (routing shells_b).
Proof.
  intros Hlen Hfin HP. unfold routing. rewrite <- Hlen.
  destruct (length shells_a =? 1); [constructor|].
  destruct shells_a as [|a shells_a].
  { destruct shells_b; [|discriminate Hlen]. unfold global_splitters. simpl.
    apply Forall2_app; [|constructor].
    clear. generalize (seq 0 NUM_BINS). intros l. induction l; constructor. }
  apply global_splitters_compat.
  - intros E. apply (f_equal (@length _)) in E.
    rewrite locally_sorted_length in E. discriminate E.
  - rewrite !locally_sorted_length. exact Hlen.
  - apply locally_sorted_I1.
  - apply locally_sorted_I1.
  - apply radii_recomputed_bounds, Hfin.
  - unfold radii. apply Permutation_map.
    rewrite !locally_sorted_all_records. exact HP.
Qed.

(** Where the particles end up depends on the particles only. *)
Lemma sort_by_particles shells_a shells_b sorted_a sorted_b :
  length shells_a = length shells_b ->
  (forall v, In v (radii (map computeSquareRadius shells_a)) -> (v <= DBL_MAX)%Q) ->
  Permutation (all_records (map computeSquareRadius shells_a))
              (all_records (map computeSquareRadius shells_b)) ->
  sortParticlesParallel shells_a = Some sorted_a ->
  sortParticlesParallel shells_b = Some sorted_b ->
  forall p, p < length shells_a ->
    Permutation (records (shell sorted_a p)) (records (shell sorted_b p)).
Proof.
  intros Hlen Hfin HP Ha Hb p Hp.
  destruct (sort_outcome shells_a) as (sa & Ha' & _ & Houta).
  destruct (sort_outcome shells_b) as (sb & Hb' & _ & Houtb).
  rewrite Ha in Ha'. injection Ha' as <-.
  rewrite Hb in Hb'. injection Hb' as <-.
  destruct (Houta p Hp) as (Hra & _).
  destruct (Houtb p ltac:(lia)) as (Hrb & _).
  rewrite Hra, Hrb, !received_filter.
  rewrite (Permutation_filter _ (locally_sorted_all_records shells_a)).
  rewrite (Permutation_filter _ (locally_sorted_all_records shells_b)).
  rewrite (Permutation_filter _ HP).
  erewrite filter_ext; [reflexivity|].
  intros rec. cbv beta.
  rewrite (@lower_bound_compat (routing shells_a) (routing shells_b)
             (rec_r2 rec) (rec_r2 rec));
    [reflexivity | apply routing_by_particles; assumption | reflexivity].
Qed.





End ByParticles.

(** X25: on binary64 numbers the splitters are not always in order.  Four
    ranks hold the particles (1, 0.5, 0.5) and (67108863, 11493, 1459):
    the second splitter is set at the last bin, where
    [r2_min_global + 1024 * bin_width] rounds to 4503599627370500, above
    [r2_max_global = 4503599627370499], with which the third splitter is
    filled.  [std::lower_bound] is then called on a range that is not
    sorted. *)
Theorem splitters_unsorted_on_binary64 :
  let r2_a := Binary64.computeSquareRadius [1]%float [0.5]%float [0.5]%float in
  let r2_b :=
    Binary64.computeSquareRadius [67108863]%float [11493]%float [1459]%float in
  let splitters := Binary64.global_splitters [r2_a; r2_b; []; []] in
  r2_a = [1.5%float] /\ r2_b = [4503599627370499%float] /\
  length splitters = 3 /\
  nth 1 splitters 0%float = 4503599627370500%float /\
  nth 2 splitters 0%float = 4503599627370499%float /\
  (nth 2 splitters 0 <? nth 1 splitters 0)%float = true.
Proof.
  vm_compute. repeat split.
Qed.

(** libstdc++'s binary search stays within the range it is given, sorted
    or not. *)
Lemma gnu_lower_bound_loop_le (v : list double) (val : double) :
  forall fuel first len,
  gnu_lower_bound_loop fuel v first len val <= first + len.
Proof.
  induction fuel as [|fuel IH]; intros first len;
    cbn [gnu_lower_bound_loop]; [lia|].
  destruct (Nat.ltb_spec 0 len) as [Hpos | Hz]; [|lia].
  cbv zeta.
  assert (Hhalf : len / 2 < len) by (apply Nat.div_lt; lia).
  set (half := len / 2) in *.
  destruct (dlt v.[first + half] val).
  - specialize (IH (first + half + 1) (len - half - 1)). lia.
  - specialize (IH first half). lia.
Qed.

(** X7: every rank computes [size - 1] splitters, and on [size - 1] values,
    sorted or not, libstdc++'s binary search returns a destination of at
    most [size - 1]: the destination is a rank, whatever rounding does to
    the splitters.  In exact arithmetic the splitters are moreover in
    non-decreasing order, so that [std::lower_bound] is called within its
    contract and the binary search returns the index the contract
    defines. *)
Theorem routing_contract {SORT : StdSort} (shells : list ParticleSystem)
    (v : double) :
  length (routing shells) = length shells - 1 /\
  (forall splitters, gnu_lower_bound splitters v <= length splitters) /\
  gnu_lower_bound (routing shells) v <= length shells - 1 /\
  StronglySorted Qle (routing shells) /\
  gnu_lower_bound (routing shells) v = lower_bound (routing shells) v.
Proof.
  assert (Hle : forall splitters, gnu_lower_bound splitters v <= length splitters)
    by (intros splitters; apply (gnu_lower_bound_loop_le splitters v)).
  split; [apply routing_length|]. split; [exact Hle|].
  split; [rewrite <- routing_length; apply Hle|].
  split; [apply routing_sorted|].
  apply gnu_lower_bound_scan, routing_sorted.
Qed.

(** X15: the kinetic energy is not negative, whatever the signs of the
    charges and of [iqom]. *)
Theorem kinetic_energy_nonneg (shells : list ParticleSystem) :
  (0 <= MPI_Allreduce_dsum (map local_kinetic shells))%Q.
Proof.
  rewrite MPI_Allreduce_dsum_Qsum. apply Qsum_nonneg.
  rewrite Forall_map, Forall_forall. intros ps _.
  rewrite local_kinetic_Qsum. apply Qsum_nonneg.
  rewrite Forall_map, Forall_forall. intros rec _.
  unfold kinetic_of. cbv zeta.
  apply Qmult_le_0_compat; [apply Qmult_le_0_compat|].
  - discriminate.
  - apply Qabs_nonneg.
  - apply (Qplus_le_compat 0 _ 0); [apply (Qplus_le_compat 0 _ 0)|];
      apply Qsquare_nonneg.
Qed.

(** ** The histogram counts every particle once *)

Lemma count_below {A : Type} (f : A -> nat) (R : list A) : forall K,
  list_sum (map (fun b => length (filter (fun v => f v =? b) R)) (seq 0 K))
  = length (filter (fun v => f v <? K) R).
Proof.
  induction K as [|K IH].
  - simpl. rewrite filter_none; [reflexivity|].
    intros v _. apply Nat.ltb_ge. lia.
  - rewrite seq_S, map_app, list_sum_app, IH.
    change (list_sum (map ?g [0 + K])) with (g K + 0).
    rewrite Nat.add_0_r. clear IH.
    induction R as [|v R IHR]; [reflexivity|].
    cbn [filter].
    destruct (Nat.ltb_spec (f v) K), (Nat.eqb_spec (f v) K),
      (Nat.ltb_spec (f v) (S K)); try lia; cbn [length]; lia.
Qed.

Lemma bin_of_lt lo w v : bin_of lo w v < NUM_BINS.
Proof.
  unfold bin_of, NUM_BINS. cbv zeta. lia.
Qed.

Lemma fold_Zadd_of_nat (l : list nat) :
  fold_left Z.add (map Z.of_nat l) 0%Z = Z.of_nat (list_sum l).
Proof.
  assert (H : forall acc, fold_left Z.add (map Z.of_nat l) acc
                          = (acc + Z.of_nat (list_sum l))%Z).
  { induction l as [|a l IH]; intros acc; simpl; [lia|]. rewrite IH. lia. }
  rewrite H. lia.
Qed.

(** X8: the global histogram counts every particle of every rank once:
    its total is the global number of particles. *)
Theorem global_histogram_total (sorted : list ParticleSystem) (lo w : double) :
  let global_hist :=
    MPI_Allreduce_sum NUM_BINS (map (local_hist_of lo w) sorted) in
  length global_hist = NUM_BINS /\
  fold_left Z.add global_hist 0%Z
  = Z.of_nat (list_sum (map n_particles sorted)).
Proof.
  cbv zeta. rewrite global_hist_eq.
  split; [rewrite length_map, length_seq; reflexivity|].
  rewrite <- (map_map (fun b => count_bin lo w b (radii sorted)) Z.of_nat).
  rewrite fold_Zadd_of_nat. f_equal.
  unfold count_bin. rewrite (count_below (bin_of lo w)).
  rewrite filter_all by (intros v _; apply Nat.ltb_lt, bin_of_lt).
  unfold radii. rewrite length_map. apply all_records_length.
Qed.

(** ** The load balance *)

(** *** The pace of the splitter loop *)

Lemma hist_prefix_S global_hist b :
  hist_prefix global_hist (S b)
  = (hist_prefix global_hist b + nth b global_hist 0)%Z.
Proof.
  unfold hist_prefix. revert b.
  assert (H : forall (l : list Z) b acc,
            fold_left Z.add (firstn (S b) l) acc
            = (fold_left Z.add (firstn b l) acc + nth b l 0)%Z).
  { induction l as [|a l IH]; intros b acc.
    - rewrite !firstn_nil. destruct b; simpl; lia.
    - destruct b as [|b].
      + simpl. lia.
      + change (firstn (S (S b)) (a :: l)) with (a :: firstn (S b) l).
        change (firstn (S b) (a :: l)) with (a :: firstn b l).
        cbn [fold_left nth]. apply IH. }
  intros b. apply H.
Qed.

Lemma cumsum_at_snoc global_hist bins b k : k < length bins ->
  cumsum_at global_hist (bins ++ [b]) k = cumsum_at global_hist bins k.
Proof.
  intros Hk. unfold cumsum_at. rewrite app_nth1 by exact Hk. reflexivity.
Qed.

Lemma cumsum_before_snoc global_hist bins b k : k <= length bins ->
  cumsum_before global_hist (bins ++ [b]) k = cumsum_before global_hist bins k.
Proof.
  intros Hk. destruct k as [|j]; [reflexivity|].
  apply cumsum_at_snoc. lia.
Qed.

Lemma cumsum_at_last global_hist bins b :
  cumsum_at global_hist (bins ++ [b]) (length bins) = hist_prefix global_hist (S b).
Proof.
  unfold cumsum_at. rewrite app_nth2, Nat.sub_diag by lia. reflexivity.
Qed.

Lemma paced_later global_hist target h_max b0 bins :
  paced global_hist target h_max b0 bins ->
  (hist_prefix global_hist (S b0)
   < target * (Z.of_nat (length bins) + 1))%Z ->
  paced global_hist target h_max (S b0) bins.
Proof.
  intros [Hk Hc] Hskip. split.
  - intros k Hlt. destruct (Hk k Hlt) as (H1 & H2 & H3).
    split; [lia | split; assumption].
  - lia.
Qed.

Lemma paced_snoc global_hist target h_max b0 bins :
  paced global_hist target h_max b0 bins ->
  (nth b0 global_hist 0 <= h_max)%Z ->
  (target * (Z.of_nat (length bins) + 1)
   <= hist_prefix global_hist (S b0))%Z ->
  paced global_hist target h_max (S b0) (bins ++ [b0]).
Proof.
  intros [Hk Hc] Hh Hemit. split.
  - intros k Hlt. rewrite length_app in Hlt. simpl in Hlt.
    destruct (Nat.eq_dec k (length bins)) as [-> | Hne].
    + rewrite cumsum_at_last, cumsum_before_snoc by lia.
      rewrite app_nth2, Nat.sub_diag by lia. simpl nth.
      split; [lia|]. split; [exact Hemit|].
      rewrite hist_prefix_S. lia.
    + assert (Hlt' : k < length bins) by lia.
      destruct (Hk k Hlt') as (H1 & H2 & H3).
      rewrite cumsum_at_snoc, cumsum_before_snoc by lia.
      rewrite app_nth1 by exact Hlt'.
      split; [lia | split; assumption].
  - rewrite length_app. simpl length.
    replace (length bins + 1) with (S (length bins)) by lia.
    cbn [cumsum_before]. rewrite cumsum_at_last. lia.
Qed.

(** The splitters the loop sets are the ends of bins that keep the pace;
    if fewer than [size - 1] are set, every bin was looked at. *)
Lemma splitter_loop_paced size (lo w : double) global_hist target h_max :
  (forall b, nth b global_hist 0 <= h_max)%Z ->
  forall k b0 bins,
  paced global_hist target h_max b0 bins ->
  exists bins' b1,
    splitter_loop size lo w global_hist target (seq b0 k)
      (hist_prefix global_hist b0) (map (bin_end lo w) bins)
    = map (bin_end lo w) bins' /\
    paced global_hist target h_max b1 bins' /\
    b1 <= b0 + k /\
    (length bins <= size - 1 -> length bins' <= size - 1) /\
    (length bins' < size - 1 -> b1 = b0 + k).
Proof.
  intros Hh. induction k as [|k IH]; intros b0 bins Hp.
  - exists bins, b0. split; [reflexivity|]. split; [exact Hp|].
    split; [lia|]. split; [intros; assumption|]. intros; lia.
  - cbn [seq splitter_loop]. rewrite length_map.
    destruct (Nat.ltb_spec (length bins) (size - 1)) as [Hroom | Hfull].
    + rewrite <- hist_prefix_S.
      destruct (Z.leb_spec (target * (Z.of_nat (length bins) + 1))
                           (hist_prefix global_hist (S b0))) as [Hemit | Hskip].
      * destruct (IH (S b0) (bins ++ [b0])) as (bins' & b1 & H1 & H2 & H3 & H4 & H5).
        { apply paced_snoc; [exact Hp | apply Hh | exact Hemit]. }
        exists bins', b1. rewrite map_app in H1. split; [exact H1|].
        split; [exact H2|]. split; [lia|]. split.
        -- intros _. apply H4. rewrite length_app. simpl. lia.
        -- intros Hl. rewrite (H5 Hl). lia.
      * destruct (IH (S b0) bins) as (bins' & b1 & H1 & H2 & H3 & H4 & H5).
        { apply paced_later; assumption. }
        exists bins', b1. split; [exact H1|].
        split; [exact H2|]. split; [lia|]. split; [exact H4|].
        intros Hl. rewrite (H5 Hl). lia.
    + exists bins, b0. split; [reflexivity|]. split; [exact Hp|].
      split; [lia|]. split; [intros; assumption|]. intros; lia.
Qed.

(** *** Bins and their ends *)

Lemma quotient_le (a w c : Q) : (0 < w)%Q -> (a / w <= c)%Q -> (a <= c * w)%Q.
Proof.
  intros Hw H.
  setoid_replace a with (a / w * w)%Q
    by (field; intros E; rewrite E in Hw; discriminate Hw).
  apply Qmult_le_compat_r; [exact H | apply Qlt_le_weak, Hw].
Qed.

(** A particle in one of the bins [0 .. b] is below the end of bin [b]. *)
Lemma bin_of_within lo w v b : (0 < w)%Q -> S b < NUM_BINS ->
  bin_of lo w v <= b -> (v <= bin_end lo w b)%Q.
Proof.
  intros Hw Hb Hbin. unfold bin_of in Hbin. cbv zeta in Hbin.
  set (d := ((v - lo) / w)%Q) in *.
  assert (Ht : (double_to_int d <= Z.of_nat b)%Z)
    by (unfold NUM_BINS in *; lia).
  assert (Hd : (d <= inject_Z (Z.of_nat b + 1))%Q).
  { unfold double_to_int in Ht.
    destruct (Qle_bool 0 d) eqn:E.
    - apply Qlt_le_weak.
      apply Qlt_le_trans with (inject_Z (Qfloor d + 1)); [apply Qlt_floor|].
      rewrite <- Zle_Qle. lia.
    - apply Qle_trans with 0%Q.
      + apply Qlt_le_weak, Qnot_le_lt. intros H.
        apply Qle_bool_iff in H. congruence.
      + change 0%Q with (inject_Z 0). rewrite <- Zle_Qle. lia. }
  apply quotient_le in Hd; [|exact Hw].
  unfold bin_end.
  apply Qplus_le_l with (z := (- lo)%Q).
  setoid_replace (lo + inject_Z (Z.of_nat b + 1) * w + - lo)%Q
    with (inject_Z (Z.of_nat b + 1) * w)%Q by ring.
  exact Hd.
Qed.

(** A particle at or below the end of bin [b] is in one of the bins
    [0 .. b + 1]. *)
Lemma bin_of_next lo w v b : (0 < w)%Q ->
  (v <= bin_end lo w b)%Q -> bin_of lo w v <= S b.
Proof.
  intros Hw Hv. unfold bin_of. cbv zeta.
  set (d := ((v - lo) / w)%Q).
  assert (Hd : (d <= inject_Z (Z.of_nat b + 1))%Q).
  { unfold d. apply Qle_shift_div_r; [exact Hw|].
    unfold bin_end in Hv.
    apply Qplus_le_l with (z := lo).
    setoid_replace (v - lo + lo)%Q with v by ring.
    setoid_replace (inject_Z (Z.of_nat b + 1) * w + lo)%Q
      with (lo + inject_Z (Z.of_nat b + 1) * w)%Q by ring.
    exact Hv. }
  assert (Ht : (double_to_int d <= Z.of_nat b + 1)%Z).
  { unfold double_to_int. destruct (Qle_bool 0 d) eqn:E.
    - rewrite <- (Qfloor_Z (Z.of_nat b + 1)). apply Qfloor_resp_le, Hd.
    - apply Z.le_trans with 0%Z; [|lia].
      apply Z.le_trans with (Qceiling (inject_Z 0));
        [|rewrite Qceiling_Z; lia].
      apply Qceiling_resp_le.
      apply Qlt_le_weak, Qnot_le_lt. intros H.
      apply Qle_bool_iff in H. change (Qle_bool 0 d = true) in H.
      congruence. }
  unfold NUM_BINS. lia.
Qed.

(** *** Counting *)

Lemma filter_length_mono {A : Type} (f g : A -> bool) (l : list A) :
  (forall a, In a l -> f a = true -> g a = true) ->
  length (filter f l) <= length (filter g l).
Proof.
  induction l as [|a l IH]; intros H; simpl; [lia|].
  assert (IH' : length (filter f l) <= length (filter g l))
    by (apply IH; intros b Hb; apply H; right; exact Hb).
  pose proof (H a (or_introl eq_refl)) as Ha.
  destruct (f a), (g a); simpl; try lia; discriminate (Ha eq_refl).
Qed.

Lemma filter_length_all {A : Type} (f : A -> bool) (l : list A) :
  (forall a, In a l -> f a = true) -> length (filter f l) = length l.
Proof.
  intros H. rewrite filter_all by exact H. reflexivity.
Qed.

Lemma count_lt_S {A : Type} (f : A -> nat) (R : list A) (b : nat) :
  length (filter (fun v => f v <? S b) R)
  = length (filter (fun v => f v <? b) R)
    + length (filter (fun v => f v =? b) R).
Proof.
  induction R as [|v R IH]; [reflexivity|].
  cbn [filter].
  destruct (Nat.ltb_spec (f v) b), (Nat.eqb_spec (f v) b),
    (Nat.ltb_spec (f v) (S b)); try lia; cbn [length]; lia.
Qed.

Lemma count_bins_S lo w b R :
  count_bins lo w (S b) R = count_bins lo w b R + count_bin lo w b R.
Proof.
  apply (count_lt_S (bin_of lo w)).
Qed.

Lemma count_bin_le_bins lo w b R : count_bins lo w b R <= length R.
Proof.
  apply filter_length_le.
Qed.

(** [cumsum] counts the particles of the bins gone through. *)
Lemma hist_nth_count lo w R b :
  nth b (map (fun b => Z.of_nat (count_bin lo w b R)) (seq 0 NUM_BINS)) 0%Z
  = Z.of_nat (count_bin lo w b R).
Proof.
  destruct (Nat.lt_ge_cases b NUM_BINS) as [Hb | Hb].
  - exact (@nth_map_seq Z (fun b => Z.of_nat (count_bin lo w b R))
             NUM_BINS b 0%Z Hb).
  - rewrite nth_overflow by (rewrite length_map, length_seq; exact Hb).
    unfold count_bin. rewrite filter_none; [reflexivity|].
    intros v _. apply Nat.eqb_neq. pose proof (bin_of_lt lo w v). lia.
Qed.

Lemma hist_prefix_count lo w R b :
  hist_prefix (map (fun b => Z.of_nat (count_bin lo w b R)) (seq 0 NUM_BINS)) b
  = Z.of_nat (count_bins lo w b R).
Proof.
  induction b as [|b IH].
  - unfold hist_prefix, count_bins. simpl.
    rewrite filter_none; [reflexivity|]. intros v _. reflexivity.
  - rewrite hist_prefix_S, IH, hist_nth_count, count_bins_S. lia.
Qed.

Lemma count_bins_all lo w R b : NUM_BINS <= b -> count_bins lo w b R = length R.
Proof.
  intros Hb. apply filter_length_all. intros v _.
  apply Nat.ltb_lt. pose proof (bin_of_lt lo w v). lia.
Qed.

(** The particles at or below the end of bin [b] are those of the bins
    [0 .. b] at least, and those of the bins [0 .. b + 1] at most. *)
Lemma count_le_bin_end lo w R b : (0 < w)%Q ->
  (forall v, In v R -> (v <= bin_end lo w (NUM_BINS - 1))%Q) ->
  b < NUM_BINS ->
  count_bins lo w (S b) R <= count_le (bin_end lo w b) R /\
  count_le (bin_end lo w b) R <= count_bins lo w (S (S b)) R.
Proof.
  intros Hw Hhi Hb. split.
  - apply filter_length_mono. intros v Hv Hbin.
    apply Nat.ltb_lt in Hbin. apply Qle_bool_iff.
    destruct (Nat.eq_dec (S b) NUM_BINS) as [E | Hne].
    + replace b with (NUM_BINS - 1) by lia. apply Hhi, Hv.
    + apply bin_of_within; [exact Hw | lia | lia].
  - apply filter_length_mono. intros v Hv Hle.
    apply Qle_bool_iff in Hle. apply Nat.ltb_lt.
    pose proof (@bin_of_next lo w v b Hw Hle). lia.
Qed.

(** *** Destinations *)

Lemma lower_bound_le_iff splitters p v :
  StronglySorted Qle splitters -> p < length splitters ->
  (lower_bound splitters v <? S p) = Qle_bool v splitters.[p].
Proof.
  intros Hs Hp. apply eq_true_iff_eq.
  rewrite Nat.ltb_lt, Qle_bool_iff. split.
  - intros Hlb.
    apply Qle_trans with splitters.[lower_bound splitters v].
    + apply lower_bound_below. unfold double in *. lia.
    + destruct (Nat.eq_dec (lower_bound splitters v) p) as [-> | Hne];
        [apply Qle_refl|].
      apply (StronglySorted_nth 0%Q Hs); lia.
  - intros Hv. destruct (Nat.lt_ge_cases p (lower_bound splitters v)) as [Hlt | Hge];
      [|lia].
    apply lower_bound_above in Hlt. apply Qlt_not_le in Hlt. contradiction.
Qed.

Lemma count_dest_below_le splitters p R :
  StronglySorted Qle splitters -> p < length splitters ->
  count_dest_below splitters (S p) R = count_le splitters.[p] R.
Proof.
  intros Hs Hp. unfold count_dest_below, count_le. f_equal.
  apply filter_ext. intros v. apply lower_bound_le_iff; assumption.
Qed.

Lemma count_dest_below_all splitters p R : length splitters < p ->
  count_dest_below splitters p R = length R.
Proof.
  intros Hp. apply filter_length_all. intros v _.
  apply Nat.ltb_lt. pose proof (lower_bound_le splitters v). lia.
Qed.

Lemma count_dest_below_S splitters p R :
  count_dest_below splitters (S p) R
  = count_dest_below splitters p R + count_dest splitters p R.
Proof.
  apply (count_lt_S (lower_bound splitters)).
Qed.

Lemma count_le_all s R : (forall v, In v R -> (v <= s)%Q) ->
  count_le s R = length R.
Proof.
  intros H. apply filter_length_all. intros v Hv.
  apply Qle_bool_iff, H, Hv.
Qed.

(** *** The arithmetic of the pace *)

Section Pace.
Local Open Scope Z_scope.
Variables (T M n : Z) (size m : nat).
Variables (c G : nat -> Z).

Let before (f : nat -> Z) (k : nat) : Z :=
  match k with
  | O => 0
  | S j => f j
  end.

Hypothesis M_nonneg : 0 <= M.
Hypothesis n_nonneg : 0 <= n.
Hypothesis several : (2 <= size)%nat.
Hypothesis target_low : T * Z.of_nat size <= n + Z.of_nat size - 1.
Hypothesis target_high : n <= T * Z.of_nat size.
Hypothesis set_le : (m <= size - 1)%nat.
Hypothesis pace : forall k, (k < m)%nat ->
  T * (Z.of_nat k + 1) <= c k /\
  c k <= Z.max (T * (Z.of_nat k + 1) - 1) (before c k) + M.
Hypothesis counted : forall k, (k < m)%nat ->
  c k <= G k /\ G k <= c k + M /\ G k <= n.
Hypothesis exhausted : (m < size - 1)%nat ->
  n <= Z.max (T * (Z.of_nat m + 1) - 1) (before c m).

Lemma target_nonneg : 0 <= T.
Proof. nia. Qed.

(** With no bin holding more than the target, the loop never runs ahead
    by more than one bin. *)
Lemma pace_kept : M <= T -> forall k, (k < m)%nat ->
  c k <= T * (Z.of_nat k + 1) + M.
Proof.
  intros HM. pose proof target_nonneg as HT.
  induction k as [|k IH]; intros Hk.
  - destruct (pace Hk) as [_ H]. cbn [before] in H. lia.
  - destruct (pace Hk) as [_ H]. cbn [before] in H.
    specialize (IH ltac:(lia)). lia.
Qed.

Lemma before_S (f : nat -> Z) (k j : nat) : k = S j -> before f k = f j.
Proof. intros ->. reflexivity. Qed.

Lemma before_0 (f : nat -> Z) (k : nat) : k = 0%nat -> before f k = 0.
Proof. intros ->. reflexivity. Qed.

Lemma set_cases : m = 0%nat \/ exists j, m = S j.
Proof. destruct m as [|j]; [left; reflexivity | right; exists j; reflexivity]. Qed.

(** A target above the bound leaves no rank without its splitter. *)
Lemma all_set : 2 * M + Z.of_nat size < T -> m = (size - 1)%nat.
Proof.
  intros Hbig. pose proof target_nonneg as HT.
  destruct (Nat.eq_dec m (size - 1)) as [E | Hne]; [exact E | exfalso].
  assert (Hlt : (m < size - 1)%nat) by lia.
  pose proof (exhausted Hlt) as Hex.
  assert (Hmono : T * (Z.of_nat m + 1) <= T * (Z.of_nat size - 1))
    by (apply Z.mul_le_mono_nonneg_l; lia).
  assert (Hb : before c m <= T * (Z.of_nat m + 1)).
  { destruct set_cases as [E | [j E]].
    - rewrite (before_0 c E). nia.
    - rewrite (before_S c E).
      pose proof (@pace_kept ltac:(lia) j ltac:(lia)) as Hk.
      rewrite E. lia. }
  lia.
Qed.

(** The number [N] of particles of rank [p], as the difference of the
    counts at its two splitters. *)
Let upto (j : nat) : Z :=
  match j with
  | O => 0
  | S k => if (k <? m)%nat then G k else n
  end.

Lemma pace_balance (p : nat) (N : Z) :
  (p < size)%nat -> 0 <= N -> N = upto (S p) - upto p ->
  Z.abs (N - T) <= 2 * M + Z.of_nat size.
Proof.
  intros Hp HN HNp. pose proof target_nonneg as HT.
  assert (Hup : N - T <= 2 * M + Z.of_nat size).
  { unfold upto in HNp.
    destruct (Nat.ltb_spec p m) as [Hpm | Hpm].
    - destruct (pace Hpm) as [Hc1 Hc2]. destruct (counted Hpm) as (Hg1 & Hg2 & _).
      destruct p as [|j]; cbn [before] in *.
      + lia.
      + destruct (Nat.ltb_spec j m) as [Hjm | Hjm]; [|lia].
        destruct (pace Hjm) as [Hd1 _]. destruct (counted Hjm) as (Hh1 & _).
        lia.
    - destruct p as [|j].
      + assert (E : m = 0%nat) by lia.
        destruct (Nat.eq_dec m (size - 1)) as [E' | Hne]; [lia|].
        pose proof (exhausted ltac:(lia)) as Hex.
        rewrite (before_0 c E), E in Hex. lia.
      + destruct (Nat.ltb_spec j m) as [Hjm | Hjm]; [|lia].
        assert (E : m = S j) by lia.
        destruct (pace Hjm) as [Hd1 _]. destruct (counted Hjm) as (Hh1 & _).
        destruct (Nat.eq_dec m (size - 1)) as [E' | Hne].
        * assert (Hs : Z.of_nat size = Z.of_nat j + 2) by lia.
          rewrite Hs in *. lia.
        * pose proof (exhausted ltac:(lia)) as Hex.
          rewrite (before_S c E), E in Hex. lia. }
  assert (Hlow : T - N <= 2 * M + Z.of_nat size).
  { destruct (Z.le_gt_cases T (2 * M + Z.of_nat size)) as [Hsmall | Hbig];
      [lia|].
    pose proof (all_set Hbig) as Hm.
    assert (HMT : M <= T) by lia.
    unfold upto in HNp.
    destruct (Nat.ltb_spec p m) as [Hpm | Hpm].
    - destruct (pace Hpm) as [Hc1 _]. destruct (counted Hpm) as (Hg1 & _).
      destruct p as [|j].
      + lia.
      + destruct (Nat.ltb_spec j m) as [Hjm | Hjm]; [|lia].
        destruct (counted Hjm) as (_ & Hh2 & _).
        pose proof (pace_kept HMT Hjm). lia.
    - assert (E : p = m) by lia.
      destruct p as [|j]; [lia|].
      destruct (Nat.ltb_spec j m) as [Hjm | Hjm]; [|lia].
      destruct (counted Hjm) as (_ & Hh2 & _).
      pose proof (pace_kept HMT Hjm).
      assert (Hs : Z.of_nat size = Z.of_nat j + 2) by lia.
      rewrite Hs in *. lia. }
  lia.
Qed.
End Pace.

(** *** The shares of the ranks *)

Lemma widen_ge lo hi : (hi <= widen lo hi)%Q.
Proof.
  unfold widen. destruct (dlt (hi - lo) double_1e_15) eqn:E; [|apply Qle_refl].
  apply dlt_true in E.
  apply Qplus_le_l with (z := (- lo)%Q).
  setoid_replace (lo + 1 + - lo)%Q with 1%Q by ring.
  apply Qlt_le_weak, Qlt_trans with double_1e_15; [exact E | reflexivity].
Qed.

Lemma hist_prefix_all global_hist :
  hist_prefix global_hist (length global_hist) = fold_left Z.add global_hist 0%Z.
Proof.
  unfold hist_prefix. rewrite firstn_all. reflexivity.
Qed.

Lemma count_dest_below_0 splitters R : count_dest_below splitters 0 R = 0.
Proof.
  unfold count_dest_below. rewrite filter_none; [reflexivity|].
  intros v _. reflexivity.
Qed.

Lemma count_le_length s R : count_le s R <= length R.
Proof.
  apply filter_length_le.
Qed.

Lemma paced_start global_hist target h_max :
  paced global_hist target h_max 0 [].
Proof.
  split.
  - intros k Hk. simpl in Hk. lia.
  - unfold hist_prefix. cbn [firstn fold_left length cumsum_before]. lia.
Qed.

(** The whole loop, from the first bin. *)
Lemma splitter_loop_from_start size (lo w : double) global_hist target h_max :
  (forall b, nth b global_hist 0 <= h_max)%Z ->
  exists bins b1,
    splitter_loop size lo w global_hist target (seq 0 NUM_BINS) 0%Z []
    = map (bin_end lo w) bins /\
    paced global_hist target h_max b1 bins /\
    b1 <= NUM_BINS /\
    length bins <= size - 1 /\
    (length bins < size - 1 -> b1 = NUM_BINS).
Proof.
  intros Hh.
  destruct (@splitter_loop_paced size lo w global_hist target h_max Hh
              NUM_BINS 0 [] (paced_start global_hist target h_max))
    as (bins & b1 & H1 & H2 & H3 & H4 & H5).
  exists bins, b1. split; [exact H1|]. split; [exact H2|].
  split; [exact H3|]. split; [apply H4; apply Nat.le_0_l | exact H5].
Qed.

(** The splitters, from the bins they were set at. *)
Lemma splitters_of_bins size (lo hi : double) global_hist (h_max n : Z) :
  (forall b, nth b global_hist 0 <= h_max)%Z ->
  fold_left Z.add global_hist 0%Z = n ->
  let w := bin_width_of lo hi in
  let target := ((n + Z.of_nat size - 1) ÷ Z.of_nat size)%Z in
  exists bins b1,
    splitters_of size lo hi global_hist
    = map (bin_end lo w) bins ++ repeat hi (size - 1 - length bins) /\
    paced global_hist target h_max b1 bins /\
    b1 <= NUM_BINS /\
    length bins <= size - 1 /\
    (length bins < size - 1 -> b1 = NUM_BINS).
Proof.
  intros Hh Htotal w target.
  destruct (@splitter_loop_from_start size lo w global_hist target h_max Hh)
    as (bins & b1 & Hloop & Hrest).
  exists bins, b1. split; [|exact Hrest].
  unfold splitters_of. cbv zeta. rewrite Htotal.
  fold w. fold target. rewrite Hloop, length_map. reflexivity.
Qed.

Lemma routing_splitters_of {SORT : StdSort} shells : length shells <> 1 ->
  let sorted := locally_sorted shells in
  routing shells
  = splitters_of (length shells) (global_min sorted) (global_max sorted)
      (global_hist_of sorted).
Proof.
  intros Hsize sorted. unfold routing.
  destruct (Nat.eqb_spec (length shells) 1) as [E | _]; [contradiction|].
  unfold global_splitters, global_hist_of. cbv zeta.
  rewrite locally_sorted_length. reflexivity.
Qed.

Lemma last_bin_end lo hi :
  (bin_end lo (bin_width_of lo hi) (NUM_BINS - 1) == hi)%Q.
Proof.
  unfold bin_end. apply (bin_width_full lo hi).
Qed.

Section LoadBalance.
Context {SORT : StdSort} {SORTL : StdSortLaws SORT}.

(** No particle is above the widened maximum, which is the end of the last
    bin. *)
Lemma radii_below_last_bin shells :
  shells <> [] ->
  let sorted := locally_sorted shells in
  let lo := global_min sorted in
  let w := bin_width_of lo (global_max sorted) in
  forall v, In v (radii sorted) -> (v <= bin_end lo w (NUM_BINS - 1))%Q.
Proof.
  intros Hne sorted lo w v Hv.
  assert (Hnonneg : forall u, In u (radii sorted) -> (- DBL_MAX <= u)%Q).
  { intros u Hu.
    assert (Hu' : In u (radii (map computeSquareRadius shells))).
    { unfold radii in *. eapply Permutation_in; [|exact Hu].
      apply Permutation_map, locally_sorted_all_records. }
    unfold radii in Hu'. apply in_map_iff in Hu'.
    destruct Hu' as (rec & <- & Hrec).
    pose proof (all_records_recomputed_consistent shells) as Hc.
    rewrite Forall_forall in Hc.
    apply Qle_trans with 0%Q; [|apply consistent_nonneg, Hc, Hrec].
    unfold DBL_MAX, Qle. simpl. lia. }
  assert (Hs : sorted <> []).
  { intros E. apply (f_equal (@length _)) in E.
    unfold sorted in E. rewrite locally_sorted_length in E.
    destruct shells; [contradiction | discriminate E]. }
  destruct (@global_max_greatest sorted Hs) as [Hmax _].
  { intros ps Hps. apply locally_sorted_I1 with shells. exact Hps. }
  { exact Hnonneg. }
  apply Qle_trans with (global_max sorted).
  - unfold global_max.
    apply Qle_trans with (MPI_Allreduce_max (map r2_max_local sorted));
      [apply Hmax, Hv | apply widen_ge].
  - unfold w. rewrite last_bin_end. apply Qle_refl.
Qed.

(** The share of every rank, from the histogram: with at least two ranks,
    the number of particles the splitters give to rank [r] is within twice
    the fullest bin, and the number of ranks, of the target. *)
Lemma routed_share shells (h_max r : nat) :
  2 <= length shells -> r < length shells ->
  Forall (fun h => (h <= Z.of_nat h_max)%Z)
         (global_hist_of (locally_sorted shells)) ->
  let R := radii (locally_sorted shells) in
  (deviation (length shells) (length R) (count_dest (routing shells) r R)
   <= 2 * Z.of_nat h_max + Z.of_nat (length shells))%Z.
Proof.
  intros Hsize Hr Hmax R.
  set (sorted := locally_sorted shells) in *.
  set (lo := global_min sorted).
  set (hi := global_max sorted).
  set (w := bin_width_of lo hi).
  set (H := global_hist_of sorted) in *.
  assert (Hlen : length sorted = length shells) by apply locally_sorted_length.
  assert (Hne : shells <> []) by (intros E; rewrite E in Hsize; simpl in Hsize; lia).
  assert (Hw : (0 < w)%Q) by apply bin_width_pos.
  assert (HH : H = map (fun b => Z.of_nat (count_bin lo w b R)) (seq 0 NUM_BINS))
    by apply global_hist_eq.
  assert (Hpre : forall b, hist_prefix H b = Z.of_nat (count_bins lo w b R))
    by (intros b; rewrite HH; apply hist_prefix_count).
  assert (Hnth : forall b, (nth b H 0 <= Z.of_nat h_max)%Z).
  { intros b. destruct (Nat.lt_ge_cases b (length H)) as [Hb | Hb].
    - rewrite Forall_forall in Hmax. apply Hmax, nth_In, Hb.
    - rewrite nth_overflow by exact Hb. lia. }
  assert (Htotal : fold_left Z.add H 0%Z = Z.of_nat (length R)).
  { rewrite <- hist_prefix_all, Hpre. f_equal.
    apply count_bins_all. rewrite HH, length_map, length_seq. lia. }
  assert (Hhi : forall v, In v R -> (v <= bin_end lo w (NUM_BINS - 1))%Q)
    by (apply radii_below_last_bin; exact Hne).
  (* the splitters *)
  pose proof (routing_length shells) as Hsl.
  pose proof (routing_sorted shells) as Hss.
  destruct (@splitters_of_bins (length shells) lo hi H (Z.of_nat h_max)
              (Z.of_nat (length R)) Hnth Htotal)
    as (bins & b1 & Hsplit & Hpaced & Hb1 & Hset & Hall).
  assert (Hrouting : routing shells
            = map (bin_end lo w) bins
              ++ repeat hi (length shells - 1 - length bins)).
  { etransitivity; [apply routing_splitters_of; lia | exact Hsplit]. }
  clear Hsplit.
  set (T := ((Z.of_nat (length R) + Z.of_nat (length shells) - 1)
             ÷ Z.of_nat (length shells))%Z) in *.
  destruct Hpaced as [Hpace Hnow].
  assert (HT : T = ((Z.of_nat (length R) + Z.of_nat (length shells) - 1)
                    / Z.of_nat (length shells))%Z)
    by (apply Z.quot_div_nonneg; lia).
  (* the counts at the splitters *)
  assert (Hupto : forall k, k < length shells ->
            Z.of_nat (count_dest_below (routing shells) (S k) R)
            = if k <? length bins
              then Z.of_nat (count_le (bin_end lo w (nth k bins 0)) R)
              else Z.of_nat (length R)).
  { intros k Hk.
    destruct (Nat.lt_ge_cases k (length shells - 1)) as [Hin | Hout].
    - rewrite (@count_dest_below_le (routing shells) k R Hss)
        by (unfold double in *; lia).
      rewrite Hrouting at 1. unfold at_.
      destruct (Nat.ltb_spec k (length bins)) as [Hkm | Hkm].
      + rewrite app_nth1 by (rewrite length_map; exact Hkm).
        rewrite (@nth_map_in _ _ (bin_end lo w) bins k 0%Q 0 Hkm).
        reflexivity.
      + rewrite app_nth2 by (rewrite length_map; exact Hkm).
        rewrite nth_repeat_lt by (rewrite length_map; lia).
        f_equal. apply count_le_all. intros v Hv.
        apply Qle_trans with (bin_end lo w (NUM_BINS - 1)); [apply Hhi, Hv|].
        unfold w. rewrite last_bin_end. apply Qle_refl.
    - rewrite count_dest_below_all by (rewrite Hsl; lia).
      destruct (Nat.ltb_spec k (length bins)) as [Hkm | Hkm]; [lia | reflexivity]. }
  unfold deviation. rewrite <- HT.
  apply pace_balance with
    (n := Z.of_nat (length R)) (p := r)
    (m := length bins) (c := cumsum_at H bins)
    (G := fun k => Z.of_nat (count_le (bin_end lo w (nth k bins 0)) R)).
  - lia.
  - lia.
  - exact Hsize.
  - rewrite HT, Z.mul_comm. apply Z.mul_div_le. lia.
  - rewrite HT.
    pose proof (Z.mul_succ_div_gt
                  (Z.of_nat (length R) + Z.of_nat (length shells) - 1)
                  (Z.of_nat (length shells)) ltac:(lia)). lia.
  - exact Hset.
  - intros k Hk. destruct (Hpace k Hk) as (_ & H1 & H2). split; assumption.
  - intros k Hk. destruct (Hpace k Hk) as (Hb & _ & _).
    assert (Hbk : nth k bins 0 < NUM_BINS) by lia.
    destruct (@count_le_bin_end lo w R (nth k bins 0) Hw Hhi Hbk) as [Hl Hu].
    unfold cumsum_at. rewrite Hpre.
    pose proof (hist_prefix_S H (S (nth k bins 0))) as HS.
    rewrite !Hpre in HS. pose proof (Hnth (S (nth k bins 0))).
    pose proof (count_le_length (bin_end lo w (nth k bins 0)) R).
    lia.
  - intros Hfew. specialize (Hall Hfew). rewrite Hall, Hpre in Hnow.
    rewrite count_bins_all in Hnow by apply Nat.le_refl. exact Hnow.
  - exact Hr.
  - lia.
  - pose proof (count_dest_below_S (routing shells) r R) as HS.
    rewrite <- (Hupto r Hr).
    destruct r as [|j].
    + rewrite HS, count_dest_below_0. lia.
    + rewrite <- (Hupto j ltac:(lia)). lia.
Qed.
End LoadBalance.

Section LoadBalanceOfTheCall.
Context {SORT : StdSort} {SORTL : StdSortLaws SORT}.
Context {PQ : StdPriorityQueue} {PQL : StdPriorityQueueLaws PQ}.

End LoadBalanceOfTheCall.

(** ** The solver on one rank and on many *)

Lemma In_firstn {A : Type} (a : A) n l : In a (firstn n l) -> In a l.
Proof.
  intros H. rewrite <- (firstn_skipn n l). apply in_or_app. left; exact H.
Qed.

Lemma nth_firstn_lt {A : Type} (l : list A) i n d :
  i < n -> nth i (firstn n l) d = nth i l d.
Proof.
  intros H. rewrite nth_firstn.
  destruct (Nat.ltb_spec i n); [reflexivity | lia].
Qed.

Lemma offset_of_eq shells p : p < length shells ->
  offset_of shells p = list_sum (map n_particles (firstn p shells)).
Proof.
  intros Hp. unfold offset_of.
  rewrite displacements_nth by (rewrite length_map; exact Hp).
  rewrite firstn_map. reflexivity.
Qed.

Lemma firstn_concat_shells (f : ParticleSystem -> list double) : forall shells p k,
  (forall ps, In ps shells -> length (f ps) = n_particles ps) ->
  p < length shells -> k <= n_particles (shell shells p) ->
  firstn (list_sum (map n_particles (firstn p shells)) + k)
         (concat (map f shells))
  = concat (map f (firstn p shells)) ++ firstn k (f (shell shells p)).
Proof.
  induction shells as [|a shells IH]; intros p k Hlen Hp Hk; simpl in Hp; [lia|].
  destruct p as [|p].
  - unfold shell in *. cbn [firstn map list_sum concat nth Nat.add app] in *.
    rewrite firstn_app.
    rewrite (Hlen a) by (left; reflexivity).
    change (list_sum [] + k) with k.
    replace (k - n_particles a) with 0 by lia.
    rewrite firstn_0, app_nil_r. reflexivity.
  - unfold shell in *. cbn [firstn map list_sum concat nth] in *.
    rewrite firstn_app, (Hlen a) by (left; reflexivity).
    change (list_sum (n_particles a :: ?l)) with (n_particles a + list_sum l).
    rewrite firstn_all2 by (rewrite (Hlen a) by (left; reflexivity); lia).
    replace (n_particles a + list_sum (map n_particles (firstn p shells)) + k
             - n_particles a)
      with (list_sum (map n_particles (firstn p shells)) + k) by lia.
    rewrite <- app_assoc. f_equal.
    apply IH; [intros ps Hps; apply Hlen; right; exact Hps | lia | exact Hk].
Qed.

Lemma at_concat_shells (f : ParticleSystem -> list double) shells p i :
  (forall ps, In ps shells -> length (f ps) = n_particles ps) ->
  p < length shells -> i < n_particles (shell shells p) ->
  (concat (map f shells)).[offset_of shells p + i] = (f (shell shells p)).[i].
Proof.
  intros Hlen Hp Hi. rewrite offset_of_eq by exact Hp.
  set (o := list_sum (map n_particles (firstn p shells))).
  assert (Hcut : firstn (o + S i) (concat (map f shells))
                 = concat (map f (firstn p shells))
                   ++ firstn (S i) (f (shell shells p)))
    by (apply firstn_concat_shells; [exact Hlen | exact Hp | lia]).
  assert (Ho : length (concat (map f (firstn p shells))) = o).
  { unfold o. rewrite length_concat, map_map. f_equal.
    apply map_ext_in. intros ps Hps. apply Hlen.
    eapply In_firstn. exact Hps. }
  unfold at_.
  rewrite <- (@nth_firstn_lt _ (concat (map f shells)) (o + i) (o + S i) 0%Q) by lia.
  rewrite Hcut, app_nth2 by lia. rewrite Ho.
  replace (o + i - o) with i by lia.
  apply nth_firstn_lt. lia.
Qed.

Lemma fold_at_Qsum (v : list double) k (c : Q) : k <= length v ->
  (fold_left (fun a j => a + v.[j]) (seq 0 k) c == c + Qsum (firstn k v))%Q.
Proof.
  intros Hk.
  rewrite (@fold_left_Qsum _ _ (fun j => v.[j])) by (intros; reflexivity).
  rewrite <- firstn_at by exact Hk. reflexivity.
Qed.

Lemma Qsum_concat (l : list (list Q)) :
  (Qsum (concat l) == Qsum (map Qsum l))%Q.
Proof.
  rewrite <- (map_id l) at 1. rewrite <- flat_map_concat_map.
  apply Qsum_flat_map.
Qed.

Lemma local_charge_sum_Qsum ps : length (q ps) = n_particles ps ->
  (local_charge_sum ps == Qsum (q ps))%Q.
Proof.
  intros Hq. unfold local_charge_sum.
  rewrite fold_at_Qsum by lia. rewrite <- Hq, firstn_all. apply Qplus_0_l.
Qed.

Lemma offset_bound shells p i : p < length shells ->
  i < n_particles (shell shells p) ->
  offset_of shells p + i < list_sum (map n_particles shells).
Proof.
  intros Hp Hi. rewrite offset_of_eq by exact Hp.
  replace (list_sum (map n_particles shells))
    with (list_sum (map n_particles (firstn p shells ++ skipn p shells)))
    by (rewrite firstn_skipn; reflexivity).
  rewrite map_app, list_sum_app.
  assert (Hs : skipn p shells = shell shells p :: skipn (S p) shells).
  { unfold shell. revert p Hp Hi. induction shells as [|a shells IH];
      intros p Hp Hi; simpl in Hp; [lia|].
    destruct p as [|p]; [reflexivity|]. simpl. apply IH; [lia | exact Hi]. }
  rewrite Hs. simpl. lia.
Qed.

(** X26: on binary64 numbers the grouping of the sums by rank shows in the
    last bits: with the charges 1e16, 1, 1, 1 at [r2 = 1, 2, 3, 4], the
    last particle gets 2500000000000000 when one rank holds the four, and
    2500000000000001 when three ranks hold one, two and one of them. *)
Theorem grouping_shows_on_binary64 :
  let one_rank :=
    Binary64.run_updateElectricFieldParallel
      [([1e16; 1; 1; 1], [1; 2; 3; 4])]%float in
  let three_ranks :=
    Binary64.run_updateElectricFieldParallel
      [([1e16], [1]); ([1; 1], [2; 3]); ([1], [4])]%float in
  nth 3 (nth 0 one_rank []) 0%float = 2500000000000000%float /\
  nth 0 (nth 2 three_ranks []) 0%float = 2500000000000001%float.
Proof.
  split; vm_compute; reflexivity.
Qed.

(** X2: in exact arithmetic, the field of a particle is the same whether
    its shell is one of many or all the shells are on one rank. *)
Theorem updateElectricFieldParallel_by_particles
    (shells : list ParticleSystem) (p i : nat) :
  (forall ps, In ps shells -> sized ps) ->
  p < length shells -> i < n_particles (shell shells p) ->
  ((Er (shell (run_updateElectricFieldParallel shells) p)).[i]
   == (Er (shell (run_updateElectricFieldParallel [on_one_rank shells]) 0))
        .[offset_of shells p + i])%Q.
Proof.
  intros Hs Hp Hi.
  assert (Hq : forall ps, In ps shells -> length (q ps) = n_particles ps)
    by (intros ps Hps; apply (sized_elim (Hs ps Hps))).
  assert (Hr : forall ps, In ps shells -> length (r2 ps) = n_particles ps)
    by (intros ps Hps; apply (sized_elim (Hs ps Hps))).
  pose proof (offset_bound shells Hp Hi) as Hbound.
  rewrite run_field_shell by exact Hp.
  rewrite run_field_shell by (simpl; lia).
  change (shell [on_one_rank shells] 0) with (on_one_rank shells).
  set (ps := shell shells p) in *.
  unfold updateElectricFieldParallel. cbn [rank set_Er Er Nat.eqb].
  unfold at_ at 1 2.
  rewrite !app_nth1
    by (rewrite field_sweep_length, length_seq; first [exact Hi | exact Hbound]).
  change (nth ?k ?l 0%Q) with (l.[k]).
  rewrite field_sweep_nth by exact Hi.
  rewrite field_sweep_nth by exact Hbound.
  cbv zeta. rewrite !Nat.add_0_l.
  cbn [r2 q on_one_rank].
  rewrite (at_concat_shells r2) by assumption. fold ps.
  destruct (dlt double_1e_30 (r2 ps).[i]); [|reflexivity].
  apply Qdiv_comp; [|reflexivity].
  rewrite fold_at_Qsum by (rewrite (Hq ps) by (apply nth_In; exact Hp); lia).
  rewrite fold_at_Qsum
    by (rewrite length_concat, map_map,
          (map_ext_in _ n_particles) by (intros ? H; apply Hq, H); lia).
  rewrite offset_of_eq by exact Hp.
  replace (S (list_sum (map n_particles (firstn p shells)) + i))
    with (list_sum (map n_particles (firstn p shells)) + S i) by lia.
  rewrite (firstn_concat_shells q) by (try assumption; fold ps; lia).
  fold ps. rewrite Qsum_app, Qplus_0_l. apply Qplus_comp; [|reflexivity].
  assert (Hscan : (if p =? 0 then 0%Q
                   else MPI_Exscan_sum (map local_charge_sum shells) p 0%Q)
                  = fold_left Qplus (firstn p (map local_charge_sum shells)) 0%Q)
    by (destruct p; reflexivity).
  rewrite Hscan.
  change (fold_left Qplus ?l 0%Q) with (MPI_Allreduce_dsum l).
  rewrite MPI_Allreduce_dsum_Qsum, Qsum_concat, firstn_map, map_map.
  apply Qsum_ext. intros ps' Hps'. apply local_charge_sum_Qsum, Hq.
  eapply In_firstn. exact Hps'.
Qed.

(** ** The initial particles *)

Lemma triples_ind {A : Type} (P : list A -> Prop) :
  P [] -> (forall a, P [a]) -> (forall a b, P [a; b]) ->
  (forall a b c rest, P rest -> P (a :: b :: c :: rest)) ->
  forall l, P l.
Proof.
  intros H0 H1 H2 H3.
  fix IH 1. intros [|a [|b [|c rest]]].
  - exact H0.
  - apply H1.
  - apply H2.
  - apply H3, IH.
Qed.

Section GenerationProofs.
Variable RAND_MAX : Z.

Lemma store_sized ps valid px py pz charge radius2 :
  sized ps -> sized (store ps valid px py pz charge radius2).
Proof.
  intros H. apply sized_elim in H.
  destruct H as (? & ? & ? & ? & ? & ? & ? & ? & ?).
  apply sized_intro; unfold store;
    cbn [x y z vx vy vz q Er r2 n_particles];
    rewrite ?upd_length; assumption.
Qed.

Lemma record_of_store_eq ps valid px py pz charge :
  sized ps -> valid < n_particles ps -> (Er ps).[valid] = 0%Q ->
  record_of (store ps valid px py pz charge (radius2_of (px, py, pz))) valid
  = record_at_rest charge (px, py, pz).
Proof.
  intros Hs Hv HEr. apply sized_elim in Hs.
  destruct Hs as (? & ? & ? & ? & ? & ? & ? & ? & ?).
  unfold record_of, store, record_at_rest, at_.
  cbn [x y z vx vy vz q Er r2].
  rewrite !nth_upd_eq by lia. unfold at_ in HEr. rewrite HEr. reflexivity.
Qed.

Lemma record_of_store_neq ps valid px py pz charge radius2 i :
  i <> valid ->
  record_of (store ps valid px py pz charge radius2) i = record_of ps i.
Proof.
  intros Hi. unfold record_of, store, at_.
  cbn [x y z vx vy vz q Er r2].
  rewrite !nth_upd_neq by lia. reflexivity.
Qed.

(** The loop, from any of its states. *)
Lemma generate_loop_spec R charge local_N : forall stream ps valid local_max_r2,
  sized ps -> n_particles ps = local_N -> valid <= local_N ->
  (forall i, (Er ps).[i] = 0%Q) ->
  local_N - valid <= length (accepted RAND_MAX R stream) ->
  exists ps',
    generate_loop RAND_MAX R charge local_N stream ps valid local_max_r2
    = Some (ps',
            fold_left (fun m v => if dlt m v then v else m)
              (map radius2_of
                   (firstn (local_N - valid) (accepted RAND_MAX R stream)))
              local_max_r2) /\
    sized ps' /\ n_particles ps' = local_N /\
    (forall i, i < valid -> record_of ps' i = record_of ps i) /\
    (forall k, k < local_N - valid ->
       record_of ps' (valid + k)
       = record_at_rest charge
           (nth k (accepted RAND_MAX R stream) (0, 0, 0)%Q)).
Proof.
  assert (Hdone : forall stream ps valid local_max_r2,
            local_N <= valid ->
            generate_loop RAND_MAX R charge local_N stream ps valid local_max_r2
            = Some (ps, local_max_r2)).
  { intros stream ps valid m Hv.
    destruct stream; cbn [generate_loop];
      (replace (valid <? local_N) with false
         by (symmetry; apply Nat.ltb_ge; exact Hv)); reflexivity. }
  assert (Hshort : forall stream ps valid local_max_r2,
            sized ps -> n_particles ps = local_N -> local_N <= valid ->
            exists ps',
              generate_loop RAND_MAX R charge local_N stream ps valid local_max_r2
              = Some (ps',
                      fold_left (fun m v => if dlt m v then v else m)
                        (map radius2_of
                             (firstn (local_N - valid)
                                     (accepted RAND_MAX R stream)))
                        local_max_r2) /\
              sized ps' /\ n_particles ps' = local_N /\
              (forall i, i < valid -> record_of ps' i = record_of ps i) /\
              (forall k, k < local_N - valid ->
                 record_of ps' (valid + k)
                 = record_at_rest charge
                     (nth k (accepted RAND_MAX R stream) (0, 0, 0)%Q))).
  { intros stream ps valid m Hs Hn Hv. exists ps.
    rewrite Hdone by lia.
    replace (local_N - valid) with 0 by lia. cbn [firstn map fold_left].
    repeat split; try assumption.
    intros k Hk. lia. }
  intros stream. induction stream as [| a | a b | r_x r_y r_z rest IH]
    using triples_ind; intros ps valid m Hs Hn Hv HEr Hacc;
    try (simpl in Hacc; apply Hshort; try assumption; lia).
  destruct (Nat.eq_dec valid local_N) as [Heq | Hne].
  { apply Hshort; try assumption; lia. }
  cbn [generate_loop].
  replace (valid <? local_N) with true by (symmetry; apply Nat.ltb_lt; lia).
  cbv zeta.
  unfold accepted in *. cbn [points filter] in *.
  set (px := coordinate RAND_MAX R r_x) in *.
  set (py := coordinate RAND_MAX R r_y) in *.
  set (pz := coordinate RAND_MAX R r_z) in *.
  change (px * px + py * py + pz * pz)%Q with (radius2_of (px, py, pz)).
  destruct (Qle_bool (radius2_of (px, py, pz)) (R * R)).
  - cbn [length] in Hacc.
    destruct (IH (store ps valid px py pz charge (radius2_of (px, py, pz)))
                 (S valid)
                 (if dlt m (radius2_of (px, py, pz))
                  then radius2_of (px, py, pz) else m))
      as (ps' & Hrun & Hs' & Hn' & Hold & Hnew).
    + apply store_sized, Hs.
    + exact Hn.
    + lia.
    + intros i. apply HEr.
    + lia.
    + exists ps'.
      replace (local_N - valid) with (S (local_N - S valid)) by lia.
      cbn [firstn map fold_left].
      split; [exact Hrun|]. split; [exact Hs'|]. split; [exact Hn'|].
      split.
      * intros i Hi. rewrite Hold by lia.
        apply record_of_store_neq. lia.
      * intros [|k] Hk.
        -- rewrite Nat.add_0_r, Hold by lia. cbn [nth].
           apply record_of_store_eq; [exact Hs | lia | apply HEr].
        -- replace (valid + S k) with (S valid + k) by lia. cbn [nth].
           apply Hnew. lia.
  - destruct (IH ps valid m Hs Hn Hv HEr Hacc)
      as (ps' & Hrun & Hs' & Hn' & Hold & Hnew).
    exists ps'. repeat split; assumption.
Qed.

(** The loop is still running when the stream ends before [local_N]
    points were accepted. *)
Lemma generate_loop_starved R charge local_N : forall stream ps valid local_max_r2,
  length (accepted RAND_MAX R stream) < local_N - valid ->
  generate_loop RAND_MAX R charge local_N stream ps valid local_max_r2 = None.
Proof.
  intros stream. induction stream as [| a | a b | r_x r_y r_z rest IH]
    using triples_ind; intros ps valid m Hacc;
    try (cbn [generate_loop];
         replace (valid <? local_N) with true
           by (symmetry; apply Nat.ltb_lt; lia);
         reflexivity).
  cbn [generate_loop].
  replace (valid <? local_N) with true by (symmetry; apply Nat.ltb_lt; lia).
  cbv zeta. unfold accepted in *. cbn [points filter] in Hacc.
  change (coordinate RAND_MAX R r_x * coordinate RAND_MAX R r_x
          + coordinate RAND_MAX R r_y * coordinate RAND_MAX R r_y
          + coordinate RAND_MAX R r_z * coordinate RAND_MAX R r_z)%Q
    with (radius2_of (coordinate RAND_MAX R r_x, coordinate RAND_MAX R r_y,
                      coordinate RAND_MAX R r_z)).
  destruct (Qle_bool _ _).
  - apply IH. cbn [length] in Hacc. lia.
  - apply IH. exact Hacc.
Qed.

End GenerationProofs.

(** ** The performance summary *)

(** X22: the two figures of the summary are estimates from one count: for a
    positive time, in exact arithmetic (the code rounds each quotient
    separately), the bandwidth is 11.52 times the throughput, and the
    throughput is not negative when the sizes are not. *)
Theorem calculatePerformanceMetrics_estimates (Nt N num_species : Z)
    (elapsed : double) :
  (0 < elapsed)%Q ->
  let metrics := calculatePerformanceMetrics Nt N num_species elapsed in
  total_time metrics = elapsed /\
  (memory_bandwidth metrics == 11.52 * gflops metrics)%Q /\
  ((0 <= Nt)%Z -> (0 <= N)%Z -> (0 <= num_species)%Z ->
   (0 <= gflops metrics)%Q).
Proof.
  intros Ht. cbv zeta. unfold calculatePerformanceMetrics.
  cbn [total_time gflops memory_bandwidth].
  split; [reflexivity|]. split.
  - field. split.
    + intros H. vm_compute in H. discriminate H.
    + intros H. rewrite H in Ht. discriminate Ht.
  - intros HNt HN Hs. unfold Qdiv.
    apply Qmult_le_0_compat.
    + repeat apply Qmult_le_0_compat; try discriminate;
        rewrite <- (Zle_Qle 0); assumption.
    + apply Qinv_le_0_compat.
      apply Qmult_le_0_compat; [apply Qlt_le_weak, Ht | discriminate].
Qed.

(** ** The innermost particle, and the exchange *)

Lemma lower_bound_all_above l v :
  Forall (fun s => (v < s)%Q) l -> lower_bound l v = 0.
Proof.
  intros H. destruct H as [|s l Hs _]; [reflexivity|].
  simpl. replace (dlt s v) with false; [reflexivity|].
  symmetry. apply dlt_false, Qlt_le_weak, Hs.
Qed.

Section Innermost.
Context {SORT : StdSort} {SORTL : StdSortLaws SORT}.
Context {PQ : StdPriorityQueue} {PQL : StdPriorityQueueLaws PQ}.

End Innermost.

Section Exchange.
Context {SORT : StdSort}.

End Exchange.

(** ** The time step, run *)

Ltac shells_ok :=
  let ps := fresh "ps" in
  let H := fresh "H" in
  intros ps H; simpl in H;
  repeat (destruct H as [<- | H]; [split; [repeat constructor | reflexivity]|]);
  destruct H.

Ltac shells_sized :=
  let ps := fresh "ps" in
  let H := fresh "H" in
  intros ps H; simpl in H;
  repeat (destruct H as [<- | H]; [repeat constructor|]);
  destruct H.

Ltac radii_finite :=
  let v := fresh "v" in
  let H := fresh "H" in
  intros v H; vm_compute in H;
  repeat (destruct H as [<- | H]; [vm_compute; discriminate|]);
  destruct H.

(** The mover on [orbiting]. *)
Lemma updatePositions_angular_momentum_orbiting :
  let ps' := @updatePositions floor_StdMath orbiting (1 # 10) in
  vec3_eq (cross (position ps' 0) (velocity ps' 0))
          (cross (position orbiting 0) (velocity orbiting 0)).
Proof.
  apply (@updatePositions_angular_momentum floor_StdMath orbiting (1 # 10) 0).
  - vm_compute. discriminate.
  - simpl. lia.
Defined.

(** The mover on [outbound]. *)
Lemma updatePositions_radial_outbound :
  let ps' := @updatePositions floor_StdMath outbound (1 # 10) in
  vec3_eq (cross (position ps' 0) (position outbound 0)) vec3_zero /\
  vec3_eq (cross (position ps' 0) (velocity ps' 0)) vec3_zero.
Proof.
  apply (@updatePositions_radial floor_StdMath outbound (1 # 10) 0).
  - vm_compute. discriminate.
  - simpl. lia.
  - vm_compute. repeat split.
Defined.






(** Ten particles on three ranks: 4, 3 and 3. *)
Lemma local_N_of_total_10_3 :
  let counts :=
    map (fun rank => local_N_of 10 {| rank := rank; size := 3 |}) (seq 0 3) in
  fold_left Z.add counts 0%Z = 10%Z /\
  Forall (fun c => (10 ÷ Z.of_nat 3 <= c <= 10 ÷ Z.of_nat 3 + 1)%Z) counts.
Proof.
  apply (@local_N_of_total 10 3).
  - lia.
  - lia.
  - vm_compute. reflexivity.
Defined.


(** A shell of one particle, grown to three. *)
Lemma resize_records_orbiting :
  sized (resize orbiting 3) /\
  records (resize orbiting 3)
  = firstn 3 (records orbiting)
    ++ repeat (repeat 0%Q num_fields) (3 - n_particles orbiting).
Proof.
  apply (@resize_records orbiting 3).
  repeat constructor.
Defined.




(** The field on rank 1 of S2, and with all four particles on one rank. *)
Lemma updateElectricFieldParallel_by_particles_S2 :
  ((Er (shell (run_updateElectricFieldParallel S2_sorted) 1)).[0]
   == (Er (shell (run_updateElectricFieldParallel [on_one_rank S2_sorted]) 0))
        .[offset_of S2_sorted 1 + 0])%Q.
Proof.
  apply (@updateElectricFieldParallel_by_particles S2_sorted 1 0).
  - shells_sized.
  - simpl. lia.
  - simpl. lia.
Defined.





(** Ten steps of a thousand particles in two seconds. *)
Lemma calculatePerformanceMetrics_estimates_run :
  let metrics := calculatePerformanceMetrics 10 1000 1 2 in
  total_time metrics = 2%Q /\
  (memory_bandwidth metrics == 11.52 * gflops metrics)%Q /\
  ((0 <= 10)%Z -> (0 <= 1000)%Z -> (0 <= 1)%Z -> (0 <= gflops metrics)%Q).
Proof.
  apply (@calculatePerformanceMetrics_estimates 10 1000 1 2).
  reflexivity.
Defined.


